(** * The event broadcast hub of mulchd

    A shallow embedding of [Hub], [HubClient], [NewHub], [Hub.Run],
    [Hub.Broadcast], [Hub.Register] and [HubClient.Unregister]
    (the hub code that follows the libvirt wrapper in
    [src/cmd/mulchd/libvirt.go]), and the properties of the dispatch loop.

    The development has three layers:
    - the memory the hub works on (client structs, channels, the
      [clients] map) and the primitive operations the loop performs on it;
    - one iteration of the [for { select { ... } }] loop of [Hub.Run], and
      runs of the loop over the requests it receives;
    - the goroutines that call [Broadcast], [Register] and [Unregister],
      interleaved with the loop, with the unbuffered intake channels as
      rendezvous steps.

    Besides the hub the file covers the libvirt wrapper of the same source
    file ([GetOrCreateStoragePool], [GetOrCreateNetwork]) with its caller
    [App.initLibvirtNetwork] and the start-up check [App.initVMDB] of
    [src/cmd/mulchd/app.go], as sequences of calls whose answers come from
    outside, and the reading loop of [src/old/test-client.go].

    The file gives the models first ([HubModel], [LibvirtModel],
    [VMDBModel], [ClientModel]), then a few concrete runs ([Scenario],
    [LibvirtScenario], [VMDBScenario], [ClientScenario]), then the lemmas and
    the theorems ([HubProofs], [LibvirtProofs], [VMDBProofs],
    [ClientProofs]), and last the theorems applied to the concrete runs. *)

From stdpp Require Import base option list gmap strings.

Set Default Proof Using "Type".

(** Addresses of heap objects ([*HubClient], [*Hub]) and identities of
    channels.  Go compares both by identity. *)
Abbreviation loc := positive.

(** ** Panics of the Go runtime that the hub code could run into *)

Inductive panic :=
| CloseOfClosedChannel
| CloseOfNilChannel
| SendOnClosedChannel
| NilDereference.

Inductive Result (A : Type) :=
| Ok (a : A)
| Panic (p : panic).

Arguments Ok {A} a.

Arguments Panic {A} p.

#[global] Instance Result_ret : MRet Result := @Ok.

#[global] Instance Result_bind : MBind Result :=
  λ A B f r, match r with Ok a => f a | Panic p => Panic p end.

(** ** Data model *)

(** [type HubClient struct { Messages chan *mulch.Message; ClientInfo
    string; hub *Hub }]. *)
Record HubClient := mkHubClient {
  Messages : loc;
  ClientInfo : string;
  hub : loc
}.

(** A channel made by [make(chan *mulch.Message)]: no capacity argument,
    hence no buffer.  Its only state is whether it has been closed; a value
    sent on it goes straight to the goroutine that is receiving. *)
Record Chan := mkChan { closed : bool }.

Section HubModel.

(** [*mulch.Message].  Package [mulch] is outside [src/]; the hub only
    passes the pointer along and never looks at it. *)
Context {Message : Type}.

(** [h], the address of the [Hub] value returned by [NewHub]: the receiver
    of [Run], [Broadcast] and [Register]. *)
Variable h : loc.

(** What the dispatch loop does, operation by operation. *)
Inductive Event :=
| EvInsert (c : loc)                          (* h.clients[client] = true *)
| EvDelete (c : loc)                          (* delete(h.clients, client) *)
| EvTrySend (ch : loc) (m : Message) (ok : bool)
    (* select { case ch <- m: (ok) default: (not ok) } *)
| EvClose (ch : loc).                         (* close(ch) *)

(** The memory the hub works on: the [clients] map of the [Hub] struct,
    the [HubClient] structs and the [Messages] channels allocated by
    [Register], and the history [log] of the loop's operations (a history
    variable: no operation reads it). *)
Record World := mkWorld {
  clients : gmap loc bool;
  objs : gmap loc HubClient;
  chans : gmap loc Chan;
  log : list Event
}.

(** [NewHub]: an empty [clients] map; nothing allocated yet. *)
Definition NewHub : World := mkWorld ∅ ∅ ∅ [].

Definition emit (e : Event) (w : World) : World :=
  mkWorld (clients w) (objs w) (chans w) (log w ++ [e]).

(** [h.clients[c] = true] *)
Definition map_insert (c : loc) (w : World) : World :=
  emit (EvInsert c) (mkWorld (<[c := true]> (clients w)) (objs w) (chans w) (log w)).

(** [delete(h.clients, c)] *)
Definition map_delete (c : loc) (w : World) : World :=
  emit (EvDelete c) (mkWorld (delete c (clients w)) (objs w) (chans w) (log w)).

(** [close(ch)]: panics on a nil and on a closed channel. *)
Definition close (ch : loc) (w : World) : Result World :=
  match chans w !! ch with
  | None => Panic CloseOfNilChannel
  | Some q =>
      if closed q then Panic CloseOfClosedChannel
      else Ok (emit (EvClose ch)
                 (mkWorld (clients w) (objs w) (<[ch := mkChan true]> (chans w)) (log w)))
  end.

(** [select { case ch <- m: ... default: ... }] on an unbuffered channel.
    [rdy] tells whether a goroutine is blocked receiving from [ch] at
    this instant.  The send case panics on a closed channel, is never ready
    on a nil channel, and otherwise proceeds exactly when a receiver is
    waiting.  The result tells which branch was taken. *)
Definition try_send (rdy : bool) (ch : loc) (m : Message) (w : World)
  : Result (bool * World) :=
  match chans w !! ch with
  | None => Ok (false, emit (EvTrySend ch m false) w)
  | Some q =>
      if closed q then Panic SendOnClosedChannel
      else Ok (rdy, emit (EvTrySend ch m rdy) w)
  end.

(** The address [c] as a [*HubClient] that is dereferenced. *)
Definition deref (c : loc) (w : World) : Result HubClient :=
  match objs w !! c with
  | Some hc => Ok hc
  | None => Panic NilDereference
  end.

(** ** The dispatch loop, [Hub.Run] *)

(** What arrives on the three intake channels. *)
Inductive Request :=
| ReqRegister (c : loc)          (* client := <-h.register *)
| ReqUnregister (c : loc)        (* client := <-h.unregister *)
| ReqBroadcast (m : Message).    (* message := <-h.broadcast *)

(** What the surroundings decide during one fan-out: which channels have
    a receiver waiting when the loop tries to send on them, and the order
    in which [range h.clients] produces the keys. *)
Record Env := mkEnv {
  ready : loc → bool;
  order : list loc
}.

(** The body of [for client := range h.clients]:
[[
    select {
    case client.Messages <- message:
    default:
        close(client.Messages)
        delete(h.clients, client)
    }
]] *)
Definition fanout_one (rdy : loc → bool) (m : Message) (c : loc) (w : World)
  : Result World :=
  hc ← deref c w;
  '(ok, w1) ← try_send (rdy (Messages hc)) (Messages hc) m w;
  if (ok : bool) then Ok w1
  else w2 ← close (Messages hc) w1; Ok (map_delete c w2).

(** [for client := range h.clients { ... }] over the keys in the order
    [keys].  An entry removed before it is reached is not produced. *)
Fixpoint fanout (rdy : loc → bool) (m : Message) (keys : list loc) (w : World)
  : Result World :=
  match keys with
  | [] => Ok w
  | c :: rest =>
      match clients w !! c with
      | Some _ => w1 ← fanout_one rdy m c w; fanout rdy m rest w1
      | None => fanout rdy m rest w
      end
  end.

(** [case client := <-h.unregister]:
[[
    if _, ok := h.clients[client]; ok {
        delete(h.clients, client)
        close(client.Messages)
    }
]] *)
Definition Run_unregister (c : loc) (w : World) : Result World :=
  match clients w !! c with
  | Some _ =>
      let w1 := map_delete c w in
      hc ← deref c w1; close (Messages hc) w1
  | None => Ok w
  end.

(** One iteration of the loop of [Hub.Run], once [select] has received
    the request [r]. *)
Definition Run_iter (e : Env) (r : Request) (w : World) : Result World :=
  match r with
  | ReqRegister c => Ok (map_insert c w)
  | ReqUnregister c => Run_unregister c w
  | ReqBroadcast m => fanout (ready e) m (order e) w
  end.

(** [range] over a map produces every key of the map once, in an order
    that Go leaves open. *)
Definition range_ok (w : World) (keys : list loc) : Prop :=
  NoDup keys ∧ ∀ c, c ∈ keys ↔ is_Some (clients w !! c).

(** One possible order. *)
Definition keys_of (w : World) : list loc := (map_to_list (clients w)).*1.

(** ** Runs of the hub *)

(** The steps that change the hub's memory: the allocation in
    [Hub.Register],
[[
    client := &HubClient{Messages: make(chan *mulch.Message), ClientInfo: info, hub: h}
]]
    and an iteration of the loop of [Hub.Run]. *)
Inductive Action :=
| Alloc (c ch : loc) (info : string)
| Recv (r : Request) (e : Env).

Definition alloc (c ch : loc) (info : string) (w : World) : World :=
  mkWorld (clients w) (<[c := mkHubClient ch info h]> (objs w))
          (<[ch := mkChan false]> (chans w)) (log w).

Definition do_action (a : Action) (w : World) : Result World :=
  match a with
  | Alloc c ch info => Ok (alloc c ch info w)
  | Recv r e => Run_iter e r w
  end.

(** What the program guarantees about the actions: an allocation returns
    unused addresses; [Register] sends each client it allocates, once;
    [range] follows the map. *)
Definition valid (w : World) (a : Action) : Prop :=
  match a with
  | Alloc c ch _ => objs w !! c = None ∧ chans w !! ch = None
  | Recv (ReqRegister c) _ => is_Some (objs w !! c) ∧ EvInsert c ∉ log w
  | Recv (ReqUnregister _) _ => True
  | Recv (ReqBroadcast _) e => range_ok w (order e)
  end.

Inductive steps : World → list Action → World → Prop :=
| steps_nil w : steps w [] w
| steps_cons w a w1 acts w2 :
    valid w a → do_action a w = Ok w1 → steps w1 acts w2 →
    steps w (a :: acts) w2.

(** The same run as a function. *)
Fixpoint exec (acts : list Action) (w : World) : Result World :=
  match acts with
  | [] => Ok w
  | a :: rest => w1 ← do_action a w; exec rest w1
  end.

(** ** Observations on a history *)

(** The messages that went through channel [ch], in order: what the
    reader of that delivery queue has received. *)
Definition sent_on (ch : loc) (e : Event) : option Message :=
  match e with
  | EvTrySend ch' m true => if decide (ch' = ch) then Some m else None
  | _ => None
  end.

Definition received (ch : loc) (l : list Event) : list Message := omap (sent_on ch) l.

(** The enqueue attempts made on channel [ch]. *)
Definition attempt_on (ch : loc) (e : Event) : option bool :=
  match e with
  | EvTrySend ch' _ ok => if decide (ch' = ch) then Some ok else None
  | _ => None
  end.

Definition attempts (ch : loc) (l : list Event) : list bool := omap (attempt_on ch) l.

Definition close_of (ch : loc) (e : Event) : option unit :=
  match e with
  | EvClose ch' => if decide (ch' = ch) then Some () else None
  | _ => None
  end.

Definition closes (ch : loc) (l : list Event) : nat := length (omap (close_of ch) l).

(** The messages broadcast during a run, in the order the loop took them. *)
Definition broadcast_of (a : Action) : option Message :=
  match a with
  | Recv (ReqBroadcast m) _ => Some m
  | _ => None
  end.

Definition broadcasts (acts : list Action) : list Message := omap broadcast_of acts.

Definition is_open (w : World) (ch : loc) : Prop := chans w !! ch = Some (mkChan false).

Definition is_closed (w : World) (ch : loc) : Prop := chans w !! ch = Some (mkChan true).

Definition active (w : World) (c : loc) : Prop := is_Some (clients w !! c).

(** ** The loop without its panics

    The iteration written with total functions.  Under the invariant [wf]
    below the code computes exactly these ([fanout_total],
    [Run_unregister_total]), which separates "no panic" from "what it
    does". *)

(** The send case was taken. *)
Definition deliver (ch : loc) (m : Message) (w : World) : World :=
  emit (EvTrySend ch m true) w.

(** The default case was taken: close, then delete. *)
Definition evict (c ch : loc) (m : Message) (w : World) : World :=
  mkWorld (delete c (clients w)) (objs w) (<[ch := mkChan true]> (chans w))
          (log w ++ [EvTrySend ch m false; EvClose ch; EvDelete c]).

Definition pass_one (rdy : loc → bool) (m : Message) (w : World) (c : loc) : World :=
  match clients w !! c, objs w !! c with
  | Some _, Some hc =>
      if rdy (Messages hc) then deliver (Messages hc) m w
      else evict c (Messages hc) m w
  | _, _ => w
  end.

Definition pass (rdy : loc → bool) (m : Message) (keys : list loc) (w : World) : World :=
  foldl (pass_one rdy m) w keys.

(** The unregister case for an active client: delete, then close. *)
Definition drop_client (c ch : loc) (w : World) : World :=
  mkWorld (delete c (clients w)) (objs w) (<[ch := mkChan true]> (chans w))
          (log w ++ [EvDelete c; EvClose ch]).

(** No attempt on [ch] comes after a close of [ch]. *)
Definition sends_before_close (ch : loc) (l : list Event) : Prop :=
  ∀ l1 l2 m ok, l = l1 ++ EvTrySend ch m ok :: l2 → closes ch l1 = 0.

(** ** The invariant of the hub's memory *)

Record wf (w : World) : Prop := mkWf {
  (* an active client is a registered struct whose queue is open *)
  wf_active : ∀ c, active w c →
    ∃ hc, objs w !! c = Some hc ∧ is_open w (Messages hc) ∧ EvInsert c ∈ log w;
  (* every client has a channel of its own *)
  wf_inj : ∀ c1 c2 hc1 hc2,
    objs w !! c1 = Some hc1 → objs w !! c2 = Some hc2 →
    Messages hc1 = Messages hc2 → c1 = c2;
  wf_chan : ∀ c hc, objs w !! c = Some hc → is_Some (chans w !! Messages hc);
  (* a client not registered yet has an open queue *)
  wf_fresh : ∀ c hc, objs w !! c = Some hc → EvInsert c ∉ log w →
    is_open w (Messages hc);
  (* a client that was registered and is no longer active has a closed queue *)
  wf_gone : ∀ c hc, objs w !! c = Some hc → EvInsert c ∈ log w → ¬ active w c →
    is_closed w (Messages hc);
  (* the closed flag counts the closes *)
  wf_closes : ∀ ch,
    closes ch (log w) = match chans w !! ch with Some (mkChan true) => 1 | _ => 0 end;
  wf_order : ∀ ch, sends_before_close ch (log w);
  wf_unalloc : ∀ ch, chans w !! ch = None → attempts ch (log w) = [];
  (* only allocated clients were ever registered *)
  wf_reg : ∀ c, EvInsert c ∈ log w → is_Some (objs w !! c);
  (* nothing was ever sent to a client that is not registered yet *)
  wf_quiet : ∀ c hc, objs w !! c = Some hc → EvInsert c ∉ log w →
    attempts (Messages hc) (log w) = []
}.

(** ** What one fan-out does *)

(** The operations of the fan-out that concern client [c]. *)
Definition pass_events (rdy : loc → bool) (m : Message) (w : World) (c : loc)
  : list Event :=
  match clients w !! c, objs w !! c with
  | Some _, Some hc =>
      if rdy (Messages hc) then [EvTrySend (Messages hc) m true]
      else [EvTrySend (Messages hc) m false; EvClose (Messages hc); EvDelete c]
  | _, _ => []
  end.

(** ** What one action adds to the history *)

Definition action_events (w : World) (a : Action) : list Event :=
  match a with
  | Alloc _ _ _ => []
  | Recv (ReqRegister c) _ => [EvInsert c]
  | Recv (ReqUnregister c) _ =>
      match clients w !! c, objs w !! c with
      | Some _, Some hc => [EvDelete c; EvClose (Messages hc)]
      | _, _ => []
      end
  | Recv (ReqBroadcast m) e => order e ≫= pass_events (ready e) m w
  end.

Definition reachable (w : World) : Prop := ∃ acts, steps NewHub acts w.

(** ** What a subscriber receives during a run *)

(** What action [a], taken in [w], hands to the reader of the queue of
    client [c]. *)
Definition gets (w : World) (c : loc) (hc : HubClient) (a : Action) : list Message :=
  match a with
  | Recv (ReqBroadcast m) e =>
      match clients w !! c with
      | Some _ => if ready e (Messages hc) then [m] else []
      | None => []
      end
  | _ => []
  end.

(** ** Registrations only *)

(** The clients whose registration the loop processes during a run. *)
Definition registration_of (a : Action) : option loc :=
  match a with
  | Recv (ReqRegister c) _ => Some c
  | _ => None
  end.

Definition registered (acts : list Action) : list loc := omap registration_of acts.

(** The steps of a [Register] call: the allocation, and the loop taking
    the registration. *)
Definition is_registration (a : Action) : Prop :=
  match a with
  | Alloc _ _ _ | Recv (ReqRegister _) _ => True
  | _ => False
  end.

(** ** Order of delivery *)

(** The reader of the queue of [hc] is waiting at every broadcast. *)
Definition never_stalls (hc : HubClient) (a : Action) : Prop :=
  match a with
  | Recv (ReqBroadcast _) e => ready e (Messages hc) = true
  | _ => True
  end.

(** Nobody unregisters [c]. *)
Definition stays (c : loc) (a : Action) : Prop :=
  match a with
  | Recv (ReqUnregister c') _ => c' ≠ c
  | _ => True
  end.

(** ** The goroutines around the loop

    [NewApp] does [app.Hub = NewHub(); go app.Hub.Run()]; from then on any
    number of goroutines call [Broadcast], [Register] and [Unregister].
    The three intake channels are made without capacity, so a send on one of
    them completes together with the receive of the loop's [select]: one
    joint step.  Between two such steps the loop runs the body of the case
    it has selected, while the callers go on by themselves. *)

(** A call made by some goroutine. *)
Inductive Call :=
| CallBroadcast (m : Message)       (* h.Broadcast(message) *)
| CallRegister (info : string)      (* h.Register(info) *)
| CallUnregister (c : loc).         (* hc.Unregister() *)

(** Where a goroutine stands in its call. *)
Inductive PC :=
| BroadcastSend (m : Message)       (* h.broadcast <- message *)
| BroadcastEnd                      (* the send is done; the function ends *)
| RegisterAlloc (info : string)     (* client := &HubClient{...} *)
| RegisterSend (c : loc)            (* h.register <- client *)
| RegisterEnd (c : loc)             (* return client *)
| UnregisterSend (c : loc)          (* hc.hub.unregister <- hc *)
| UnregisterEnd                     (* the send is done; the function ends *)
| Returned (v : option loc).        (* back in the caller, with the result *)

(** Where [Hub.Run] stands. *)
Inductive HubPC :=
| Select                            (* blocked in [select] *)
| Body (r : Request).               (* runs the case body for [r] *)

Record System := mkSystem {
  world : World;
  run : HubPC;
  gos : gmap nat PC
}.

(** [NewHub()] and [go Run()]. *)
Definition boot : System := mkSystem NewHub Select ∅.

Definition entry (call : Call) : PC :=
  match call with
  | CallBroadcast m => BroadcastSend m
  | CallRegister info => RegisterAlloc info
  | CallUnregister c => UnregisterSend c
  end.

(** The send on an intake channel of [h] that a goroutine is blocked on,
    and where the goroutine continues once the loop has received it.
    [Unregister] sends on the channel of the hub its client points to. *)
Definition sends (w : World) (pc : PC) : option (Request * PC) :=
  match pc with
  | BroadcastSend m => Some (ReqBroadcast m, BroadcastEnd)
  | RegisterSend c => Some (ReqRegister c, RegisterEnd c)
  | UnregisterSend c =>
      match objs w !! c with
      | Some hc => if decide (hub hc = h) then Some (ReqUnregister c, UnregisterEnd) else None
      | None => None
      end
  | _ => None
  end.

(** The result with which a goroutine that reached the end of its call
    returns. *)
Definition returns (pc : PC) : option (option loc) :=
  match pc with
  | BroadcastEnd | UnregisterEnd => Some None
  | RegisterEnd c => Some (Some c)
  | _ => None
  end.

(** A caller can only unregister a client that some [Register] has
    returned to it. *)
Definition call_ok (σ : System) (call : Call) : Prop :=
  match call with
  | CallUnregister c => ∃ g, gos σ !! g = Some (Returned (Some c))
  | _ => True
  end.

Definition env_ok (w : World) (r : Request) (e : Env) : Prop :=
  match r with
  | ReqBroadcast _ => range_ok w (order e)
  | _ => True
  end.

Inductive Label :=
| LCall (g : nat) (call : Call)        (* goroutine [g] enters a call *)
| LAlloc (g : nat) (c ch : loc)        (* [Register] allocates client and channel *)
| LAccept (g : nat) (r : Request)      (* the send of [g] meets the receive of the loop *)
| LBody (r : Request) (e : Env)        (* the loop runs the case body *)
| LReturn (g : nat) (v : option loc).  (* [g] returns *)

Inductive sys_step : System → Label → System → Prop :=
| step_call σ g call :
    gos σ !! g = None → call_ok σ call →
    sys_step σ (LCall g call)
      (mkSystem (world σ) (run σ) (<[g := entry call]> (gos σ)))
| step_alloc σ g info c ch :
    gos σ !! g = Some (RegisterAlloc info) →
    objs (world σ) !! c = None → chans (world σ) !! ch = None →
    sys_step σ (LAlloc g c ch)
      (mkSystem (alloc c ch info (world σ)) (run σ) (<[g := RegisterSend c]> (gos σ)))
| step_accept σ g pc r pc' :
    run σ = Select → gos σ !! g = Some pc → sends (world σ) pc = Some (r, pc') →
    sys_step σ (LAccept g r)
      (mkSystem (world σ) (Body r) (<[g := pc']> (gos σ)))
| step_body σ r e w1 :
    run σ = Body r → env_ok (world σ) r e → Run_iter e r (world σ) = Ok w1 →
    sys_step σ (LBody r e) (mkSystem w1 Select (gos σ))
| step_return σ g pc v :
    gos σ !! g = Some pc → returns pc = Some v →
    sys_step σ (LReturn g v)
      (mkSystem (world σ) (run σ) (<[g := Returned v]> (gos σ))).

Inductive sys_steps : System → list Label → System → Prop :=
| sys_steps_nil σ : sys_steps σ [] σ
| sys_steps_snoc σ tr σ1 l σ2 :
    sys_steps σ tr σ1 → sys_step σ1 l σ2 → sys_steps σ (tr ++ [l]) σ2.

(** What holds between the goroutines and the loop. *)
Record sys_inv (σ : System) : Prop := mkSysInv {
  (* the memory is one the loop can reach *)
  inv_world : reachable (world σ);
  (* a client on its way to the loop is allocated, was never registered,
     and is carried by one goroutine only *)
  inv_sending : ∀ g c, gos σ !! g = Some (RegisterSend c) →
    is_Some (objs (world σ) !! c) ∧ (EvInsert c ∉ log (world σ)) ∧
    run σ ≠ Body (ReqRegister c) ∧
    ∀ g', gos σ !! g' = Some (RegisterSend c) → g' = g;
  inv_taken : ∀ c, run σ = Body (ReqRegister c) →
    is_Some (objs (world σ) !! c) ∧ (EvInsert c ∉ log (world σ)) ∧
    ∀ g, (gos σ !! g) ≠ Some (RegisterSend c);
  (* once the send of [Register] is done, the loop has the registration
     in hand or has processed it *)
  inv_sent : ∀ g c,
    gos σ !! g = Some (RegisterEnd c) ∨ gos σ !! g = Some (Returned (Some c)) →
    run σ = Body (ReqRegister c) ∨ EvInsert c ∈ log (world σ)
}.

Definition sys_reachable (σ : System) : Prop := ∃ tr, sys_steps boot tr σ.

(** ** Further observations *)

(** How often the loop has put [c] into the [clients] map, and how often it
    has deleted it. *)
Definition insert_of (c : loc) (e : Event) : option unit :=
  match e with
  | EvInsert c' => if decide (c' = c) then Some () else None
  | _ => None
  end.

Definition inserts (c : loc) (l : list Event) : nat := length (omap (insert_of c) l).

Definition delete_of (c : loc) (e : Event) : option unit :=
  match e with
  | EvDelete c' => if decide (c' = c) then Some () else None
  | _ => None
  end.

Definition deletes (c : loc) (l : list Event) : nat := length (omap (delete_of c) l).

(** The outcome of the [select] that action [a], taken in [w], runs on the
    queue of client [c]. *)
Definition tries (w : World) (c : loc) (hc : HubClient) (a : Action) : list bool :=
  match a with
  | Recv (ReqBroadcast _) e =>
      match clients w !! c with
      | Some _ => [ready e (Messages hc)]
      | None => []
      end
  | _ => []
  end.

(** The goroutine at [pc] has client [c] in hand: [Register] has allocated
    it there, or has returned it. *)
Definition carries (c : loc) (pc : PC) : Prop :=
  pc = RegisterSend c ∨ pc = RegisterEnd c ∨ pc = Returned (Some c).

(** What holds of the clients that the goroutines have in hand. *)
Record callers_inv (σ : System) : Prop := mkCallersInv {
  (* every client struct points to this hub *)
  inv_hub : ∀ c hc, objs (world σ) !! c = Some hc → hub hc = h;
  (* a client being unregistered is allocated, and the loop has its
     registration in hand or has processed it *)
  inv_unreg : ∀ g c, gos σ !! g = Some (UnregisterSend c) →
    is_Some (objs (world σ) !! c) ∧
    (run σ = Body (ReqRegister c) ∨ EvInsert c ∈ log (world σ));
  inv_unreg_taken : ∀ c, run σ = Body (ReqUnregister c) →
    is_Some (objs (world σ) !! c) ∧ EvInsert c ∈ log (world σ);
  (* a client in the hands of a [Register] call is allocated, and no other
     [Register] call has it *)
  inv_carried : ∀ g pc c, gos σ !! g = Some pc → carries c pc →
    is_Some (objs (world σ) !! c);
  inv_unique : ∀ g1 g2 pc1 pc2 c,
    gos σ !! g1 = Some pc1 → gos σ !! g2 = Some pc2 →
    carries c pc1 → carries c pc2 → g1 = g2
}.

(** In a step labelled [lb] the readers of the delivery queues behave as
    [rdy] says. *)
Definition readers (rdy : loc → bool) (lb : Label) : Prop :=
  match lb with
  | LBody _ e => ready e = rdy
  | _ => True
  end.

End HubModel.

(** * The libvirt wrapper

    [GetOrCreateStoragePool] and [GetOrCreateNetwork] (the first part of
    [src/cmd/mulchd/libvirt.go]) and their caller [App.initLibvirtNetwork]
    ([src/cmd/mulchd/app.go]).  These functions are sequences of calls to
    libvirt, to the file system and to the log, with an early return at
    every error.  The model keeps the calls, in order, and takes every
    answer from outside. *)

(** A Go [error] value: a [libvirt.Error] with its [Code] and [Domain], or
    a value of any other type.  [text] is what the [Error()] method
    returns. *)
Inductive error :=
| LibvirtError (Code Domain : Z) (text : string)
| OtherError (text : string).

Definition Error (e : error) : string :=
  match e with
  | LibvirtError _ _ text => text
  | OtherError text => text
  end.

(** [fmt.Errorf(...)], given the formatted text. *)
Definition Errorf (text : string) : error := OtherError text.

(** How an expression or a call ends: with a value, or in a panic of the
    Go runtime (a failed type assertion, a nil dereference, an index out of
    range). *)
Inductive Outcome (A : Type) :=
| Returns (a : A)
| Panics.

Arguments Returns {A} a.

Arguments Panics {A}.

(** A computation that talks to the outside: the calls it has made, in
    order, and how it ended. *)
Definition Trace (C A : Type) : Type := list C * Outcome A.

#[global] Instance Trace_ret {C} : MRet (Trace C) := λ A a, ([], Returns a).

#[global] Instance Trace_bind {C} : MBind (Trace C) := λ A B f m,
  match m with
  | (l, Returns a) => let '(l', r) := f a in (l ++ l', r)
  | (l, Panics) => (l, Panics)
  end.

(** A call that leaves the program, and an expression evaluated inside. *)
Definition call {C R} (c : C) (answer : Outcome R) : Trace C R := ([c], answer).

Definition eval {C R} (value : Outcome R) : Trace C R := ([], value).

(** [type Libvirt struct], without [conn] (the connection is what answers
    the calls below) and without [Pools], which the functions modelled here
    do not touch. *)
Record Libvirt (Net NetCfg : Type) := mkLibvirt {
  Network : option Net;
  NetworkXML : option NetCfg
}.

Arguments mkLibvirt {Net NetCfg} Network NetworkXML.

Arguments Network {Net NetCfg} l.

Arguments NetworkXML {Net NetCfg} l.

Section LibvirtModel.

(** What [*libvirt.StoragePool] and [*libvirt.Network] point to (a nil
    pointer is [None] below), and the structs [libvirtxml.StoragePool] and
    [libvirtxml.Network].  The packages are outside [src/]. *)
Context {Pool Net PoolCfg NetCfg : Type}.

(** The calls that leave the program. *)
Inductive LvCall :=
| LvLookupStoragePoolByName (name : string)
| LvInfo (msg : string)                                (* log.Info(msg) *)
| LvReadFile (file : string)                           (* ioutil.ReadFile *)
| LvPoolUnmarshal (doc : string)                       (* poolcfg.Unmarshal *)
| LvAbs (path : string)                                (* filepath.Abs *)
| LvPoolMarshal (cfg : PoolCfg)                        (* poolcfg.Marshal *)
| LvStoragePoolDefineXML (xml : string) (flags : Z)
| LvPoolSetAutostart (pool : option Pool) (autostart : bool)
| LvPoolCreate (pool : option Pool) (flags : Z)
| LvPoolRefresh (pool : option Pool) (flags : Z)
| LvLookupNetworkByName (name : string)
| LvNetworkDefineXML (xml : string)
| LvNetSetAutostart (net : option Net) (autostart : bool)
| LvNetCreate (net : option Net)
| LvNetGetXMLDesc (net : option Net) (flags : Z)
| LvNetUnmarshal (doc : string).                       (* netcfg.Unmarshal *)

(** What comes from outside the program: the constants of package
    [libvirt] that the functions use; the answers to the calls (the results
    of a Go call as a tuple, with [None] for a nil error, or a panic inside
    the callee; the functions below make each call at most once with the
    same arguments); and, in the last six fields, the field accesses on the
    [libvirtxml] structs, of which those that go through a pointer or index
    a slice can panic. *)
Record Outside := mkOutside {
  FROM_STORAGE : Z;
  ERR_NO_STORAGE_POOL : Z;
  FROM_NETWORK : Z;
  ERR_NO_NETWORK : Z;
  STORAGE_POOL_CREATE_WITH_BUILD : Z;
  LookupStoragePoolByName : string → Outcome (option Pool * option error);
  Info : string → Outcome unit;
  ReadFile : string → Outcome (string * option error);
  StoragePool_Unmarshal : string → Outcome (PoolCfg * option error);
  Abs : string → Outcome (string * option error);
  StoragePool_Marshal : PoolCfg → Outcome (string * option error);
  StoragePoolDefineXML : string → Z → Outcome (option Pool * option error);
  StoragePool_SetAutostart : option Pool → bool → Outcome (option error);
  StoragePool_Create : option Pool → Z → Outcome (option error);
  StoragePool_Refresh : option Pool → Z → Outcome (option error);
  LookupNetworkByName : string → Outcome (option Net * option error);
  NetworkDefineXML : string → Outcome (option Net * option error);
  Network_SetAutostart : option Net → bool → Outcome (option error);
  Network_Create : option Net → Outcome (option error);
  Network_GetXMLDesc : option Net → Z → Outcome (string * option error);
  Network_Unmarshal : string → Outcome (NetCfg * option error);
  set_Name : string → PoolCfg → PoolCfg;                         (* poolcfg.Name = ... *)
  set_Target_Path : string → PoolCfg → Outcome PoolCfg;          (* poolcfg.Target.Path = ... *)
  set_Target_Permissions_Mode : string → PoolCfg → Outcome PoolCfg;
  get_Name : NetCfg → string;                                    (* netcfg.Name *)
  get_IPs_0_Address : NetCfg → Outcome string;                   (* netcfg.IPs[0].Address *)
  get_Bridge_Name : NetCfg → Outcome string                      (* netcfg.Bridge.Name *)
}.

(** The computations of the wrapper. *)
Local Abbreviation M := (Trace LvCall).

(** [err.(libvirt.Error)], the type assertion in its one-result form: it
    panics when [err] is of another type. *)
Definition as_libvirt_Error (err : error) : M (Z * Z) :=
  match err with
  | LibvirtError code domain _ => mret (code, domain)
  | OtherError _ => eval Panics
  end.

(** The end of [GetOrCreateStoragePool]:
[[
    err := pool.Refresh(0)
    if err != nil {
        return nil, fmt.Errorf("GetOrCreateStoragePool: pool.Refresh: %s", err)
    }
    return pool, nil
]] *)
Definition refresh_pool (lv : Outside) (pool : option Pool)
  : M (option Pool * option error) :=
  err ← call (LvPoolRefresh pool 0) (StoragePool_Refresh lv pool 0);
  match err with
  | Some err =>
      mret (None, Some (Errorf ("GetOrCreateStoragePool: pool.Refresh: " +:+ Error err)))
  | None => mret (pool, None)
  end.

(** [GetOrCreateStoragePool(poolName, poolPath, templateFile, mode, log)],
    with its two results, the pool and the error.  Every [match err] is an [if err != nil { return nil, ... }] of the
    source.  After [pool.SetAutostart(true)], whose result the source drops,
    the source tests [err] again: that is still the [err] assigned by
    [StoragePoolDefineXML]. *)
Definition GetOrCreateStoragePool (lv : Outside)
    (poolName poolPath templateFile mode : string)
  : M (option Pool * option error) :=
  '(pool, errP) ← call (LvLookupStoragePoolByName poolName)
                       (LookupStoragePoolByName lv poolName);
  match errP with
  | None => refresh_pool lv pool
  | Some errP =>
      '(code, domain) ← as_libvirt_Error errP;
      if decide (domain = FROM_STORAGE lv ∧ code = ERR_NO_STORAGE_POOL lv) then
        let msg := "pool '" +:+ poolName +:+ "' not found, let's create it" in
        _ ← call (LvInfo msg) (Info lv msg);
        '(xml, err) ← call (LvReadFile templateFile) (ReadFile lv templateFile);
        match err with
        | Some err =>
            mret (None, Some (Errorf ("GetOrCreateStoragePool: " +:+ templateFile
                                        +:+ ": " +:+ Error err)))
        | None =>
        '(poolcfg, err) ← call (LvPoolUnmarshal xml) (StoragePool_Unmarshal lv xml);
        match err with
        | Some err =>
            mret (None, Some (Errorf ("GetOrCreateStoragePool: poolcfg.Unmarshal: "
                                        +:+ Error err)))
        | None =>
        let poolcfg := set_Name lv poolName poolcfg in
        '(absPoolPath, err) ← call (LvAbs poolPath) (Abs lv poolPath);
        match err with
        | Some err =>
            mret (None, Some (Errorf ("GetOrCreateStoragePool: filepath.Abs: "
                                        +:+ Error err)))
        | None =>
        poolcfg ← eval (set_Target_Path lv absPoolPath poolcfg);
        poolcfg ← (if decide (mode ≠ "")
                   then eval (set_Target_Permissions_Mode lv mode poolcfg)
                   else mret poolcfg);
        '(out, err) ← call (LvPoolMarshal poolcfg) (StoragePool_Marshal lv poolcfg);
        match err with
        | Some err =>
            mret (None, Some (Errorf ("GetOrCreateStoragePool: poolcfg.Marshal: "
                                        +:+ Error err)))
        | None =>
        '(pool, err) ← call (LvStoragePoolDefineXML out 0)
                            (StoragePoolDefineXML lv out 0);
        match err with
        | Some err =>
            mret (None, Some (Errorf ("GetOrCreateStoragePool: StoragePoolDefineXML: "
                                        +:+ Error err)))
        | None =>
        _ ← call (LvPoolSetAutostart pool true) (StoragePool_SetAutostart lv pool true);
        match err with
        | Some err =>
            mret (None, Some (Errorf ("GetOrCreateStoragePool: pool.SetAutostart: "
                                        +:+ Error err)))
        | None =>
        err ← call (LvPoolCreate pool (STORAGE_POOL_CREATE_WITH_BUILD lv))
                   (StoragePool_Create lv pool (STORAGE_POOL_CREATE_WITH_BUILD lv));
        match err with
        | Some err =>
            mret (None, Some (Errorf ("GetOrCreateStoragePool: pool.Create: "
                                        +:+ Error err)))
        | None => refresh_pool lv pool
        end end end end end end end
      else refresh_pool lv pool
  end.

(** [GetOrCreateNetwork(networkName, templateFile, log)], with its three
    results: the network, its parsed description and the error.  The end
    of the function, from [net.GetXMLDesc(0)] on, comes first. *)
Definition describe_network (lv : Outside) (net : option Net)
  : M (option Net * option NetCfg * option error) :=
  '(xmldoc, err) ← call (LvNetGetXMLDesc net 0) (Network_GetXMLDesc lv net 0);
  match err with
  | Some err =>
      mret (None, None, Some (Errorf ("GetOrCreateNetwork: GetXMLDesc: " +:+ Error err)))
  | None =>
  '(netcfg, err) ← call (LvNetUnmarshal xmldoc) (Network_Unmarshal lv xmldoc);
  match err with
  | Some err =>
      mret (None, None, Some (Errorf ("GetOrCreateNetwork: Unmarshal: " +:+ Error err)))
  | None => mret (net, Some netcfg, None)
  end end.

Definition GetOrCreateNetwork (lv : Outside) (networkName templateFile : string)
  : M (option Net * option NetCfg * option error) :=
  '(net, errN) ← call (LvLookupNetworkByName networkName)
                      (LookupNetworkByName lv networkName);
  match errN with
  | None => describe_network lv net
  | Some errN =>
      '(code, domain) ← as_libvirt_Error errN;
      if decide (domain = FROM_NETWORK lv ∧ code = ERR_NO_NETWORK lv) then
        let msg := "network '" +:+ networkName
                     +:+ "' not found, it's OK, let's create it" in
        _ ← call (LvInfo msg) (Info lv msg);
        '(xml, err) ← call (LvReadFile templateFile) (ReadFile lv templateFile);
        match err with
        | Some err =>
            mret (None, None, Some (Errorf ("GetOrCreateNetwork: " +:+ templateFile
                                              +:+ ": " +:+ Error err)))
        | None =>
        '(net, err) ← call (LvNetworkDefineXML xml) (NetworkDefineXML lv xml);
        match err with
        | Some err =>
            mret (None, None, Some (Errorf ("GetOrCreateNetwork: NetworkDefineXML: "
                                              +:+ Error err)))
        | None =>
        err ← call (LvNetSetAutostart net true) (Network_SetAutostart lv net true);
        match err with
        | Some err =>
            mret (None, None, Some (Errorf ("GetOrCreateNetwork: SetAutostart: "
                                              +:+ Error err)))
        | None =>
        err ← call (LvNetCreate net) (Network_Create lv net);
        match err with
        | Some err =>
            mret (None, None, Some (Errorf ("GetOrCreateNetwork: Create: "
                                              +:+ Error err)))
        | None => describe_network lv net
        end end end end
      else
        mret (None, None, Some (Errorf ("GetOrCreateNetwork: Unexpected error: "
                                          +:+ Error errN)))
  end.

(** [App.initLibvirtNetwork], on [app.Libvirt] and with
    [app.Config.configPath].  [netcfg] is dereferenced for the log line
    before the two fields are assigned. *)
Definition initLibvirtNetwork (lv : Outside) (configPath : string)
    (app_Libvirt : Libvirt Net NetCfg)
  : M (Libvirt Net NetCfg * option error) :=
  let networkName := "mulch" in
  '(net, netcfg, err) ← GetOrCreateNetwork lv networkName
                          (configPath +:+ "/templates/network.xml");
  match err with
  | Some err =>
      mret (app_Libvirt, Some (Errorf ("initLibvirtNetwork: " +:+ Error err)))
  | None =>
      cfg ← eval (match netcfg with Some cfg => Returns cfg | None => Panics end);
      let name := get_Name lv cfg in
      address ← eval (get_IPs_0_Address lv cfg);
      bridge ← eval (get_Bridge_Name lv cfg);
      let msg := "network '" +:+ name +:+ "': " +:+ address +:+ " (" +:+ bridge +:+ ")" in
      _ ← call (LvInfo msg) (Info lv msg);
      mret (mkLibvirt net netcfg, None)
  end.

(** The calls that create something in libvirt. *)
Definition creates (c : LvCall) : Prop :=
  match c with
  | LvStoragePoolDefineXML _ _ | LvPoolSetAutostart _ _ | LvPoolCreate _ _
  | LvNetworkDefineXML _ | LvNetSetAutostart _ _ | LvNetCreate _ => True
  | _ => False
  end.

(** The answers [lv], with another answer to [pool.SetAutostart]. *)
Definition with_SetAutostart (answer : option Pool → bool → Outcome (option error))
    (lv : Outside) : Outside :=
  mkOutside (FROM_STORAGE lv) (ERR_NO_STORAGE_POOL lv) (FROM_NETWORK lv)
    (ERR_NO_NETWORK lv) (STORAGE_POOL_CREATE_WITH_BUILD lv)
    (LookupStoragePoolByName lv) (Info lv) (ReadFile lv)
    (StoragePool_Unmarshal lv) (Abs lv) (StoragePool_Marshal lv)
    (StoragePoolDefineXML lv) answer (StoragePool_Create lv)
    (StoragePool_Refresh lv) (LookupNetworkByName lv) (NetworkDefineXML lv)
    (Network_SetAutostart lv) (Network_Create lv) (Network_GetXMLDesc lv)
    (Network_Unmarshal lv) (set_Name lv) (set_Target_Path lv)
    (set_Target_Permissions_Mode lv) (get_Name lv) (get_IPs_0_Address lv)
    (get_Bridge_Name lv).

End LibvirtModel.

(** * The check of the VM database at start-up

    [App.initVMDB] of [src/cmd/mulchd/app.go]: it opens the database and
    goes through the names in it; a VM that libvirt does not know is
    deleted from the database, the others are compared with libvirt. *)

Section VMDBModel.

(** What [*libvirt.Domain] and [*VM] point to; a nil pointer is [None]
    below.  Both types are outside [src/]. *)
Context {Domain VM : Type}.

(** The calls that leave the function, the log lines among them, and the
    one write to an object of the database, [vm.App = app]. *)
Inductive VmCall :=
| VmStat (path : string)                      (* os.Stat *)
| VmNewVMDatabase (dbPath : string)
| VmGetNames                                  (* app.VMDB.GetNames() *)
| VmGetDomainByName (domainName : string)
| VmWarnMissing (name : string)               (* Warningf("VM '%s' does not exists in libvirt...") *)
| VmDelete (name : string)                    (* app.VMDB.Delete(name) *)
| VmGetByName (name : string)                 (* app.VMDB.GetByName(name) *)
| VmGetUUIDString (dom : Domain)
| VmFree (dom : Domain)
| VmLogFailure (err1 err2 : option error)     (* Errorf("database checking failure: %s / %s") *)
| VmWarnMismatch (name : string)              (* Warningf("libvirt UUID mismatch for VM '%s'") *)
| VmSetApp (vm : VM)                          (* vm.App = app *)
| VmCount                                     (* app.VMDB.Count() *)
| VmFound (count : Z) (dbPath : string).      (* Infof("found %d VM(s) in database %s") *)

(** The answers.  [Stat_IsNotExist] is [os.IsNotExist] of the error of
    [os.Stat].  A call made inside the loop gets the number of the
    iteration, so that the answers may differ from one iteration to the
    next, also for the same name. *)
Record VmOutside := mkVmOutside {
  Stat_IsNotExist : string → Outcome bool;
  NewVMDatabase : string → Outcome (option error);
  GetNames : Outcome (list string);
  GetDomainByName : nat → string → Outcome (option Domain * option error);
  Delete : nat → string → Outcome unit;
  GetByName : nat → string → Outcome (option VM * option error);
  GetUUIDString : nat → Domain → Outcome (string * option error);
  Free : nat → Domain → Outcome unit;
  LibvirtUUID : VM → string;                  (* vm.LibvirtUUID *)
  Count : Outcome Z;
  Log : nat → VmCall → Outcome unit
}.

Local Abbreviation T := (Trace VmCall).

(** The body of [for _, name := range vmNames], in iteration [i]: [Some
    err] when it leaves the function with [return err], [None] when the
    loop goes on. *)
Definition check_vm (db : VmOutside) (VMPrefix : string) (i : nat) (name : string)
  : T (option error) :=
  let domainName := VMPrefix +:+ name in
  '(dom, err) ← call (VmGetDomainByName domainName) (GetDomainByName db i domainName);
  match err with
  | Some err => mret (Some err)
  | None =>
      match dom with
      | None =>
          _ ← call (VmWarnMissing name) (Log db i (VmWarnMissing name));
          _ ← call (VmDelete name) (Delete db i name);
          mret None
      | Some d =>
          '(vm, err2) ← call (VmGetByName name) (GetByName db i name);
          '(uuid, err1) ← call (VmGetUUIDString d) (GetUUIDString db i d);
          _ ← call (VmFree d) (Free db i d);
          _ ← (if decide (err1 ≠ None ∨ err2 ≠ None)
               then call (VmLogFailure err1 err2) (Log db i (VmLogFailure err1 err2))
               else mret ());
          v ← eval (match vm with Some v => Returns v | None => Panics end);
          _ ← (if decide (uuid ≠ LibvirtUUID db v)
               then call (VmWarnMismatch name) (Log db i (VmWarnMismatch name))
               else mret ());
          _ ← call (VmSetApp v) (Returns ());
          mret None
      end
  end.

Fixpoint check_vms (db : VmOutside) (VMPrefix : string) (i : nat)
    (names : list string) : T (option error) :=
  match names with
  | [] => mret None
  | name :: rest =>
      r ← check_vm db VMPrefix i name;
      match r with
      | Some err => mret (Some err)
      | None => check_vms db VMPrefix (S i) rest
      end
  end.

(** [func (app *App) initVMDB() error], with [app.Config.DataPath] and
    [app.Config.VMPrefix]. *)
Definition initVMDB (db : VmOutside) (DataPath VMPrefix : string) : T (option error) :=
  missing ← call (VmStat DataPath) (Stat_IsNotExist db DataPath);
  if (missing : bool) then
    mret (Some (Errorf ("data path (" +:+ DataPath +:+ ") does not exist")))
  else
    let dbPath := DataPath +:+ "/mulch-vm.db" in
    err ← call (VmNewVMDatabase dbPath) (NewVMDatabase db dbPath);
    match err with
    | Some err => mret (Some err)
    | None =>
        vmNames ← call VmGetNames (GetNames db);
        r ← check_vms db VMPrefix 0 vmNames;
        match r with
        | Some err => mret (Some err)
        | None =>
            count ← call VmCount (Count db);
            _ ← call (VmFound count dbPath) (Log db (length vmNames) (VmFound count dbPath));
            mret None
        end
    end.

(** The names that were deleted from the database. *)
Definition deletion (c : VmCall) : option string :=
  match c with
  | VmDelete name => Some name
  | _ => None
  end.

Definition deleted (calls : list VmCall) : list string := omap deletion calls.

(** By the answers of libvirt alone: the names, from iteration [i] on, for
    which libvirt has no domain, up to the first lookup that fails; and the
    error of that lookup. *)
Fixpoint unknown_to_libvirt (db : VmOutside) (VMPrefix : string) (i : nat)
    (names : list string) : list string :=
  match names with
  | [] => []
  | name :: rest =>
      match GetDomainByName db i (VMPrefix +:+ name) with
      | Returns (None, None) => name :: unknown_to_libvirt db VMPrefix (S i) rest
      | Returns (Some _, None) => unknown_to_libvirt db VMPrefix (S i) rest
      | _ => []
      end
  end.

Fixpoint first_lookup_error (db : VmOutside) (VMPrefix : string) (i : nat)
    (names : list string) : option error :=
  match names with
  | [] => None
  | name :: rest =>
      match GetDomainByName db i (VMPrefix +:+ name) with
      | Returns (_, Some err) => Some err
      | Returns (_, None) => first_lookup_error db VMPrefix (S i) rest
      | Panics => None
      end
  end.

End VMDBModel.

(** * The test client

    [main] of [src/old/test-client.go]: it requests [/log] of the server
    and prints the messages it decodes from the body of the response, until
    the decoder returns an error. *)

(** How the program ends: [main] returns; [log.Fatal] ends it; or it is
    still in its loop when the model stops following it. *)
Inductive Exit :=
| Completed
| Fatal (text : string)                          (* log.Fatal(err) *)
| FatalStatus (code : Z) (status : string)       (* log.Fatalf("Status code is not OK: ...") *)
| StillReading.

Section ClientModel.

(** [mulch.Message]; the package is outside [src/]. *)
Context {Message : Type}.

(** [fmt.Sprintf("%s: %s\n", m.Type, m.Message)] *)
Variable line : Message → string.

(** What [dec.Decode(&m)] returns: nil, with [m] filled in; [io.EOF]; or
    another error, with its text. *)
Inductive Decoded :=
| Got (m : Message)
| Eof
| Failed (text : string).

(** What the program gets from outside: the errors of [http.NewRequest]
    and of [http.DefaultClient.Do] ([None] is nil), the status of the
    response, and the result of the [i]-th call of [dec.Decode]. *)
Record Server := mkServer {
  NewRequest : string → string → option string;
  Do : option string;
  StatusCode : Z;
  Status : string;
  Decode : nat → Decoded
}.

(** [http.StatusOK] *)
Definition StatusOK : Z := 200.

(** The loop
[[
    for {
        var m mulch.Message
        err := dec.Decode(&m)
        if err != nil {
            if err == io.EOF { break }
            log.Fatal(err)
        }
        fmt.Printf("%s: %s\n", m.Type, m.Message)
    }
]]
    from the [i]-th call of [Decode] on, followed for [fuel] iterations:
    the lines printed, and how it ended. *)
Fixpoint read_loop (fuel : nat) (decode : nat → Decoded) (i : nat)
  : list string * Exit :=
  match fuel with
  | 0 => ([], StillReading)
  | S fuel =>
      match decode i with
      | Got m =>
          let '(out, exit) := read_loop fuel decode (S i) in (line m :: out, exit)
      | Eof => ([], Completed)
      | Failed text => ([], Fatal text)
      end
  end.

Definition main (fuel : nat) (srv : Server) (host : string) : list string * Exit :=
  match NewRequest srv "GET" (host +:+ "/log") with
  | Some err => ([], Fatal err)
  | None =>
      match Do srv with
      | Some err => ([], Fatal err)
      | None =>
          if decide (StatusCode srv ≠ StatusOK)
          then ([], FatalStatus (StatusCode srv) (Status srv))
          else read_loop fuel (Decode srv) 0
      end
  end.

(** How the loop ends at a result of [Decode] that is an error. *)
Definition exit_of (d : Decoded) : Exit :=
  match d with
  | Got _ => StillReading
  | Eof => Completed
  | Failed text => Fatal text
  end.

End ClientModel.

(** ** Concrete runs, for the examples at the end *)

#[global] Instance Event_eq_dec {Message : Type} `{EqDecision Message} :
  EqDecision (@Event Message).
Proof. solve_decision. Defined.

Module Scenario.

(** The address of the hub. *)
Definition hub0 : loc := 9%positive.

(** Nobody is receiving; [range] over an empty map. *)
Definition idle : Env := mkEnv (λ _, false) [].

(** Every reader is waiting. *)
Definition everyone (keys : list loc) : Env := mkEnv (λ _, true) keys.

(** Only the reader of [ch] is waiting. *)
Definition only (ch : loc) (keys : list loc) : Env :=
  mkEnv (λ x, bool_decide (x = ch)) keys.

(** No reader is waiting. *)
Definition nobody (keys : list loc) : Env := mkEnv (λ _, false) keys.

Definition client_a : HubClient := mkHubClient 11 "a" hub0.

Definition client_b : HubClient := mkHubClient 12 "b" hub0.

(** Client 1 allocated; client 1 registered; clients 1 and 2 registered. *)
Definition w_alloc : @World nat := alloc hub0 1 11 "a" NewHub.

Definition w_one : @World nat := map_insert 1 w_alloc.

Definition w_two : @World nat := map_insert 2 (alloc hub0 2 12 "b" w_one).

Definition run_one : list (@Action nat) :=
  [Alloc 1 11 "a"; Recv (ReqRegister 1) idle].

Definition run_two : list (@Action nat) :=
  run_one ++ [Alloc 2 12 "b"; Recv (ReqRegister 2) idle].

(** Client 1 registered, then evicted by a broadcast of 7 that nobody
    was receiving. *)
Definition w_gone : @World nat := evict 1 11 7 w_one.

(** Client 1 registered, then unregistered; then client 2 allocated. *)
Definition w_unreg : @World nat := drop_client 1 11 w_one.

Definition w_unreg_b : @World nat := alloc hub0 2 12 "b" w_unreg.

(** Client 1 registered, then handed the message 7. *)
Definition w_got : @World nat := deliver 11 7 w_one.

Definition run_got : list (@Action nat) :=
  run_one ++ [Recv (ReqBroadcast 7) (everyone [1%positive])].

(** ... and then the message 8. *)
Definition w_got2 : @World nat := deliver 11 8 w_got.

(** Client 1 registered, then handed the message 8 only. *)
Definition w_late : @World nat := deliver 11 8 w_one.

(** One [Register] call, from its start to its return ([s_early]: it has
    returned before the loop processed the registration). *)
Definition s_call : @System nat := mkSystem NewHub Select (<[0 := RegisterAlloc "a"]> ∅).

Definition s_alloc : @System nat :=
  mkSystem w_alloc Select (<[0 := RegisterSend 1]> (gos s_call)).

Definition s_taken : @System nat :=
  mkSystem w_alloc (Body (ReqRegister 1)) (<[0 := RegisterEnd 1]> (gos s_alloc)).

Definition s_early : @System nat :=
  mkSystem w_alloc (Body (ReqRegister 1)) (<[0 := Returned (Some 1%positive)]> (gos s_taken)).

Definition s_done : @System nat := mkSystem w_one Select (gos s_early).

(** Then one [Broadcast] call. *)
Definition s_bcall : @System nat :=
  mkSystem w_one Select (<[1 := BroadcastSend 7]> (gos s_done)).

Definition s_btaken : @System nat :=
  mkSystem w_one (Body (ReqBroadcast 7)) (<[1 := BroadcastEnd]> (gos s_bcall)).

Definition s_bdone : @System nat := mkSystem w_got Select (gos s_btaken).

Definition s_breturned : @System nat :=
  mkSystem w_one (Body (ReqBroadcast 7)) (<[1 := Returned None]> (gos s_btaken)).

(** Client 1 evicted; then client 2 allocated, registered and handed the
    message 8. *)
Definition run_after : list (@Action nat) :=
  [Alloc 2 12 "b"; Recv (ReqRegister 2) idle;
   Recv (ReqBroadcast 8) (everyone [2%positive])].

Definition w_after : @World nat :=
  deliver 12 8 (map_insert 2 (alloc hub0 2 12 "b" w_gone)).

(** After the [Register] call, an [Unregister] call on the client it
    returned. *)
Definition s_ucall : @System nat :=
  mkSystem w_one Select (<[1 := UnregisterSend 1]> (gos s_done)).

Definition s_utaken : @System nat :=
  mkSystem w_one (Body (ReqUnregister 1)) (<[1 := UnregisterEnd]> (gos s_ucall)).

Definition s_udone : @System nat := mkSystem w_unreg Select (gos s_utaken).

End Scenario.

Module LibvirtScenario.

(** A libvirt in which pools and networks are numbered, a pool
    description is (name, path, mode) and a network description is its
    XML text. *)
Definition PoolCfg0 : Type := string * string * string.

(** The surroundings, given the answers to the two lookups and to
    [pool.SetAutostart]; everything else succeeds. *)
Definition outside
    (lookup_pool : Outcome (option nat * option error))
    (lookup_net : Outcome (option nat * option error))
    (autostart : Outcome (option error)) : @Outside nat nat PoolCfg0 string :=
  {| FROM_STORAGE := 18; ERR_NO_STORAGE_POOL := 49;
     FROM_NETWORK := 19; ERR_NO_NETWORK := 43;
     STORAGE_POOL_CREATE_WITH_BUILD := 1;
     LookupStoragePoolByName := λ _, lookup_pool;
     Info := λ _, Returns ();
     ReadFile := λ file, Returns ("<" +:+ file +:+ ">", None);
     StoragePool_Unmarshal := λ doc, Returns ((doc, "/tmp", "0755"), None);
     Abs := λ path, Returns ("/srv/" +:+ path, None);
     StoragePool_Marshal := λ '(name, path, mode),
       Returns (name +:+ " " +:+ path +:+ " " +:+ mode, None);
     StoragePoolDefineXML := λ _ _, Returns (Some 1, None);
     StoragePool_SetAutostart := λ _ _, autostart;
     StoragePool_Create := λ _ _, Returns None;
     StoragePool_Refresh := λ _ _, Returns None;
     LookupNetworkByName := λ _, lookup_net;
     NetworkDefineXML := λ _, Returns (Some 2, None);
     Network_SetAutostart := λ _ _, Returns None;
     Network_Create := λ _, Returns None;
     Network_GetXMLDesc := λ _ _, Returns ("<network/>", None);
     Network_Unmarshal := λ doc, Returns (doc, None);
     set_Name := λ name '(_, path, mode), (name, path, mode);
     set_Target_Path := λ path '(name, _, mode), Returns (name, path, mode);
     set_Target_Permissions_Mode := λ mode '(name, path, _), Returns (name, path, mode);
     get_Name := λ _, "mulch";
     get_IPs_0_Address := λ _, Returns "10.104.0.1";
     get_Bridge_Name := λ _, Returns "virbr1" |}.

(** Neither the pool nor the network exists yet, and [pool.SetAutostart]
    fails. *)
Definition lv_missing : @Outside nat nat PoolCfg0 string :=
  outside (Returns (None, Some (LibvirtError 49 18 "Storage pool not found")))
          (Returns (None, Some (LibvirtError 43 19 "Network not found")))
          (Returns (Some (OtherError "autostart failed"))).

(** Both lookups fail for another reason than "not found". *)
Definition lv_broken : @Outside nat nat PoolCfg0 string :=
  outside (Returns (Some 5, Some (LibvirtError 55 18 "storage pool is not active")))
          (Returns (None, Some (LibvirtError 38 0 "cannot open directory")))
          (Returns None).

(** The calls that create the network, and those that create a pool. *)
Definition net_calls : list (@LvCall nat nat PoolCfg0) :=
  [LvLookupNetworkByName "mulch";
   LvInfo "network 'mulch' not found, it's OK, let's create it";
   LvReadFile "network.xml"; LvNetworkDefineXML "<network.xml>";
   LvNetSetAutostart (Some 2) true; LvNetCreate (Some 2);
   LvNetGetXMLDesc (Some 2) 0; LvNetUnmarshal "<network/>"].

Definition pool_calls : list (@LvCall nat nat PoolCfg0) :=
  [LvLookupStoragePoolByName "mulch-disks";
   LvInfo "pool 'mulch-disks' not found, let's create it";
   LvReadFile "storage.xml"; LvPoolUnmarshal "<storage.xml>";
   LvAbs "disks"; LvPoolMarshal ("mulch-disks", "/srv/disks", "0711");
   LvStoragePoolDefineXML "mulch-disks /srv/disks 0711" 0;
   LvPoolSetAutostart (Some 1) true; LvPoolCreate (Some 1) 1;
   LvPoolRefresh (Some 1) 0].

Definition init_calls : list (@LvCall nat nat PoolCfg0) :=
  [LvLookupNetworkByName "mulch";
   LvInfo "network 'mulch' not found, it's OK, let's create it";
   LvReadFile "/etc/mulch/templates/network.xml";
   LvNetworkDefineXML "</etc/mulch/templates/network.xml>";
   LvNetSetAutostart (Some 2) true; LvNetCreate (Some 2);
   LvNetGetXMLDesc (Some 2) 0; LvNetUnmarshal "<network/>";
   LvInfo "network 'mulch': 10.104.0.1 (virbr1)"].

Definition create_net : @LvCall nat nat PoolCfg0 := LvNetCreate (Some 2).

End LibvirtScenario.

Module VMDBScenario.

(** A database with the VMs a, b and c, of which libvirt does not know b;
    domains are numbered and a VM is given by its UUID.  [GetByName]
    answers with [vm] for every name. *)
Definition database (vm : Outcome (option string * option error))
  : @VmOutside nat string :=
  {| Stat_IsNotExist := λ _, Returns false;
     NewVMDatabase := λ _, Returns None;
     GetNames := Returns ["a"; "b"; "c"];
     GetDomainByName := λ _ domainName,
       if decide (domainName = "vm-b") then Returns (None, None)
       else Returns (Some 1, None);
     Delete := λ _ _, Returns ();
     GetByName := λ _ _, vm;
     GetUUIDString := λ _ _, Returns ("uuid-1", None);
     Free := λ _ _, Returns ();
     LibvirtUUID := λ uuid, uuid;
     Count := Returns 2%Z;
     Log := λ _ _, Returns () |}.

(** [GetByName] returns the VM and an error; and a nil VM. *)
Definition db_three : @VmOutside nat string :=
  database (Returns (Some "uuid-1", Some (OtherError "stale entry"))).

Definition db_nil : @VmOutside nat string :=
  database (Returns (None, Some (OtherError "no such VM"))).

End VMDBScenario.

Module ClientScenario.

(** Messages as (type, text). *)
Definition show (m : string * string) : string := m.1 +:+ ": " +:+ m.2.

Definition localhost : string := "http://localhost:8585".

(** A server that sends two messages and closes the connection; one that
    answers 503; one that never stops sending. *)
Definition srv_two : @Server (string * string) :=
  mkServer (λ _ _, None) None 200 "200 OK"
    (λ i, match i with
          | 0 => Got ("info", "a")
          | 1 => Got ("trace", "b")
          | _ => Eof
          end).

Definition srv_down : @Server (string * string) :=
  mkServer (λ _ _, None) None 503 "503 Service Unavailable" (λ _, Eof).

Definition srv_endless : @Server (string * string) :=
  mkServer (λ _ _, None) None 200 "200 OK" (λ _, Got ("info", "tick")).

End ClientScenario.

Section HubProofs.

Context {Message : Type} (h : loc).

Implicit Types (w : @World Message) (a : @Action Message).
Implicit Types (acts pre post mid : list (@Action Message)).
Implicit Types (m : Message) (e : Env) (r : @Request Message).
Implicit Types (evs l : list (@Event Message)).
Implicit Types (σ : @System Message) (tr : list (@Label Message)) (lb : @Label Message).

Local Abbreviation do_action := (do_action h).
Local Abbreviation steps := (steps h).
Local Abbreviation exec := (exec h).
Local Abbreviation reachable := (reachable h).
Local Abbreviation sends := (sends h).
Local Abbreviation sys_step := (sys_step h).
Local Abbreviation sys_steps := (sys_steps h).
Local Abbreviation sys_inv := (sys_inv h).
Local Abbreviation sys_reachable := (sys_reachable h).
Local Abbreviation step_return := (step_return h).
Local Abbreviation inv_world := (inv_world h).
Local Abbreviation inv_sending := (inv_sending h).
Local Abbreviation inv_taken := (inv_taken h).
Local Abbreviation inv_sent := (inv_sent h).

(** ** Histories *)

Lemma received_app ch l1 l2 : received ch (l1 ++ l2) = received ch l1 ++ received ch l2.
Proof. apply omap_app. Qed.

Lemma attempts_app ch l1 l2 : attempts ch (l1 ++ l2) = attempts ch l1 ++ attempts ch l2.
Proof. apply omap_app. Qed.

Lemma closes_app ch l1 l2 : closes ch (l1 ++ l2) = closes ch l1 + closes ch l2.
Proof. unfold closes. by rewrite omap_app, length_app. Qed.

Lemma received_attempts ch l : attempts ch l = [] → received ch l = [].
Proof.
  induction l as [|e l IH]; [done|].
  unfold attempts, received. simpl.
  destruct e as [| |ch' m ok|]; simpl; try exact IH.
  destruct ok; case_decide; simpl; try done; exact IH.
Qed.

Lemma sends_before_close_nil ch : sends_before_close ch (@nil (@Event Message)).
Proof. intros [|??] ???; discriminate. Qed.

Lemma sends_before_close_snoc ch l (ev : @Event Message) :
  sends_before_close ch l →
  (attempt_on ch ev = None ∨ closes ch l = 0) →
  sends_before_close ch (l ++ [ev]).
Proof.
  intros Hl He l1 l2 m ok Heq.
  destruct l2 as [|x l2 _] using rev_ind.
  - apply (app_inj_tail l l1 ev) in Heq as [-> ->].
    destruct He as [He|He]; [|done].
    simpl in He. by rewrite decide_True in He.
  - rewrite app_comm_cons, app_assoc in Heq.
    apply app_inj_tail in Heq as [-> _]. by eapply Hl.
Qed.

Lemma wf_NewHub : wf (@NewHub Message).
Proof.
  split; unfold active, is_open, is_closed; simpl; intros *.
  - rewrite lookup_empty. by intros [??].
  - by rewrite lookup_empty.
  - by rewrite lookup_empty.
  - by rewrite lookup_empty.
  - by rewrite lookup_empty.
  - by rewrite lookup_empty.
  - apply sends_before_close_nil.
  - done.
  - by intros ?%elem_of_nil.
  - done.
Qed.

(** ** The code computes the total functions *)

Lemma fanout_one_total rdy m c w b :
  wf w → clients w !! c = Some b →
  fanout_one rdy m c w = Ok (pass_one rdy m w c).
Proof.
  intros Hwf Hc.
  destruct (wf_active w Hwf c) as (hc & Hobj & Hopen & _); [by eexists|].
  unfold fanout_one, pass_one, deref, try_send, is_open in *.
  rewrite Hc, Hobj. simpl. rewrite Hopen. simpl.
  destruct (rdy (Messages hc)); simpl; [done|].
  unfold close. simpl. rewrite Hopen. simpl.
  unfold map_delete, emit, evict. simpl.
  by rewrite <- !app_assoc.
Qed.

Lemma Run_unregister_total c w b hc :
  wf w → clients w !! c = Some b → objs w !! c = Some hc →
  Run_unregister c w = Ok (drop_client c (Messages hc) w).
Proof.
  intros Hwf Hc Hobj.
  destruct (wf_active w Hwf c) as (hc' & Hobj' & Hopen & _); [by eexists|].
  assert (hc' = hc) as -> by congruence.
  unfold Run_unregister, deref, close, is_open in *.
  rewrite Hc. simpl. rewrite Hobj. simpl. rewrite Hopen. simpl.
  unfold drop_client, emit. simpl. by rewrite <- app_assoc.
Qed.

Lemma Run_unregister_absent c w :
  clients w !! c = None → Run_unregister c w = Ok w.
Proof. intros Hc. unfold Run_unregister. by rewrite Hc. Qed.

(** ** The invariant is kept *)

Lemma closes_open w ch : wf w → is_open w ch → closes ch (log w) = 0.
Proof. intros Hwf Hopen. rewrite (wf_closes w Hwf). unfold is_open in Hopen. by rewrite Hopen. Qed.

Lemma wf_deliver w c b hc m :
  wf w → clients w !! c = Some b → objs w !! c = Some hc →
  wf (deliver (Messages hc) m w).
Proof.
  intros Hwf Hcb Hobj.
  destruct (wf_active w Hwf c) as (hc0 & Hobj0 & Hopen & Hin0); [by eexists|].
  assert (hc0 = hc) as -> by congruence.
  pose proof (closes_open w _ Hwf Hopen) as Hcl. set (ch := Messages hc) in *.
  destruct Hwf as [Hact Hinj Hch Hfr Hgo Hcls Hord Hun Hreg Hq].
  split; unfold active, is_open, is_closed, deliver in *; simpl; try done.
  - intros c' Hc. destruct (Hact c' Hc) as (hc' & ? & ? & ?).
    exists hc'. split_and!; [done..|]. apply elem_of_app. by left.
  - intros c' hc' ? Hni. eapply Hfr; [done|].
    intros ?. apply Hni, elem_of_app. by left.
  - intros c' hc' ? Hin ?. eapply Hgo; [done| |done].
    apply elem_of_app in Hin as [?|Hin]; [done|].
    by apply list_elem_of_singleton in Hin.
  - intros ch'. rewrite closes_app, <- Hcls. unfold closes. simpl. lia.
  - intros ch'. apply sends_before_close_snoc; [done|].
    simpl. case_decide; [subst; by right|by left].
  - intros ch' Hnone. rewrite attempts_app, (Hun ch' Hnone). simpl.
    unfold attempts. simpl. case_decide; [congruence|done].
  - intros c' Hin. apply Hreg.
    apply elem_of_app in Hin as [?|Hin]; [done|].
    by apply list_elem_of_singleton in Hin.
  - intros c' hc' Ho' Hni.
    assert (EvInsert c' ∉ log w) as Hni' by (intros ?; apply Hni, elem_of_app; by left).
    rewrite attempts_app, (Hq c' hc' Ho' Hni'). unfold attempts. simpl.
    rewrite decide_False; [done|]. intros Heq.
    assert (c = c') as -> by by eapply Hinj. done.
Qed.

(** Closing the queue of an active client and deleting the client, in
    either order and whatever was logged. *)
Lemma wf_remove w c b hc evs :
  wf w → clients w !! c = Some b → objs w !! c = Some hc →
  (∀ c', EvInsert c' ∉ evs) →
  (∀ ch', closes ch' evs = if decide (ch' = Messages hc) then 1 else 0) →
  (∀ ch', ch' ≠ Messages hc → attempts ch' evs = []) →
  (∀ ch', sends_before_close ch' (log w) → closes ch' (log w) = 0 ∨ ch' ≠ Messages hc →
          sends_before_close ch' (log w ++ evs)) →
  wf (mkWorld (delete c (clients w)) (objs w)
              (<[Messages hc := mkChan true]> (chans w)) (log w ++ evs)).
Proof.
  intros Hwf Hc Hobj Hins Hclo Hatt Hsbc.
  destruct (wf_active w Hwf c) as (hc0 & Hobj0 & Hopen & Hreg); [by eexists|].
  assert (hc0 = hc) as -> by congruence.
  pose proof (closes_open w _ Hwf Hopen) as Hcl0.
  destruct Hwf as [Hact Hinj Hch Hfr Hgo Hcls Hord Hun Hreg0 Hq].
  split; unfold active, is_open, is_closed in *; simpl.
  - intros c' [b' Hc']. apply lookup_delete_Some in Hc' as [Hne Hc'].
    destruct (Hact c') as (hc' & Ho' & Hop' & Hr'); [by eexists|].
    exists hc'. split_and!; [done| |set_solver].
    rewrite lookup_insert_ne; [done|]. intros Heq. apply Hne. by eapply Hinj.
  - done.
  - intros c' hc' Ho'. apply lookup_insert_is_Some'. right. by eapply Hch.
  - intros c' hc' Ho' Hni.
    assert (c ≠ c') as Hne by (intros ->; set_solver).
    rewrite lookup_insert_ne.
    + eapply Hfr; [done|set_solver].
    + intros Heq. apply Hne. by eapply Hinj.
  - intros c' hc' Ho' Hin Hna.
    destruct (decide (c = c')) as [->|Hne].
    + assert (hc' = hc) as -> by congruence. by rewrite lookup_insert_eq.
    + rewrite lookup_insert_ne.
      * eapply Hgo; [done| |].
        -- apply elem_of_app in Hin as [?|Hin]; [done|]. by apply Hins in Hin.
        -- intros [b' Hb']. apply Hna. exists b'. by rewrite lookup_delete_ne.
      * intros Heq. apply Hne. by eapply Hinj.
  - intros ch'. rewrite closes_app, Hclo, Hcls.
    case_decide as Hd.
    + subst ch'. rewrite lookup_insert_eq, Hopen. done.
    + rewrite lookup_insert_ne by done. lia.
  - intros ch'. apply Hsbc; [done|].
    destruct (decide (ch' = Messages hc)) as [->|?]; [by left|by right].
  - intros ch' Hnone. apply lookup_insert_None in Hnone as [Hnone Hne].
    rewrite attempts_app, (Hun ch' Hnone), Hatt; done.
  - intros c' Hin. apply Hreg0.
    apply elem_of_app in Hin as [?|Hin]; [done|]. by apply Hins in Hin.
  - intros c' hc' Ho' Hni.
    assert (EvInsert c' ∉ log w) as Hni' by (intros ?; apply Hni, elem_of_app; by left).
    rewrite attempts_app, (Hq c' hc' Ho' Hni'), Hatt; [done|].
    intros Heq. assert (c' = c) as -> by by eapply Hinj. done.
Qed.

Lemma wf_evict w c b hc m :
  wf w → clients w !! c = Some b → objs w !! c = Some hc →
  wf (evict c (Messages hc) m w).
Proof.
  intros Hwf Hc Hobj. unfold evict.
  eapply wf_remove; try done.
  - intros c'. set_solver.
  - intros ch'. unfold closes. simpl. by repeat case_decide.
  - intros ch' Hne. unfold attempts. simpl. by rewrite decide_False.
  - intros ch' Hs Hor.
    change (log w ++ [EvTrySend (Messages hc) m false; EvClose (Messages hc); EvDelete c])
      with (log w ++ [EvTrySend (Messages hc) m false] ++ [EvClose (Messages hc)] ++ [EvDelete c]).
    rewrite !app_assoc.
    repeat apply sends_before_close_snoc; try done; try (by left).
    simpl. case_decide; [subst; destruct Hor; [by right|done]|by left].
Qed.

Lemma wf_drop_client w c b hc :
  wf w → clients w !! c = Some b → objs w !! c = Some hc →
  wf (drop_client c (Messages hc) w).
Proof.
  intros Hwf Hc Hobj. unfold drop_client.
  eapply wf_remove; try done.
  - intros c'. set_solver.
  - intros ch'. unfold closes. simpl. by repeat case_decide.
  - intros ch' Hs Hor.
    change (log w ++ [EvDelete c; EvClose (Messages hc)])
      with (log w ++ [EvDelete c] ++ [EvClose (Messages hc)]).
    rewrite !app_assoc.
    repeat apply sends_before_close_snoc; try done; by left.
Qed.

Lemma wf_map_insert w c :
  wf w → is_Some (objs w !! c) → EvInsert c ∉ log w → wf (map_insert c w).
Proof.
  intros Hwf [hc Hobj] Hni.
  pose proof (wf_fresh w Hwf c hc Hobj Hni) as Hopen.
  destruct Hwf as [Hact Hinj Hch Hfr Hgo Hcls Hord Hun Hreg Hq].
  split; unfold active, is_open, is_closed, map_insert in *; simpl; try done.
  - intros c' [b' Hc']. apply lookup_insert_Some in Hc' as [[<- _]|[Hne Hc']].
    + exists hc. set_solver.
    + destruct (Hact c') as (hc' & ? & ? & ?); [by eexists|].
      exists hc'. set_solver.
  - intros c' hc' ? Hni'. eapply Hfr; [done|set_solver].
  - intros c' hc' Ho' Hin Hna.
    destruct (decide (c = c')) as [->|Hne].
    + exfalso. apply Hna. rewrite lookup_insert_eq. by eexists.
    + eapply Hgo; [done| |].
      * apply elem_of_app in Hin as [?|Hin]; [done|].
        apply list_elem_of_singleton in Hin. congruence.
      * intros [b' Hb']. apply Hna. exists b'. by rewrite lookup_insert_ne.
  - intros ch'. rewrite closes_app, <- Hcls. unfold closes. simpl. lia.
  - intros ch'. apply sends_before_close_snoc; [done|by left].
  - intros ch' Hnone. by rewrite attempts_app, (Hun ch' Hnone).
  - intros c' Hin. apply elem_of_app in Hin as [?|Hin]; [by apply Hreg|].
    apply list_elem_of_singleton in Hin. injection Hin as ->. by eexists.
  - intros c' hc' Ho' Hni'.
    rewrite attempts_app, (Hq c' hc' Ho'); [done|].
    intros ?. apply Hni', elem_of_app. by left.
Qed.

Lemma wf_alloc w c ch info :
  wf w → objs w !! c = None → chans w !! ch = None → wf (alloc h c ch info w).
Proof.
  intros Hwf Hc Hchn.
  assert (∀ c' hc', objs w !! c' = Some hc' → ch ≠ Messages hc') as Hother.
  { intros c' hc' Ho' ->. destruct (wf_chan w Hwf c' hc' Ho') as [? ?]. congruence. }
  destruct Hwf as [Hact Hinj Hch Hfr Hgo Hcls Hord Hun Hreg Hq].
  split; unfold active, is_open, is_closed, alloc in *; simpl; try done.
  - intros c' Hc'. destruct (Hact c' Hc') as (hc' & Ho' & Hop' & Hr').
    exists hc'. split_and!; [|rewrite lookup_insert_ne; [done|by eauto]|done].
    rewrite lookup_insert_ne; [done|congruence].
  - intros c1 c2 hc1 hc2 H1 H2 Heq.
    apply lookup_insert_Some in H1 as [[<- <-]|[Hn1 H1]];
      apply lookup_insert_Some in H2 as [[<- <-]|[Hn2 H2]]; simpl in *.
    + done.
    + exfalso. by eapply Hother.
    + exfalso. by eapply Hother.
    + by eapply Hinj.
  - intros c' hc' Ho'. apply lookup_insert_is_Some'.
    apply lookup_insert_Some in Ho' as [[<- <-]|[Hn Ho']]; simpl; [by left|].
    right. by eapply Hch.
  - intros c' hc' Ho' Hni.
    apply lookup_insert_Some in Ho' as [[<- <-]|[Hn Ho']]; simpl.
    + by rewrite lookup_insert_eq.
    + rewrite lookup_insert_ne; [by eapply Hfr|by eauto].
  - intros c' hc' Ho' Hin Hna.
    apply lookup_insert_Some in Ho' as [[<- <-]|[Hn Ho']]; simpl.
    + exfalso. destruct (Hreg c Hin) as [? ?]. congruence.
    + rewrite lookup_insert_ne; [by eapply Hgo|by eauto].
  - intros ch'. rewrite Hcls. destruct (decide (ch = ch')) as [<-|Hne].
    + by rewrite lookup_insert_eq, Hchn.
    + by rewrite lookup_insert_ne.
  - intros ch' Hnone. apply lookup_insert_None in Hnone as [Hnone _]. by apply Hun.
  - intros c' Hin. apply lookup_insert_is_Some'. right. by apply Hreg.
  - intros c' hc' Ho' Hni.
    apply lookup_insert_Some in Ho' as [[<- <-]|[Hn Ho']]; simpl.
    + by apply Hun.
    + by eapply Hq.
Qed.

Lemma wf_pass_one rdy m w c : wf w → wf (pass_one rdy m w c).
Proof.
  intros Hwf. unfold pass_one.
  destruct (clients w !! c) as [b|] eqn:Hc; [|done].
  destruct (objs w !! c) as [hc|] eqn:Hobj; [|done].
  destruct (rdy (Messages hc)).
  - by eapply wf_deliver.
  - by eapply wf_evict.
Qed.

Lemma wf_pass rdy m keys w : wf w → wf (pass rdy m keys w).
Proof.
  revert w. induction keys as [|c keys IH]; intros w Hwf; [done|].
  simpl. apply IH. by apply wf_pass_one.
Qed.

(** Under the invariant the fan-out never panics. *)
Lemma fanout_total rdy m keys w :
  wf w → fanout rdy m keys w = Ok (pass rdy m keys w).
Proof.
  revert w. induction keys as [|c keys IH]; intros w Hwf; [done|].
  simpl. destruct (clients w !! c) as [b|] eqn:Hc.
  - rewrite (fanout_one_total rdy m c w b Hwf Hc). simpl.
    rewrite IH by by apply wf_pass_one. done.
  - rewrite IH by done. unfold pass_one. by rewrite Hc.
Qed.

Lemma do_action_ok w a :
  wf w → valid w a → ∃ w1, do_action a w = Ok w1 ∧ wf w1.
Proof.
  intros Hwf Hv. destruct a as [c ch info|[c|c|m] e]; simpl in *.
  - destruct Hv. eexists; split; [done|]. by apply wf_alloc.
  - destruct Hv. eexists; split; [done|]. by apply wf_map_insert.
  - destruct (clients w !! c) as [b|] eqn:Hc.
    + destruct (wf_active w Hwf c) as (hc & Hobj & _); [by eexists|].
      rewrite (Run_unregister_total c w b hc) by done.
      eexists; split; [done|]. by eapply wf_drop_client.
    + rewrite Run_unregister_absent by done. by eexists.
  - rewrite fanout_total by done. eexists; split; [done|]. by apply wf_pass.
Qed.

Lemma steps_wf w acts w1 : wf w → steps w acts w1 → wf w1.
Proof.
  intros Hwf Hs. induction Hs as [|w a w1 acts w2 Hv Hdo _ IH]; [done|].
  apply IH. destruct (do_action_ok w a Hwf Hv) as (w' & Hdo' & ?). congruence.
Qed.

Lemma steps_app w acts1 acts2 w2 :
  steps w (acts1 ++ acts2) w2 ↔ ∃ w1, steps w acts1 w1 ∧ steps w1 acts2 w2.
Proof.
  revert w. induction acts1 as [|a acts1 IH]; intros w; simpl.
  - split; [intros; eexists; split; [constructor|done]|].
    intros (w1 & H1 & H2). by inversion H1; subst.
  - split.
    + intros Hs. inversion Hs as [|? ? w' ? ? Hv Hdo Hrest]; subst.
      apply IH in Hrest as (w1 & ? & ?). exists w1. split; [|done].
      by econstructor.
    + intros (w1 & H1 & H2). inversion H1 as [|? ? w' ? ? Hv Hdo Hrest]; subst.
      econstructor; [done..|]. apply IH. eauto.
Qed.

Lemma steps_one w a w1 : steps w [a] w1 ↔ valid w a ∧ do_action a w = Ok w1.
Proof.
  split.
  - intros Hs. inversion Hs as [|? ? w' ? ? Hv Hdo Hrest]; subst.
    by inversion Hrest; subst.
  - intros [? ?]. econstructor; [done..|constructor].
Qed.

Lemma steps_exec w acts w1 : steps w acts w1 → exec acts w = Ok w1.
Proof.
  induction 1 as [|w a w1 acts w2 Hv Hdo _ IH]; [done|].
  simpl. rewrite Hdo. exact IH.
Qed.

(** A run of valid actions never panics. *)
Lemma steps_total w acts :
  wf w →
  (∀ pre a post w1, acts = pre ++ a :: post → steps w pre w1 → valid w1 a) →
  ∃ w2, steps w acts w2.
Proof.
  revert w. induction acts as [|a acts IH]; intros w Hwf Hv.
  - eexists. constructor.
  - assert (valid w a) as Hva by (apply (Hv [] a acts); [done|constructor]).
    destruct (do_action_ok w a Hwf Hva) as (w1 & Hdo & Hwf1).
    destruct (IH w1 Hwf1) as (w2 & Hs).
    + intros pre a' post w' -> Hpre. apply (Hv (a :: pre) a' post); [done|].
      by econstructor.
    + exists w2. by econstructor.
Qed.

Lemma pass_one_log rdy m w c :
  log (pass_one rdy m w c) = log w ++ pass_events rdy m w c.
Proof.
  unfold pass_one, pass_events.
  destruct (clients w !! c), (objs w !! c) as [hc|]; simpl; rewrite ?app_nil_r; try done.
  by destruct (rdy (Messages hc)).
Qed.

Lemma pass_one_objs rdy m w c : objs (pass_one rdy m w c) = objs w.
Proof.
  unfold pass_one.
  destruct (clients w !! c), (objs w !! c) as [hc|]; try done.
  by destruct (rdy (Messages hc)).
Qed.

Lemma pass_one_clients_ne rdy m w c c' :
  c' ≠ c → clients (pass_one rdy m w c) !! c' = clients w !! c'.
Proof.
  intros Hne. unfold pass_one.
  destruct (clients w !! c), (objs w !! c) as [hc|]; try done.
  destruct (rdy (Messages hc)); simpl; [done|]. by rewrite lookup_delete_ne.
Qed.

Lemma pass_one_clients_ready rdy m w c c' hc :
  objs w !! c' = Some hc → rdy (Messages hc) = true →
  clients (pass_one rdy m w c) !! c' = clients w !! c'.
Proof.
  intros Hobj Hr. destruct (decide (c' = c)) as [->|Hne]; [|by apply pass_one_clients_ne].
  unfold pass_one. rewrite Hobj, Hr. by destruct (clients w !! c) eqn:Hc.
Qed.

Lemma pass_one_clients_sub rdy m w c c' :
  clients w !! c' = None → clients (pass_one rdy m w c) !! c' = None.
Proof.
  intros Hn. unfold pass_one.
  destruct (clients w !! c), (objs w !! c) as [hc|]; try done.
  destruct (rdy (Messages hc)); simpl; [done|].
  apply lookup_delete_None. by right.
Qed.

Lemma pass_one_chans_dom rdy m w c ch :
  wf w → is_Some (chans (pass_one rdy m w c) !! ch) ↔ is_Some (chans w !! ch).
Proof.
  intros Hwf. unfold pass_one.
  destruct (clients w !! c), (objs w !! c) as [hc|] eqn:Hobj; try done.
  destruct (rdy (Messages hc)); simpl; [done|].
  rewrite lookup_insert_is_Some'. split; [|by right].
  intros [<-|?]; [|done]. by eapply wf_chan.
Qed.

Lemma pass_events_ne rdy m w c c' :
  c' ≠ c → pass_events rdy m (pass_one rdy m w c) c' = pass_events rdy m w c'.
Proof.
  intros Hne. unfold pass_events.
  by rewrite pass_one_objs, pass_one_clients_ne.
Qed.

Lemma pass_objs rdy m keys w : objs (pass rdy m keys w) = objs w.
Proof.
  revert w. induction keys as [|c keys IH]; intros w; [done|].
  unfold pass in *. simpl. by rewrite IH, pass_one_objs.
Qed.

Lemma pass_chans_dom rdy m keys w ch :
  wf w → is_Some (chans (pass rdy m keys w) !! ch) ↔ is_Some (chans w !! ch).
Proof.
  revert w. induction keys as [|c keys IH]; intros w Hwf; [done|].
  unfold pass in *. simpl. rewrite IH by by apply wf_pass_one.
  by apply pass_one_chans_dom.
Qed.

Lemma pass_clients_notin rdy m keys w c :
  c ∉ keys → clients (pass rdy m keys w) !! c = clients w !! c.
Proof.
  revert w. induction keys as [|c' keys IH]; intros w Hni; [done|].
  apply not_elem_of_cons in Hni as [Hne Hni].
  unfold pass in *. simpl. by rewrite IH, pass_one_clients_ne.
Qed.

Lemma pass_clients_ready rdy m keys w c hc :
  objs w !! c = Some hc → rdy (Messages hc) = true →
  clients (pass rdy m keys w) !! c = clients w !! c.
Proof.
  revert w. induction keys as [|c' keys IH]; intros w Hobj Hr; [done|].
  unfold pass in *. simpl. rewrite IH; [|by rewrite pass_one_objs|done].
  by eapply pass_one_clients_ready.
Qed.

Lemma pass_clients_sub rdy m keys w c :
  clients w !! c = None → clients (pass rdy m keys w) !! c = None.
Proof.
  revert w. induction keys as [|c' keys IH]; intros w Hn; [done|].
  simpl. apply IH. by apply pass_one_clients_sub.
Qed.

Lemma pass_clients_stalled rdy m keys w c hc :
  c ∈ keys → objs w !! c = Some hc → rdy (Messages hc) = false →
  clients (pass rdy m keys w) !! c = None.
Proof.
  revert w. induction keys as [|c' keys IH]; intros w Hin Hobj Hr.
  - by apply elem_of_nil in Hin.
  - simpl. destruct (decide (c = c')) as [<-|Hne].
    + apply pass_clients_sub. unfold pass_one. rewrite Hobj, Hr.
      destruct (clients w !! c) eqn:Hc; simpl; [|done]. by rewrite lookup_delete_eq.
    + apply elem_of_cons in Hin as [?|Hin]; [done|].
      apply IH; [done|by rewrite pass_one_objs|done].
Qed.

Lemma bind_ext_in {A B} (f g : A → list B) (l : list A) :
  (∀ x, x ∈ l → f x = g x) → l ≫= f = l ≫= g.
Proof.
  induction l as [|x l IH]; intros Hfg; [done|].
  rewrite !bind_cons, (Hfg x) by by left. rewrite IH; [done|].
  intros y Hy. apply Hfg. by right.
Qed.

Lemma pass_log rdy m keys w :
  NoDup keys →
  log (pass rdy m keys w) = log w ++ (keys ≫= pass_events rdy m w).
Proof.
  revert w. induction keys as [|c keys IH]; intros w Hnd.
  - simpl. by rewrite app_nil_r.
  - apply NoDup_cons in Hnd as [Hni Hnd].
    unfold pass in *. simpl. rewrite IH by done.
    rewrite pass_one_log, <- app_assoc. f_equal. f_equal.
    apply bind_ext_in. intros c' Hc'. apply pass_events_ne. by intros ->.
Qed.

(** Projecting the operations of a fan-out on what concerns one client. *)
Lemma omap_bind_single {B} (f : @Event Message → option B)
    (g : loc → list (@Event Message)) keys c :
  NoDup keys → (∀ c', c' ≠ c → omap f (g c') = []) →
  omap f (keys ≫= g) = if decide (c ∈ keys) then omap f (g c) else [].
Proof.
  intros Hnd Hother. induction keys as [|c' keys IH].
  - destruct (decide (c ∈ [])) as [Hin|?]; [by apply elem_of_nil in Hin|done].
  - apply NoDup_cons in Hnd as [Hni Hnd]. specialize (IH Hnd).
    rewrite bind_cons, omap_app, IH.
    destruct (decide (c' = c)) as [->|Hne].
    + destruct (decide (c ∈ c :: keys)) as [?|Hn]; [|by destruct Hn; left].
      destruct (decide (c ∈ keys)); [done|]. by rewrite app_nil_r.
    + rewrite (Hother c' Hne). simpl.
      destruct (decide (c ∈ keys)) as [?|Hn1];
        destruct (decide (c ∈ c' :: keys)) as [Hi|Hn2]; try done.
      * destruct Hn2. by right.
      * apply elem_of_cons in Hi as [?|?]; by subst.
Qed.

(** The operations for [c'] do not touch the channel of another client. *)
Lemma pass_events_other rdy m w c hc c' (B : Type)
    (f : loc → @Event Message → option B) :
  (∀ ch ch' m ok, ch' ≠ ch → f ch (EvTrySend ch' m ok) = None) →
  (∀ ch ch', ch' ≠ ch → f ch (EvClose ch') = None) →
  (∀ ch c, f ch (EvDelete c) = None) →
  wf w → objs w !! c = Some hc → c' ≠ c →
  omap (f (Messages hc)) (pass_events rdy m w c') = [].
Proof.
  intros Hf1 Hf2 Hf3 Hwf Hobj Hne. unfold pass_events.
  destruct (clients w !! c'); [|done].
  destruct (objs w !! c') as [hc'|] eqn:Hobj'; [|done].
  assert (Messages hc' ≠ Messages hc) as Hch.
  { intros Heq. apply Hne. by eapply (wf_inj w Hwf). }
  destruct (rdy (Messages hc')); simpl; by rewrite ?Hf1, ?Hf2, ?Hf3 by done.
Qed.

Lemma sent_on_other ch ch' m ok : ch' ≠ ch → sent_on ch (EvTrySend ch' m ok) = None.
Proof. intros. simpl. destruct ok; [|done]. by rewrite decide_False. Qed.

Lemma attempt_on_other ch ch' m ok : ch' ≠ ch → attempt_on ch (EvTrySend ch' m ok) = None.
Proof. intros. simpl. by rewrite decide_False. Qed.

Lemma close_of_other ch ch' :
  ch' ≠ ch → close_of ch (@EvClose Message ch') = None.
Proof. intros. simpl. by rewrite decide_False. Qed.

(** The operations of a whole fan-out on the channel of client [c]: one
    attempt if [c] is active, none otherwise. *)
Lemma pass_attempts rdy m keys w c hc :
  wf w → NoDup keys → objs w !! c = Some hc →
  attempts (Messages hc) (keys ≫= pass_events rdy m w) =
    if decide (c ∈ keys) then
      match clients w !! c with Some _ => [rdy (Messages hc)] | None => [] end
    else [].
Proof.
  intros Hwf Hnd Hobj. unfold attempts.
  rewrite (omap_bind_single _ _ keys c Hnd).
  - case_decide; [|done]. unfold pass_events. rewrite Hobj.
    destruct (clients w !! c); [|done].
    destruct (rdy (Messages hc)); simpl; by rewrite decide_True.
  - intros c' Hne. apply (pass_events_other rdy m w c hc c' _ attempt_on); try done.
    intros. by apply attempt_on_other.
Qed.

Lemma pass_received rdy m keys w c hc :
  wf w → NoDup keys → objs w !! c = Some hc →
  received (Messages hc) (keys ≫= pass_events rdy m w) =
    if decide (c ∈ keys) then
      match clients w !! c with
      | Some _ => if rdy (Messages hc) then [m] else []
      | None => []
      end
    else [].
Proof.
  intros Hwf Hnd Hobj. unfold received.
  rewrite (omap_bind_single _ _ keys c Hnd).
  - case_decide; [|done]. unfold pass_events. rewrite Hobj.
    destruct (clients w !! c); [|done].
    destruct (rdy (Messages hc)); simpl; [by rewrite decide_True|done].
  - intros c' Hne. apply (pass_events_other rdy m w c hc c' _ sent_on); try done.
    intros. by apply sent_on_other.
Qed.

Lemma pass_closes rdy m keys w c hc :
  wf w → NoDup keys → objs w !! c = Some hc →
  closes (Messages hc) (keys ≫= pass_events rdy m w) =
    if decide (c ∈ keys) then
      match clients w !! c with
      | Some _ => if rdy (Messages hc) then 0 else 1
      | None => 0
      end
    else 0.
Proof.
  intros Hwf Hnd Hobj. unfold closes.
  rewrite (omap_bind_single _ _ keys c Hnd).
  - case_decide; [|done]. unfold pass_events. rewrite Hobj.
    destruct (clients w !! c); [|done].
    destruct (rdy (Messages hc)); simpl; [done|by rewrite decide_True].
  - intros c' Hne. apply (pass_events_other rdy m w c hc c' _ close_of); try done.
    intros. by apply close_of_other.
Qed.

(** The state of a channel can be read off the history. *)
Lemma closed_iff_closes w ch :
  wf w → is_Some (chans w !! ch) →
  (is_closed w ch ↔ closes ch (log w) = 1) ∧ (is_open w ch ↔ closes ch (log w) = 0).
Proof.
  intros Hwf [[[]] Hq]; rewrite (wf_closes w Hwf ch); unfold is_closed, is_open;
    rewrite Hq; split; split; intros; done.
Qed.

Lemma pass_chan rdy m keys w c hc :
  wf w → NoDup keys → objs w !! c = Some hc →
  chans (pass rdy m keys w) !! Messages hc =
    if decide (c ∈ keys) then
      match clients w !! c with
      | Some _ => if rdy (Messages hc) then chans w !! Messages hc else Some (mkChan true)
      | None => chans w !! Messages hc
      end
    else chans w !! Messages hc.
Proof.
  intros Hwf Hnd Hobj.
  pose proof (wf_pass rdy m keys w Hwf) as Hwf'.
  pose proof (wf_chan w Hwf c hc Hobj) as Hs.
  pose proof (proj2 (pass_chans_dom rdy m keys w (Messages hc) Hwf) Hs) as Hs'.
  pose proof (wf_closes _ Hwf' (Messages hc)) as Hc'.
  pose proof (wf_closes _ Hwf (Messages hc)) as Hc.
  rewrite pass_log, closes_app, (pass_closes rdy m keys w c hc) in Hc' by done.
  destruct Hs as [[q] Hq], Hs' as [[q'] Hq']. rewrite Hq in *. rewrite Hq' in *.
  case_decide.
  - destruct (clients w !! c) as [b|] eqn:Hcl.
    + destruct (wf_active w Hwf c) as (hc0 & ? & Hopen & _); [by eexists|].
      assert (hc0 = hc) as -> by congruence.
      unfold is_open in Hopen. assert (q = false) as -> by congruence.
      destruct (rdy (Messages hc)), q'; simpl in *; try done; lia.
    + destruct q, q'; simpl in *; try done; lia.
  - destruct q, q'; simpl in *; try done; lia.
Qed.

Lemma do_action_log w a w1 :
  wf w → valid w a → do_action a w = Ok w1 →
  log w1 = log w ++ action_events w a.
Proof.
  intros Hwf Hv Hdo. destruct a as [c ch info|[c|c|m] e]; simpl in *.
  - injection Hdo as <-. simpl. by rewrite app_nil_r.
  - by injection Hdo as <-.
  - destruct (clients w !! c) as [b|] eqn:Hc.
    + destruct (wf_active w Hwf c) as (hc & Hobj & _); [by eexists|].
      rewrite (Run_unregister_total c w b hc) in Hdo by done.
      injection Hdo as <-. by rewrite Hobj.
    + rewrite Run_unregister_absent in Hdo by done.
      injection Hdo as <-. by rewrite app_nil_r.
  - rewrite fanout_total in Hdo by done. injection Hdo as <-.
    apply pass_log. by destruct Hv.
Qed.

Lemma do_action_objs w a w1 c hc :
  wf w → valid w a → do_action a w = Ok w1 →
  objs w !! c = Some hc → objs w1 !! c = Some hc.
Proof.
  intros Hwf Hv Hdo Hobj. destruct a as [c' ch info|[c'|c'|m] e]; simpl in *.
  - injection Hdo as <-. simpl. destruct Hv as [Hn _].
    rewrite lookup_insert_ne; [done|congruence].
  - by injection Hdo as <-.
  - destruct (clients w !! c') as [b|] eqn:Hc.
    + destruct (wf_active w Hwf c') as (hc' & Hobj' & _); [by eexists|].
      rewrite (Run_unregister_total c' w b hc') in Hdo by done.
      by injection Hdo as <-.
    + rewrite Run_unregister_absent in Hdo by done. by injection Hdo as <-.
  - rewrite fanout_total in Hdo by done. injection Hdo as <-.
    by rewrite pass_objs.
Qed.

Lemma steps_log w acts w1 :
  wf w → steps w acts w1 → ∃ evs, log w1 = log w ++ evs.
Proof.
  intros Hwf Hs. induction Hs as [|w a w1 acts w2 Hv Hdo _ IH].
  - exists []. by rewrite app_nil_r.
  - destruct (do_action_ok w a Hwf Hv) as (w' & Hdo' & Hwf').
    assert (w' = w1) as -> by congruence.
    destruct (IH Hwf') as [evs Hevs].
    exists (action_events w a ++ evs).
    by rewrite Hevs, (do_action_log w a w1), app_assoc.
Qed.

Lemma steps_objs w acts w1 c hc :
  wf w → steps w acts w1 → objs w !! c = Some hc → objs w1 !! c = Some hc.
Proof.
  intros Hwf Hs. induction Hs as [|w a w1 acts w2 Hv Hdo _ IH]; [done|].
  intros Hobj. destruct (do_action_ok w a Hwf Hv) as (w' & Hdo' & Hwf').
  assert (w' = w1) as -> by congruence.
  apply IH; [done|]. by apply (do_action_objs w a w1).
Qed.

(** A closed queue stays closed, and a client whose queue is closed stays
    out of the active set. *)
Lemma steps_closed w acts w1 c hc :
  wf w → steps w acts w1 → objs w !! c = Some hc →
  is_closed w (Messages hc) → is_closed w1 (Messages hc) ∧ ¬ active w1 c.
Proof.
  intros Hwf Hs Hobj Hcl.
  pose proof (steps_wf w acts w1 Hwf Hs) as Hwf1.
  pose proof (steps_objs w acts w1 c hc Hwf Hs Hobj) as Hobj1.
  destruct (steps_log w acts w1 Hwf Hs) as [evs Hevs].
  assert (is_closed w1 (Messages hc)) as Hcl1.
  { apply closed_iff_closes; [done|by eapply wf_chan|].
    apply closed_iff_closes in Hcl; [|done|by eapply wf_chan].
    pose proof (wf_closes w1 Hwf1 (Messages hc)) as Hle.
    rewrite Hevs, closes_app in *.
    destruct (chans w1 !! Messages hc) as [[[]]|]; lia. }
  split; [done|]. intros Hact.
  destruct (wf_active w1 Hwf1 c Hact) as (hc1 & ? & Hopen & _).
  assert (hc1 = hc) as -> by congruence.
  unfold is_open, is_closed in *. congruence.
Qed.

Lemma reachable_wf w : reachable w → wf w.
Proof. intros [acts Hs]. eapply steps_wf; [apply wf_NewHub|done]. Qed.

(** ** One fan-out, seen from one subscriber *)

Lemma fanout_no_clients rdy m keys w :
  clients w = ∅ → fanout rdy m keys w = Ok w.
Proof.
  intros Hc. induction keys as [|c keys IH]; [done|].
  simpl. by rewrite Hc, lookup_empty.
Qed.

Lemma broadcast_pass e m w :
  wf w → range_ok w (order e) →
  Run_iter e (ReqBroadcast m) w = Ok (pass (ready e) m (order e) w) ∧
  log (pass (ready e) m (order e) w) =
    log w ++ (order e ≫= pass_events (ready e) m w).
Proof.
  intros Hwf [Hnd _]. split; [by apply fanout_total|by apply pass_log].
Qed.

Lemma broadcast_subscriber e m w c hc b :
  wf w → range_ok w (order e) →
  clients w !! c = Some b → objs w !! c = Some hc →
  let w1 := pass (ready e) m (order e) w in
  let evs := order e ≫= pass_events (ready e) m w in
  attempts (Messages hc) evs = [ready e (Messages hc)] ∧
  received (Messages hc) evs = (if ready e (Messages hc) then [m] else []) ∧
  closes (Messages hc) evs = (if ready e (Messages hc) then 0 else 1) ∧
  clients w1 !! c = (if ready e (Messages hc) then Some b else None) ∧
  chans w1 !! Messages hc = Some (mkChan (negb (ready e (Messages hc)))).
Proof.
  intros Hwf [Hnd Hkeys] Hc Hobj w1 evs.
  assert (c ∈ order e) as Hin by (apply Hkeys; by eexists).
  destruct (wf_active w Hwf c) as (hc0 & ? & Hopen & _); [by eexists|].
  assert (hc0 = hc) as -> by congruence.
  unfold w1, evs.
  rewrite (pass_attempts _ _ _ w c hc), (pass_received _ _ _ w c hc),
    (pass_closes _ _ _ w c hc), (pass_chan _ _ _ w c hc) by done.
  rewrite !decide_True by done. rewrite Hc.
  split_and!; try done.
  - destruct (ready e (Messages hc)) eqn:Hr.
    + by rewrite (pass_clients_ready _ _ _ w c hc).
    + by apply (pass_clients_stalled _ _ _ w c hc).
  - by destruct (ready e (Messages hc)).
Qed.

(** A client that is not active is not touched by a fan-out. *)
Lemma broadcast_bystander e m w c hc :
  wf w → range_ok w (order e) →
  clients w !! c = None → objs w !! c = Some hc →
  let w1 := pass (ready e) m (order e) w in
  let evs := order e ≫= pass_events (ready e) m w in
  attempts (Messages hc) evs = [] ∧ received (Messages hc) evs = [] ∧
  closes (Messages hc) evs = 0 ∧
  clients w1 !! c = None ∧ chans w1 !! Messages hc = chans w !! Messages hc.
Proof.
  intros Hwf [Hnd Hkeys] Hc Hobj w1 evs. unfold w1, evs.
  rewrite (pass_attempts _ _ _ w c hc), (pass_received _ _ _ w c hc),
    (pass_closes _ _ _ w c hc), (pass_chan _ _ _ w c hc) by done.
  rewrite Hc. split_and!; try by case_decide.
  by apply pass_clients_sub.
Qed.

Lemma step_received w a w1 c hc :
  wf w → valid w a → do_action a w = Ok w1 → objs w !! c = Some hc →
  received (Messages hc) (log w1) = received (Messages hc) (log w) ++ gets w c hc a.
Proof.
  intros Hwf Hv Hdo Hobj.
  rewrite (do_action_log w a w1 Hwf Hv Hdo), received_app. f_equal.
  destruct a as [c' ch info|[c'|c'|m] e]; simpl; try done.
  - destruct (clients w !! c'), (objs w !! c'); done.
  - destruct Hv as [Hnd Hkeys].
    rewrite (pass_received _ _ _ w c hc) by done.
    destruct (clients w !! c) as [b|] eqn:Hc; [|by case_decide].
    rewrite decide_True; [done|]. apply Hkeys. by eexists.
Qed.

Lemma gets_sublist w c hc a : sublist (gets w c hc a) (option_list (broadcast_of a)).
Proof.
  destruct a as [|[| |m] e]; simpl; try done.
  destruct (clients w !! c); [|by apply sublist_nil_l].
  destruct (ready e (Messages hc)); [done|by apply sublist_nil_l].
Qed.

Lemma broadcasts_cons a acts :
  broadcasts (a :: acts) = option_list (broadcast_of a) ++ broadcasts acts.
Proof. unfold broadcasts. simpl. by destruct (broadcast_of a). Qed.

Lemma broadcasts_app acts1 acts2 :
  broadcasts (acts1 ++ acts2) = broadcasts acts1 ++ broadcasts acts2.
Proof. apply omap_app. Qed.

(** During a run a subscriber receives a subsequence of the messages
    broadcast during that run, in the order of the broadcasts. *)
Lemma steps_received_sublist w acts w1 c hc :
  wf w → steps w acts w1 → objs w !! c = Some hc →
  ∃ got, received (Messages hc) (log w1) = received (Messages hc) (log w) ++ got ∧
         sublist got (broadcasts acts).
Proof.
  intros Hwf Hs. induction Hs as [|w a w1 acts w2 Hv Hdo _ IH]; intros Hobj.
  - exists []. by rewrite app_nil_r.
  - destruct (do_action_ok w a Hwf Hv) as (w' & Hdo' & Hwf').
    assert (w' = w1) as -> by congruence.
    destruct (IH Hwf') as (got & Hgot & Hsub); [by apply (do_action_objs w a w1)|].
    exists (gets w c hc a ++ got). split.
    + by rewrite Hgot, (step_received w a w1 c hc), app_assoc.
    + rewrite broadcasts_cons. apply sublist_app; [apply gets_sublist|done].
Qed.

(** A run without broadcasts hands nothing to anybody. *)
Lemma steps_received_quiet w acts w1 c hc :
  wf w → steps w acts w1 → objs w !! c = Some hc → broadcasts acts = [] →
  received (Messages hc) (log w1) = received (Messages hc) (log w).
Proof.
  intros Hwf Hs Hobj Hb.
  destruct (steps_received_sublist w acts w1 c hc Hwf Hs Hobj) as (got & -> & Hsub).
  rewrite Hb in Hsub. apply sublist_nil_r in Hsub as ->. by rewrite app_nil_r.
Qed.

Lemma active_lookup w c : active w c ↔ ∃ b, clients w !! c = Some b.
Proof. done. Qed.

Lemma not_active_lookup w c : ¬ active w c ↔ clients w !! c = None.
Proof. unfold active. by rewrite eq_None_not_Some. Qed.

(** After its registration was processed, a client is active or its queue
    is closed. *)
Lemma registered_active_or_closed w c hc :
  wf w → objs w !! c = Some hc → EvInsert c ∈ log w →
  (active w c ∧ is_open w (Messages hc)) ∨ (¬ active w c ∧ is_closed w (Messages hc)).
Proof.
  intros Hwf Hobj Hin. destruct (clients w !! c) as [b|] eqn:Hc.
  - left. destruct (wf_active w Hwf c) as (hc0 & ? & ? & _); [by eexists|].
    assert (hc0 = hc) as -> by congruence. split; [by eexists|done].
  - right. apply not_active_lookup in Hc. split; [done|]. by eapply wf_gone.
Qed.

(** ** The claims about one iteration of the loop *)

(** C8. A broadcast processed while the active set is empty is a no-op
    fan-out: the iteration ends normally and leaves the hub's memory,
    history included, as it was; this holds whatever order and readiness
    the surroundings offer. *)
Theorem broadcast_without_subscribers e m w :
  clients w = ∅ → Run_iter e (ReqBroadcast m) w = Ok w.
Proof. intros Hc. simpl. by apply fanout_no_clients. Qed.

(** C3. An unregister request for a client that is not active leaves the
    hub's memory unchanged and does not panic.  For an active client it
    deletes the client from [clients] and closes its queue, once: the
    iteration adds one delete and one close to the history, the queue was
    open before and is closed after, and nothing else changes.  Unregistering
    a second time yields the state the first one gave, be it at once or
    after any further run of the hub. *)
Theorem unregister_idempotent e e' c w :
  reachable w →
  (¬ active w c → Run_iter e (ReqUnregister c) w = Ok w) ∧
  (active w c →
     ∃ hc w1, objs w !! c = Some hc ∧
       Run_iter e (ReqUnregister c) w = Ok w1 ∧
       clients w1 = delete c (clients w) ∧
       is_open w (Messages hc) ∧ is_closed w1 (Messages hc) ∧
       log w1 = log w ++ [EvDelete c; EvClose (Messages hc)] ∧
       closes (Messages hc) (log w1) = 1 ∧
       objs w1 = objs w ∧
       (∀ ch, ch ≠ Messages hc → chans w1 !! ch = chans w !! ch)) ∧
  (∃ w1, Run_iter e (ReqUnregister c) w = Ok w1 ∧
         Run_iter e' (ReqUnregister c) w1 = Ok w1) ∧
  (∀ w1 mid w2,
     EvInsert c ∈ log w →
     Run_iter e (ReqUnregister c) w = Ok w1 → steps w1 mid w2 →
     Run_iter e' (ReqUnregister c) w2 = Ok w2).
Proof.
  intros Hreach. pose proof (reachable_wf w Hreach) as Hwf. split_and!; cycle 3.
  { intros w1 mid w2 Hin Hrun Hmid.
    assert (valid w (Recv (ReqUnregister c) e)) as Hv by done.
    destruct (do_action_ok w _ Hwf Hv) as (w1' & Hdo & Hwf1).
    assert (w1' = w1) as -> by (simpl in Hdo, Hrun; congruence).
    destruct (wf_reg w Hwf c Hin) as [hc Hobj].
    pose proof (do_action_objs w _ w1 c hc Hwf Hv Hdo Hobj) as Hobj1.
    assert (EvInsert c ∈ log w1) as Hin1.
    { rewrite (do_action_log w _ w1 Hwf Hv Hdo). apply elem_of_app. by left. }
    assert (¬ active w1 c) as Hna.
    { simpl in Hrun. destruct (clients w !! c) as [b|] eqn:Hc.
      - rewrite (Run_unregister_total c w b hc) in Hrun by done.
        injection Hrun as <-. unfold active. simpl. rewrite lookup_delete_eq.
        by intros [??].
      - rewrite Run_unregister_absent in Hrun by done. injection Hrun as <-.
        by apply not_active_lookup. }
    pose proof (wf_gone w1 Hwf1 c hc Hobj1 Hin1 Hna) as Hcl.
    destruct (steps_closed w1 mid w2 c hc Hwf1 Hmid Hobj1 Hcl) as [_ Hna2].
    apply Run_unregister_absent. by apply not_active_lookup. }
  - intros Hna%not_active_lookup. by apply Run_unregister_absent.
  - intros [b Hc].
    destruct (wf_active w Hwf c) as (hc & Hobj & Hopen & _); [by eexists|].
    exists hc, (drop_client c (Messages hc) w).
    pose proof (wf_drop_client w c b hc Hwf Hc Hobj) as Hwf1.
    split_and!; try done.
    + by apply (Run_unregister_total c w b hc).
    + unfold is_closed. simpl. by rewrite lookup_insert_eq.
    + rewrite (wf_closes _ Hwf1). simpl. by rewrite lookup_insert_eq.
    + intros ch Hne. simpl. by rewrite lookup_insert_ne.
  - destruct (clients w !! c) as [b|] eqn:Hc.
    + destruct (wf_active w Hwf c) as (hc & Hobj & Hopen & _); [by eexists|].
      exists (drop_client c (Messages hc) w). split.
      * by apply (Run_unregister_total c w b hc).
      * apply Run_unregister_absent. simpl. by rewrite lookup_delete_eq.
    + exists w. split; by apply Run_unregister_absent.
Qed.

(** C1. For a broadcast request the loop ends its iteration normally (no
    panic, and [Broadcast] has no result that could carry an error), and
    for every client of the active set the fan-out makes exactly one
    non-blocking send attempt on that client's queue.  When the attempt
    cannot proceed, the queue is closed (once) and the client is out of the
    active set after the same iteration; when it proceeds, the client stays
    active with an open queue.  In particular: once the registration of a
    client was processed, a broadcast at which nobody is receiving from its
    queue leaves it out of the active set with its queue closed; when that
    is the first broadcast since the registration, the client has
    received nothing at all. *)
Theorem broadcast_evicts_stalled :
  (∀ e m w, reachable w → range_ok w (order e) →
     ∃ w1 evs, Run_iter e (ReqBroadcast m) w = Ok w1 ∧
       log w1 = log w ++ evs ∧
       ∀ c, active w c →
         ∃ hc, objs w !! c = Some hc ∧
           attempts (Messages hc) evs = [ready e (Messages hc)] ∧
           (ready e (Messages hc) = false →
              closes (Messages hc) evs = 1 ∧
              is_closed w1 (Messages hc) ∧ ¬ active w1 c) ∧
           (ready e (Messages hc) = true →
              closes (Messages hc) evs = 0 ∧
              is_open w1 (Messages hc) ∧ active w1 c)) ∧
  (∀ w0 c e0 w1 mid w2 m e w3 hc,
     reachable w0 →
     steps w0 [Recv (ReqRegister c) e0] w1 →
     steps w1 mid w2 →
     steps w2 [Recv (ReqBroadcast m) e] w3 →
     objs w0 !! c = Some hc →
     ready e (Messages hc) = false →
     is_closed w3 (Messages hc) ∧ ¬ active w3 c ∧
     (broadcasts mid = [] → received (Messages hc) (log w3) = [])).
Proof.
  split.
  - intros e m w Hwf%reachable_wf Hr.
    destruct (broadcast_pass e m w Hwf Hr) as [Hrun Hlog].
    eexists _, _. split; [exact Hrun|]. split; [exact Hlog|].
    intros c [b Hc].
    destruct (wf_active w Hwf c) as (hc & Hobj & _); [by eexists|].
    exists hc. split; [done|].
    destruct (broadcast_subscriber e m w c hc b Hwf Hr Hc Hobj)
      as (Hatt & _ & Hcl & Hcli & Hch).
    split; [done|]. unfold is_closed, is_open, active.
    split; intros Hrdy; rewrite Hrdy in *; simpl in *.
    + rewrite Hcli, Hch. split_and!; [done..|]. by intros [??].
    + rewrite Hcli, Hch. split_and!; [done..|]. by eexists.
  - intros w0 c e0 w1 mid w2 m e w3 hc Hwf0%reachable_wf Hreg Hmid Hb Hobj0 Hrdy.
    apply steps_one in Hreg as [Hv0 Hdo0].
    pose proof (steps_wf w0 [_] w1 Hwf0 (proj2 (steps_one _ _ _) (conj Hv0 Hdo0))) as Hwf1.
    pose proof (steps_wf w1 mid w2 Hwf1 Hmid) as Hwf2.
    pose proof (do_action_objs w0 _ w1 c hc Hwf0 Hv0 Hdo0 Hobj0) as Hobj1.
    pose proof (steps_objs w1 mid w2 c hc Hwf1 Hmid Hobj1) as Hobj2.
    pose proof (steps_wf w2 [_] w3 Hwf2 Hb) as Hwf3.
    pose proof (steps_objs w2 _ w3 c hc Hwf2 Hb Hobj2) as Hobj3.
    assert (received (Messages hc) (log w1) = []) as Hrec1.
    { rewrite (step_received w0 _ w1 c hc Hwf0 Hv0 Hdo0 Hobj0). simpl.
      rewrite app_nil_r. apply received_attempts.
      destruct Hv0 as [_ Hni]. by apply (wf_quiet w0 Hwf0 c hc). }
    pose proof Hb as Hb'. apply steps_one in Hb' as [Hv2 Hdo2].
    pose proof (step_received w2 _ w3 c hc Hwf2 Hv2 Hdo2 Hobj2) as Hrec3.
    simpl in Hrec3. rewrite Hrdy in Hrec3.
    assert (received (Messages hc) (log w3) = received (Messages hc) (log w2)) as Hrec.
    { rewrite Hrec3. destruct (clients w2 !! c); by rewrite app_nil_r. }
    assert (is_closed w3 (Messages hc) ∧ ¬ active w3 c) as [Hcl Hna].
    { simpl in Hdo2. rewrite fanout_total in Hdo2 by done. injection Hdo2 as <-.
      destruct (clients w2 !! c) as [b|] eqn:Hc.
      - destruct (broadcast_subscriber e m w2 c hc b Hwf2 Hv2 Hc Hobj2)
          as (_ & _ & _ & Hcli & Hch).
        rewrite Hrdy in *. simpl in *. split; [done|].
        unfold active. rewrite Hcli. by intros [??].
      - assert (EvInsert c ∈ log w2) as Hin.
        { destruct (steps_log w1 mid w2 Hwf1 Hmid) as [evs ->].
          injection Hdo0 as <-. simpl. set_solver. }
        destruct (broadcast_bystander e m w2 c hc Hwf2 Hv2 Hc Hobj2)
          as (_ & _ & _ & Hcli & Hch).
        simpl in *. split.
        + unfold is_closed. rewrite Hch. apply (wf_gone w2 Hwf2 c); [done..|].
          by apply not_active_lookup.
        + by apply not_active_lookup. }
    split_and!; [done..|]. intros Hq.
    by rewrite Hrec, (steps_received_quiet w1 mid w2 c hc).
Qed.

Lemma registered_not_before w acts w1 c :
  wf w → steps w acts w1 → c ∈ registered acts → EvInsert c ∉ log w.
Proof.
  intros Hwf Hs. induction Hs as [|w a w1 acts w2 Hv Hdo _ IH]; intros Hin.
  - by apply elem_of_nil in Hin.
  - destruct (do_action_ok w a Hwf Hv) as (w' & Hdo' & Hwf').
    assert (w' = w1) as -> by congruence.
    assert (c ∈ registered acts → EvInsert c ∉ log w) as Hlater.
    { intros Hc Hlog. apply (IH Hwf' Hc).
      rewrite (do_action_log w a w1 Hwf Hv Hdo). apply elem_of_app. by left. }
    unfold registered in Hin. simpl in Hin.
    destruct a as [|[c'| |] e]; simpl in Hin; try by apply Hlater.
    apply elem_of_cons in Hin as [->|Hin]; [|by apply Hlater].
    by destruct Hv.
Qed.

Lemma registrations_run w acts w1 :
  wf w → steps w acts w1 → Forall is_registration acts →
  NoDup (registered acts) ∧
  log w1 = log w ++ (EvInsert <$> registered acts) ∧
  ∀ c, clients w1 !! c =
       if decide (c ∈ registered acts) then Some true else clients w !! c.
Proof.
  intros Hwf Hs. induction Hs as [|w a w1 acts w2 Hv Hdo Hs IH]; intros Hall.
  - split_and!; [constructor|by rewrite app_nil_r|].
    intros c. destruct (decide (c ∈ registered [])) as [Hin|?]; [|done].
    by apply elem_of_nil in Hin.
  - apply Forall_cons in Hall as [Ha Hall].
    destruct (do_action_ok w a Hwf Hv) as (w' & Hdo' & Hwf').
    assert (w' = w1) as -> by congruence.
    destruct (IH Hwf' Hall) as (Hnd & Hlog & Hcl).
    destruct a as [c' ch info|[c'| |] e]; simpl in Ha; try done.
    + simpl in Hdo. injection Hdo as <-. by split_and!.
    + simpl in Hdo. injection Hdo as <-.
      unfold registered in *. simpl in *. split_and!.
      * apply NoDup_cons. split; [|done]. intros Hin.
        apply (registered_not_before _ _ _ c' Hwf' Hs Hin).
        simpl. apply elem_of_app. right. by left.
      * by rewrite Hlog, <- app_assoc.
      * intros c. rewrite Hcl. simpl.
        destruct (decide (c = c')) as [->|Hne].
        -- rewrite lookup_insert_eq. rewrite (decide_True (P := c' ∈ c' :: _)) by by left.
           by case_decide.
        -- rewrite lookup_insert_ne by done.
           destruct (decide (c ∈ omap registration_of acts)) as [Hin|Hni].
           ++ by rewrite decide_True by by right.
           ++ rewrite decide_False; [done|]. by intros [?|?]%elem_of_cons.
Qed.

(** When every receiver is waiting, a fan-out leaves the active set as it
    was. *)
Lemma pass_all_ready e m w :
  wf w → (∀ ch, ready e ch = true) →
  clients (pass (ready e) m (order e) w) = clients w.
Proof.
  intros Hwf Hall. apply map_eq. intros c.
  destruct (objs w !! c) as [hc|] eqn:Hobj.
  - by apply (pass_clients_ready _ _ _ w c hc).
  - assert (clients w !! c = None) as Hn.
    { apply not_active_lookup. intros Hact.
      destruct (wf_active w Hwf c Hact) as (? & ? & _). congruence. }
    rewrite Hn. by apply pass_clients_sub.
Qed.

(** C7. One broadcast hands at most one copy of the message to any
    queue, and exactly one copy to every active client whose reader is
    waiting, which also stays active.  After any number of [Register]
    calls (their allocations and the processing of their requests
    interleaved in any way) from a new hub, one broadcast to readers that are
    all waiting ends with as many active clients as registrations, each of
    which has received the message exactly once and nothing else. *)
Theorem broadcast_exactly_once :
  (∀ e m w, reachable w → range_ok w (order e) →
     ∃ w1 evs, Run_iter e (ReqBroadcast m) w = Ok w1 ∧
       log w1 = log w ++ evs ∧
       (∀ c hc, objs w !! c = Some hc →
          length (received (Messages hc) evs) ≤ 1) ∧
       (∀ c, active w c →
          ∃ hc, objs w !! c = Some hc ∧
            (ready e (Messages hc) = true →
               received (Messages hc) evs = [m] ∧ active w1 c))) ∧
  (∀ acts w e m,
     steps NewHub acts w → Forall is_registration acts →
     range_ok w (order e) → (∀ ch, ready e ch = true) →
     ∃ w1, Run_iter e (ReqBroadcast m) w = Ok w1 ∧
       NoDup (registered acts) ∧
       size (clients w1) = length (registered acts) ∧
       ∀ c, c ∈ registered acts →
         ∃ hc, objs w1 !! c = Some hc ∧ active w1 c ∧
               received (Messages hc) (log w1) = [m]).
Proof.
  split.
  - intros e m w Hwf%reachable_wf Hr.
    destruct (broadcast_pass e m w Hwf Hr) as [Hrun Hlog].
    eexists _, _. split; [exact Hrun|]. split; [exact Hlog|]. split.
    + intros c hc Hobj. destruct (clients w !! c) as [b|] eqn:Hc.
      * destruct (broadcast_subscriber e m w c hc b Hwf Hr Hc Hobj) as (_ & -> & _).
        destruct (ready e (Messages hc)); simpl; lia.
      * destruct (broadcast_bystander e m w c hc Hwf Hr Hc Hobj) as (_ & -> & _).
        simpl; lia.
    + intros c [b Hc].
      destruct (wf_active w Hwf c) as (hc & Hobj & _); [by eexists|].
      exists hc. split; [done|]. intros Hrdy.
      destruct (broadcast_subscriber e m w c hc b Hwf Hr Hc Hobj)
        as (_ & Hrec & _ & Hcli & _).
      rewrite Hrdy in *. split; [done|]. by eexists.
  - intros acts w e m Hs Hall Hr Hrdy.
    pose proof (steps_wf _ _ _ wf_NewHub Hs) as Hwf.
    destruct (registrations_run _ _ _ wf_NewHub Hs Hall) as (Hnd & Hlog & Hcl).
    destruct (broadcast_pass e m w Hwf Hr) as [Hrun Hlogp].
    eexists. split; [exact Hrun|]. split; [done|].
    rewrite (pass_all_ready e m w Hwf Hrdy). split.
    + rewrite <- size_dom, <- (size_list_to_set (C := gset loc)) by done.
      f_equal. apply set_eq. intros c.
      rewrite elem_of_dom, elem_of_list_to_set, Hcl. simpl.
      case_decide; split; try done; try (by eexists).
      rewrite lookup_empty. by intros [??].
    + intros c Hin.
      assert (clients w !! c = Some true) as Hc by (by rewrite Hcl, decide_True).
      destruct (wf_active w Hwf c) as (hc & Hobj & _); [by eexists|].
      exists hc. rewrite pass_objs. split; [done|].
      split; [unfold active; rewrite (pass_all_ready e m w Hwf Hrdy); by eexists|].
      destruct (broadcast_subscriber e m w c hc true Hwf Hr Hc Hobj) as (_ & Hrec & _).
      rewrite Hlogp, received_app, Hrec, Hrdy, Hlog. simpl.
      replace (received (Messages hc) (EvInsert <$> registered acts)) with (@nil Message);
        [done|].
      clear. induction (registered acts) as [|c' l IH]; [done|]. exact IH.
Qed.

(** ** Where a received message comes from *)

Lemma steps_snoc w acts a w2 :
  steps w (acts ++ [a]) w2 ↔
  ∃ w1, steps w acts w1 ∧ valid w1 a ∧ do_action a w1 = Ok w2.
Proof.
  rewrite steps_app. split.
  - intros (w1 & ? & [? ?]%steps_one). by exists w1.
  - intros (w1 & ? & ? & ?). exists w1. split; [done|]. by apply steps_one.
Qed.

(** Only [Alloc] makes a client struct. *)
Lemma do_action_new_obj w a w1 c hc :
  wf w → valid w a → do_action a w = Ok w1 →
  objs w !! c = None → objs w1 !! c = Some hc →
  chans w !! Messages hc = None ∧ log w1 = log w.
Proof.
  intros Hwf Hv Hdo Hn Hs. destruct a as [c' ch info|[c'|c'|m] e]; simpl in *.
  - injection Hdo as <-. simpl in *.
    apply lookup_insert_Some in Hs as [[<- <-]|[_ ?]]; [|congruence].
    by destruct Hv.
  - injection Hdo as <-. simpl in *. congruence.
  - destruct (clients w !! c') as [b|] eqn:Hc.
    + destruct (wf_active w Hwf c') as (hc' & Hobj' & _); [by eexists|].
      rewrite (Run_unregister_total c' w b hc') in Hdo by done.
      injection Hdo as <-. simpl in *. congruence.
    + rewrite Run_unregister_absent in Hdo by done. injection Hdo as <-. congruence.
  - rewrite fanout_total in Hdo by done. injection Hdo as <-.
    rewrite pass_objs in Hs. congruence.
Qed.

Lemma steps_received_origin w0 acts w c hc m :
  wf w0 → steps w0 acts w → objs w !! c = Some hc →
  m ∈ received (Messages hc) (log w) →
  m ∈ received (Messages hc) (log w0) ∨
  ∃ pre e post w1,
    acts = pre ++ Recv (ReqBroadcast m) e :: post ∧ steps w0 pre w1 ∧
    active w1 c ∧ ready e (Messages hc) = true.
Proof.
  intros Hwf0. revert w. induction acts as [|a acts IH] using rev_ind; intros w Hs Hobj Hm.
  - inversion Hs; subst. by left.
  - apply steps_snoc in Hs as (w1 & Hs & Hv & Hdo).
    pose proof (steps_wf w0 acts w1 Hwf0 Hs) as Hwf1.
    destruct (objs w1 !! c) as [hc1|] eqn:Hobj1.
    + assert (hc1 = hc) as ->.
      { pose proof (do_action_objs w1 a w c hc1 Hwf1 Hv Hdo Hobj1). congruence. }
      rewrite (step_received w1 a w c hc Hwf1 Hv Hdo Hobj1) in Hm.
      apply elem_of_app in Hm as [Hm|Hm].
      * destruct (IH w1 Hs Hobj1 Hm) as [?|(pre & e & post & w' & -> & ? & ? & ?)];
          [by left|right].
        exists pre, e, (post ++ [a]), w'. split_and!; try done.
        by rewrite <- app_assoc.
      * right. destruct a as [|[| |m'] e]; simpl in Hm; try by apply elem_of_nil in Hm.
        destruct (clients w1 !! c) as [b|] eqn:Hc; [|by apply elem_of_nil in Hm].
        destruct (ready e (Messages hc)) eqn:Hr; [|by apply elem_of_nil in Hm].
        apply list_elem_of_singleton in Hm as ->.
        exists acts, e, [], w1. split_and!; try done. by eexists.
    + destruct (do_action_new_obj w1 a w c hc Hwf1 Hv Hdo Hobj1 Hobj) as [Hch Hlog].
      rewrite Hlog, (received_attempts _ _ (wf_unalloc w1 Hwf1 _ Hch)) in Hm.
      by apply elem_of_nil in Hm.
Qed.

(** A client whose registration was not processed yet receives only what
    is broadcast afterwards. *)
Lemma steps_received_fresh w acts w1 c hc :
  wf w → steps w acts w1 → objs w1 !! c = Some hc →
  EvInsert c ∉ log w →
  sublist (received (Messages hc) (log w1)) (broadcasts acts).
Proof.
  intros Hwf Hs. induction Hs as [|w a w1 acts w2 Hv Hdo Hs IH]; intros Hobj Hni.
  - rewrite (received_attempts _ _ (wf_quiet w Hwf c hc Hobj Hni)). apply sublist_nil_l.
  - destruct (do_action_ok w a Hwf Hv) as (w' & Hdo' & Hwf').
    assert (w' = w1) as -> by congruence.
    destruct (objs w !! c) as [hc0|] eqn:Hobj0.
    + assert (hc0 = hc) as ->.
      { pose proof (do_action_objs w a w1 c hc0 Hwf Hv Hdo Hobj0) as H1.
        pose proof (steps_objs w1 acts w2 c hc0 Hwf' Hs H1). congruence. }
      destruct (steps_received_sublist w (a :: acts) w2 c hc Hwf) as (got & -> & Hsub);
        [by econstructor|done|].
      by rewrite (received_attempts _ _ (wf_quiet w Hwf c hc Hobj0 Hni)).
    + rewrite broadcasts_cons. apply sublist_inserts_l. apply IH; [done..|].
      intros Hin. destruct (objs w1 !! c) as [hc1|] eqn:Hobj1.
      * destruct (do_action_new_obj w a w1 c hc1 Hwf Hv Hdo Hobj0 Hobj1) as [_ Hlog].
        rewrite Hlog in Hin. destruct (wf_reg w Hwf c Hin). congruence.
      * destruct (wf_reg w1 Hwf' c Hin). congruence.
Qed.

(** C4. Every message that went through a client's queue was broadcast
    at a moment when that client was in the active set (and its reader was
    waiting).  A client whose registration had not been processed when a
    message was broadcast does not get that message: all it ever receives
    is a subsequence of what is broadcast afterwards.  Two clients have two
    different queues, and what an action hands to the queue of a client
    depends on that client alone. *)
Theorem delivered_only_while_active :
  (∀ acts w c hc m,
     steps NewHub acts w → objs w !! c = Some hc →
     m ∈ received (Messages hc) (log w) →
     ∃ pre e post w1,
       acts = pre ++ Recv (ReqBroadcast m) e :: post ∧
       steps NewHub pre w1 ∧ active w1 c ∧ ready e (Messages hc) = true) ∧
  (∀ pre w1 post w c hc,
     steps NewHub pre w1 → EvInsert c ∉ log w1 →
     steps w1 post w → objs w !! c = Some hc →
     sublist (received (Messages hc) (log w)) (broadcasts post)) ∧
  (∀ w (ca cb : loc) ha hb,
     reachable w → objs w !! ca = Some ha → objs w !! cb = Some hb → ca ≠ cb →
     Messages ha ≠ Messages hb ∧
     ∀ (act : Action) w1, valid w act → do_action act w = Ok w1 →
       received (Messages hb) (log w1) =
         received (Messages hb) (log w) ++ gets w cb hb act).
Proof.
  split_and!.
  - intros acts w c hc m Hs Hobj Hm.
    destruct (steps_received_origin NewHub acts w c hc m wf_NewHub Hs Hobj Hm)
      as [Hin|?]; [|done].
    by apply elem_of_nil in Hin.
  - intros pre w1 post w c hc Hpre Hni Hpost Hobj.
    apply (steps_received_fresh w1 post w c hc); try done.
    by apply (steps_wf NewHub pre w1 wf_NewHub).
  - intros w ca cb ha hb Hwf%reachable_wf Ha Hb Hne. split.
    + intros Heq. apply Hne. by apply (wf_inj w Hwf ca cb ha hb).
    + intros act w1 Hv Hdo. by apply step_received.
Qed.

Lemma step_stays w a w1 c hc :
  wf w → valid w a → do_action a w = Ok w1 →
  active w c → objs w !! c = Some hc → never_stalls hc a → stays c a →
  active w1 c ∧ gets w c hc a = option_list (broadcast_of a).
Proof.
  intros Hwf Hv Hdo [b Hc] Hobj Hn Hst. unfold active.
  destruct a as [c' ch info|[c'|c'|m] e]; simpl in *.
  - injection Hdo as <-. simpl. split; [by eexists|done].
  - injection Hdo as <-. simpl. split; [|done].
    apply lookup_insert_is_Some'. right. by eexists.
  - split; [|done]. destruct (clients w !! c') as [b'|] eqn:Hc'.
    + destruct (wf_active w Hwf c') as (hc' & Hobj' & _); [by eexists|].
      rewrite (Run_unregister_total c' w b' hc') in Hdo by done.
      injection Hdo as <-. simpl. rewrite lookup_delete_ne by done. by eexists.
    + rewrite Run_unregister_absent in Hdo by done. injection Hdo as <-. by eexists.
  - rewrite fanout_total in Hdo by done. injection Hdo as <-.
    rewrite (pass_clients_ready _ _ _ w c hc), Hc, Hn by done.
    split; [by eexists|done].
Qed.

Lemma steps_never_stalls w acts w1 c hc :
  wf w → steps w acts w1 → active w c → objs w !! c = Some hc →
  Forall (never_stalls hc) acts → Forall (stays c) acts →
  received (Messages hc) (log w1) = received (Messages hc) (log w) ++ broadcasts acts ∧
  active w1 c.
Proof.
  intros Hwf Hs. induction Hs as [|w a w1 acts w2 Hv Hdo Hs IH];
    intros Hact Hobj Hn Hst.
  - by rewrite app_nil_r.
  - apply Forall_cons in Hn as [Hn1 Hn]. apply Forall_cons in Hst as [Hst1 Hst].
    destruct (do_action_ok w a Hwf Hv) as (w' & Hdo' & Hwf').
    assert (w' = w1) as -> by congruence.
    destruct (step_stays w a w1 c hc Hwf Hv Hdo Hact Hobj Hn1 Hst1) as [Hact1 Hgets].
    pose proof (do_action_objs w a w1 c hc Hwf Hv Hdo Hobj) as Hobj1.
    destruct (IH Hwf' Hact1 Hobj1 Hn Hst) as [Hrec ?]. split; [|done].
    by rewrite Hrec, (step_received w a w1 c hc), Hgets, broadcasts_cons, app_assoc.
Qed.

(** A message goes through the queue of [c] at a broadcast only if [c]
    is active at that moment. *)
Lemma received_here w m e w1 c hc :
  wf w → steps w [Recv (ReqBroadcast m) e] w1 → objs w1 !! c = Some hc →
  received (Messages hc) (log w1) = received (Messages hc) (log w) ++ [m] →
  objs w !! c = Some hc ∧ active w c ∧ ready e (Messages hc) = true.
Proof.
  intros Hwf [Hv Hdo]%steps_one Hobj1 Hrec.
  destruct (objs w !! c) as [hc0|] eqn:Hobj.
  - assert (hc0 = hc) as ->.
    { pose proof (do_action_objs w _ w1 c hc0 Hwf Hv Hdo Hobj). congruence. }
    rewrite (step_received w _ w1 c hc Hwf Hv Hdo Hobj) in Hrec.
    apply app_inv_head in Hrec. simpl in Hrec.
    destruct (clients w !! c) as [b|] eqn:Hc; [|done].
    destruct (ready e (Messages hc)); [|done].
    split_and!; try done. by eexists.
  - destruct (do_action_new_obj w _ w1 c hc Hwf Hv Hdo Hobj Hobj1) as [_ Hlog].
    rewrite Hlog in Hrec. symmetry in Hrec.
    rewrite <- (app_nil_r (received _ _)) in Hrec at 2.
    by apply app_inv_head in Hrec.
Qed.

(** C2, as amended.  What a subscriber receives is a subsequence of the
    broadcasts, in their order.  A subscriber that receives [M2] has, at the
    earlier broadcast of [M1], either received [M1], or had its queue closed
    already, or had not had its registration processed yet (a late joiner:
    this case is missing in the claim as stated).  A subscriber that is
    active, whose reader is waiting at every broadcast, and that nobody
    unregisters, receives exactly the messages broadcast, in order, and
    stays active. *)
Theorem delivery_in_broadcast_order :
  (∀ acts w c hc,
     steps NewHub acts w → objs w !! c = Some hc →
     sublist (received (Messages hc) (log w)) (broadcasts acts)) ∧
  (∀ pre w1 M1 e1 w2 mid w3 M2 e2 w4 c hc,
     steps NewHub pre w1 →
     steps w1 [Recv (ReqBroadcast M1) e1] w2 →
     steps w2 mid w3 →
     steps w3 [Recv (ReqBroadcast M2) e2] w4 →
     objs w4 !! c = Some hc →
     received (Messages hc) (log w4) = received (Messages hc) (log w3) ++ [M2] →
     received (Messages hc) (log w2) = received (Messages hc) (log w1) ++ [M1] ∨
     is_closed w1 (Messages hc) ∨
     EvInsert c ∉ log w1) ∧
  (∀ w0 acts w c hc,
     reachable w0 → steps w0 acts w →
     active w0 c → objs w0 !! c = Some hc →
     Forall (never_stalls hc) acts → Forall (stays c) acts →
     received (Messages hc) (log w) =
       received (Messages hc) (log w0) ++ broadcasts acts ∧
     active w c).
Proof.
  split_and!.
  - intros acts w c hc Hs Hobj.
    apply (steps_received_fresh NewHub acts w c hc wf_NewHub Hs Hobj).
    by intros ?%elem_of_nil.
  - intros pre w1 M1 e1 w2 mid w3 M2 e2 w4 c hc Hpre Hb1 Hmid Hb2 Hobj4 Hrec.
    pose proof (steps_wf _ _ _ wf_NewHub Hpre) as Hwf1.
    pose proof (steps_wf _ _ _ Hwf1 Hb1) as Hwf2.
    pose proof (steps_wf _ _ _ Hwf2 Hmid) as Hwf3.
    destruct (received_here w3 M2 e2 w4 c hc Hwf3 Hb2 Hobj4 Hrec) as (Hobj3 & Hact3 & _).
    destruct (objs w1 !! c) as [hc1|] eqn:Hobj1; cycle 1.
    { right. right. intros Hin. destruct (wf_reg w1 Hwf1 c Hin). congruence. }
    assert (hc1 = hc) as ->.
    { pose proof (steps_objs _ _ _ c hc1 Hwf1 Hb1 Hobj1) as H2.
      pose proof (steps_objs _ _ _ c hc1 Hwf2 Hmid H2). congruence. }
    pose proof (steps_objs _ _ _ c hc Hwf1 Hb1 Hobj1) as Hobj2.
    pose proof Hb1 as [Hv1 Hdo1]%steps_one.
    destruct (clients w1 !! c) as [b|] eqn:Hc1.
    + rewrite (step_received w1 _ w2 c hc Hwf1 Hv1 Hdo1 Hobj1). simpl. rewrite Hc1.
      destruct (ready e1 (Messages hc)) eqn:Hr; [by left|]. exfalso.
      simpl in Hdo1. rewrite fanout_total in Hdo1 by done. injection Hdo1 as <-.
      destruct (broadcast_subscriber e1 M1 w1 c hc b Hwf1 Hv1 Hc1 Hobj1)
        as (_ & _ & _ & _ & Hch).
      rewrite Hr in Hch. simpl in Hch.
      by destruct (steps_closed _ _ _ c hc Hwf2 Hmid Hobj2 Hch).
    + right. destruct (wf_chan w1 Hwf1 c hc Hobj1) as [[[]] Hq]; [by left|].
      right. intros Hin.
      pose proof (wf_gone w1 Hwf1 c hc Hobj1 Hin) as Hgone.
      unfold is_closed in Hgone. rewrite Hq in Hgone.
      assert (Some (mkChan false) = Some (mkChan true)); [|done].
      apply Hgone. by apply not_active_lookup.
  - intros w0 acts w c hc Hwf%reachable_wf Hs Hact Hobj Hn Hst.
    by apply steps_never_stalls.
Qed.

(** ** No panic *)

(** In every state the hub's memory can reach: active clients have open,
    never closed queues; no action panics; a queue is closed only together
    with the removal of its client; the history has at most one close per
    queue and no send attempt after it. *)
Lemma hub_never_panics w :
  reachable w →
  (∀ c, active w c →
     ∃ hc, objs w !! c = Some hc ∧ is_open w (Messages hc) ∧
           closes (Messages hc) (log w) = 0) ∧
  (∀ a, valid w a → ∃ w1, do_action a w = Ok w1) ∧
  (∀ a w1 c hc, valid w a → do_action a w = Ok w1 →
     objs w !! c = Some hc →
     is_open w (Messages hc) → is_closed w1 (Messages hc) →
     active w c ∧ ¬ active w1 c) ∧
  (∀ ch, closes ch (log w) ≤ 1 ∧ sends_before_close ch (log w)).
Proof.
  intros Hwf%reachable_wf. split_and!.
  - intros c Hact. destruct (wf_active w Hwf c Hact) as (hc & Hobj & Hopen & _).
    exists hc. split_and!; [done..|]. by apply closes_open.
  - intros a Hv. destruct (do_action_ok w a Hwf Hv) as (w1 & ? & _). by exists w1.
  - intros a w1 c hc Hv Hdo Hobj Hopen Hclosed. unfold is_open, is_closed, active in *.
    destruct a as [c' ch info|[c'|c'|m] e]; simpl in *.
    + injection Hdo as <-. simpl in *. destruct Hv as [_ Hfresh].
      rewrite lookup_insert_ne in Hclosed by congruence. congruence.
    + injection Hdo as <-. simpl in *. congruence.
    + destruct (clients w !! c') as [b'|] eqn:Hc'.
      * destruct (wf_active w Hwf c') as (hc' & Hobj' & _); [by eexists|].
        rewrite (Run_unregister_total c' w b' hc') in Hdo by done.
        injection Hdo as <-. simpl in *.
        destruct (decide (Messages hc' = Messages hc)) as [Heq|Hne].
        -- assert (c' = c) as -> by by apply (wf_inj w Hwf c' c hc' hc).
           rewrite lookup_delete_eq. split; [by eexists|]. by intros [??].
        -- rewrite lookup_insert_ne in Hclosed by done. congruence.
      * rewrite Run_unregister_absent in Hdo by done. injection Hdo as <-. congruence.
    + rewrite fanout_total in Hdo by done. injection Hdo as <-.
      destruct (clients w !! c) as [b|] eqn:Hc.
      * destruct (broadcast_subscriber e m w c hc b Hwf Hv Hc Hobj)
          as (_ & _ & _ & Hcli & Hch).
        simpl in *. rewrite Hcli.
        destruct (ready e (Messages hc)); simpl in *; [congruence|].
        split; [by eexists|]. by intros [??].
      * destruct (broadcast_bystander e m w c hc Hwf Hv Hc Hobj) as (_ & _ & _ & _ & Hch).
        simpl in *. congruence.
  - intros ch. split; [|by apply wf_order].
    rewrite (wf_closes w Hwf ch). destruct (chans w !! ch) as [[[]]|]; lia.
Qed.

Lemma reachable_step w a w1 :
  reachable w → valid w a → do_action a w = Ok w1 → reachable w1.
Proof.
  intros [acts Hs] Hv Hdo. exists (acts ++ [a]). apply steps_snoc. by exists w.
Qed.

Lemma sys_inv_boot : sys_inv (@boot Message).
Proof.
  split; simpl.
  - exists []. constructor.
  - intros g c Hg. by rewrite lookup_empty in Hg.
  - done.
  - intros g c [Hg|Hg]; by rewrite lookup_empty in Hg.
Qed.

Ltac insert_cases H :=
  let H' := fresh "Hlk" in
  let E1 := fresh "Hkey" in
  let E2 := fresh "Hval" in
  apply lookup_insert_Some in H; destruct H as [[E1 E2]|[E1 H']];
  [simplify_eq | rename H' into H; simplify_eq].

Lemma entry_cases (call : @Call Message) :
  (∀ c, entry call ≠ RegisterSend c) ∧ (∀ c, entry call ≠ RegisterEnd c) ∧
  (∀ v, entry call ≠ Returned v).
Proof. by destruct call. Qed.

Lemma sys_inv_call σ g call :
  sys_inv σ → gos σ !! g = None →
  sys_inv (mkSystem (world σ) (run σ) (<[g := entry call]> (gos σ))).
Proof.
  intros [Hw Hs Ht Hd] Hg. destruct (entry_cases call) as (E1 & E2 & E3).
  split; simpl.
  - done.
  - intros g0 c Hk. insert_cases Hk; [by destruct (E1 c)|].
    destruct (Hs g0 c Hk) as (? & ? & ? & Huniq). split_and!; try done.
    intros g' H'. insert_cases H'; [by destruct (E1 c)|]. by apply Huniq.
  - intros c Hr. destruct (Ht c Hr) as (? & ? & Hno). split_and!; try done.
    intros g0 Hk. insert_cases Hk; [by destruct (E1 c)|]. by apply (Hno g0).
  - intros g0 c [Hk|Hk]; insert_cases Hk.
    + by destruct (E2 c).
    + apply (Hd g0 c). by left.
    + by destruct (E3 (Some c)).
    + apply (Hd g0 c). by right.
Qed.

Lemma sys_inv_alloc σ g info c ch :
  sys_inv σ → gos σ !! g = Some (RegisterAlloc info) →
  objs (world σ) !! c = None → chans (world σ) !! ch = None →
  sys_inv (mkSystem (alloc h c ch info (world σ)) (run σ)
             (<[g := RegisterSend c]> (gos σ))).
Proof.
  intros [Hw Hs Ht Hd] Hg Hc Hch.
  pose proof (reachable_wf _ Hw) as Hwf.
  assert (EvInsert c ∉ log (world σ)) as Hni.
  { intros Hin. destruct (wf_reg _ Hwf c Hin). congruence. }
  split; simpl.
  - by apply (reachable_step (world σ) (Alloc c ch info)).
  - intros g0 c0 Hk. insert_cases Hk.
    + split_and!; try done.
      * rewrite lookup_insert_eq. by eexists.
      * intros Hr. destruct (Ht c0 Hr) as ([? ?] & _). congruence.
      * intros g' H'. insert_cases H'; [done|].
        destruct (Hs g' c0 H') as ([? ?] & _). congruence.
    + destruct (Hs g0 c0 Hk) as ([hc0 ?] & ? & ? & Huniq). split_and!; try done.
      * apply lookup_insert_is_Some'. right. by eexists.
      * intros g' H'. insert_cases H'. by apply Huniq.
  - intros c0 Hr. destruct (Ht c0 Hr) as ([hc0 ?] & ? & Hno). split_and!; try done.
    + apply lookup_insert_is_Some'. right. by eexists.
    + intros g0 Hk. insert_cases Hk. by apply (Hno g0).
  - intros g0 c0 [Hk|Hk]; insert_cases Hk.
    + apply (Hd g0 c0). by left.
    + apply (Hd g0 c0). by right.
Qed.

Lemma sends_cases w pc r pc' :
  sends w pc = Some (r, pc') →
  (∃ m, pc = BroadcastSend m ∧ r = ReqBroadcast m ∧ pc' = BroadcastEnd) ∨
  (∃ c, pc = RegisterSend c ∧ r = ReqRegister c ∧ pc' = RegisterEnd c) ∨
  (∃ c, pc = UnregisterSend c ∧ r = ReqUnregister c ∧ pc' = UnregisterEnd).
Proof.
  destruct pc as [m| |info|c|c|c| |v]; simpl; intros Hs; simplify_eq.
  - left. by exists m.
  - right. left. by exists c.
  - right. right. exists c.
    destruct (objs w !! c) as [hc|]; [|done]. case_decide; by simplify_eq.
Qed.

Lemma sys_inv_accept σ g pc r pc' :
  sys_inv σ → run σ = Select → gos σ !! g = Some pc →
  sends (world σ) pc = Some (r, pc') →
  sys_inv (mkSystem (world σ) (Body r) (<[g := pc']> (gos σ))).
Proof.
  intros [Hw Hs Ht Hd] Hrun Hg Hsend.
  assert (∀ g0 c0, gos σ !! g0 = Some (RegisterEnd c0) ∨
                   gos σ !! g0 = Some (Returned (Some c0)) →
                   EvInsert c0 ∈ log (world σ)) as Hd'.
  { intros g0 c0 Hk. destruct (Hd g0 c0 Hk) as [Hr|?]; [|done]. congruence. }
  destruct (sends_cases _ _ _ _ Hsend) as
    [(m & -> & -> & ->)|[(c & -> & -> & ->)|(c & -> & -> & ->)]];
    split; simpl; try done.
  - intros g0 c0 Hk. insert_cases Hk.
    destruct (Hs g0 c0 Hk) as (? & ? & ? & Huniq). split_and!; try done.
    intros g' H'. insert_cases H'. by apply Huniq.
  - intros g0 c0 [Hk|Hk]; insert_cases Hk; right; eapply Hd'; eauto.
  - intros g0 c0 Hk. insert_cases Hk.
    destruct (Hs g0 c0 Hk) as (? & ? & ? & Huniq). split_and!; try done.
    + intros Heq. simplify_eq. by assert (g = g0) by by apply (Huniq g).
    + intros g' H'. insert_cases H'. by apply Huniq.
  - intros c0 Heq. simplify_eq.
    destruct (Hs g c0 Hg) as (? & ? & ? & Huniq). split_and!; try done.
    intros g0 Hk. insert_cases Hk. by assert (g0 = g) by by apply Huniq.
  - intros g0 c0 [Hk|Hk]; insert_cases Hk; [by left|right..]; eapply Hd'; eauto.
  - intros g0 c0 Hk. insert_cases Hk.
    destruct (Hs g0 c0 Hk) as (? & ? & ? & Huniq). split_and!; try done.
    intros g' H'. insert_cases H'. by apply Huniq.
  - intros g0 c0 [Hk|Hk]; insert_cases Hk; right; eapply Hd'; eauto.
Qed.

(** The request the loop has in hand is one it can process. *)
Lemma body_valid σ r e :
  sys_inv σ → run σ = Body r → env_ok (world σ) r e → valid (world σ) (Recv r e).
Proof.
  intros [Hw Hs Ht Hd] Hrun He. destruct r as [c|c|m]; simpl in *; try done.
  by destruct (Ht c Hrun) as (? & ? & _).
Qed.

Lemma sys_inv_body σ r e w1 :
  sys_inv σ → run σ = Body r → env_ok (world σ) r e →
  Run_iter e r (world σ) = Ok w1 →
  sys_inv (mkSystem w1 Select (gos σ)).
Proof.
  intros Hinv Hrun He Hdo.
  pose proof (body_valid σ r e Hinv Hrun He) as Hv.
  destruct Hinv as [Hw Hs Ht Hd].
  pose proof (reachable_wf _ Hw) as Hwf.
  pose proof (do_action_log (world σ) (Recv r e) w1 Hwf Hv Hdo) as Hlog.
  split; simpl; try done.
  - by apply (reachable_step (world σ) (Recv r e)).
  - intros g c Hg. destruct (Hs g c Hg) as ([hc Hobj] & Hni & Hne & Huniq).
    split_and!; try done.
    + exists hc. by apply (do_action_objs (world σ) (Recv r e)).
    + rewrite Hlog. intros [?|Hin]%elem_of_app; [done|].
      destruct r as [c'|c'|m]; simpl in Hin.
      * apply list_elem_of_singleton in Hin. congruence.
      * destruct (clients (world σ) !! c'), (objs (world σ) !! c');
          set_solver.
      * apply list_elem_of_bind in Hin as (c' & Hin & _).
        unfold pass_events in Hin.
        destruct (clients (world σ) !! c'), (objs (world σ) !! c') as [hc'|];
          try (by apply elem_of_nil in Hin).
        destruct (ready e (Messages hc')); set_solver.
  - intros g c Hg. destruct (Hd g c Hg) as [Hr|Hin]; right; rewrite Hlog.
    + rewrite Hrun in Hr. simplify_eq. simpl. apply elem_of_app. right. by left.
    + apply elem_of_app. by left.
Qed.

Lemma sys_inv_return σ g pc v :
  sys_inv σ → gos σ !! g = Some pc → returns pc = Some v →
  sys_inv (mkSystem (world σ) (run σ) (<[g := Returned v]> (gos σ))).
Proof.
  intros [Hw Hs Ht Hd] Hg Hret. split; simpl; try done.
  - intros g0 c Hk. insert_cases Hk.
    destruct (Hs g0 c Hk) as (? & ? & ? & Huniq). split_and!; try done.
    intros g' H'. insert_cases H'. by apply Huniq.
  - intros c Hr. destruct (Ht c Hr) as (? & ? & Hno). split_and!; try done.
    intros g0 Hk. insert_cases Hk. by apply (Hno g0).
  - intros g0 c [Hk|Hk]; insert_cases Hk.
    + apply (Hd g0 c). by left.
    + destruct pc; simpl in Hret; simplify_eq. apply (Hd g0 c). by left.
    + apply (Hd g0 c). by right.
Qed.

Lemma sys_step_inv σ lb σ1 : sys_inv σ → sys_step σ lb σ1 → sys_inv σ1.
Proof.
  intros Hinv Hstep. destruct Hstep.
  - by apply sys_inv_call.
  - by apply sys_inv_alloc.
  - by eapply sys_inv_accept.
  - by eapply sys_inv_body.
  - by eapply sys_inv_return.
Qed.

Lemma sys_steps_inv σ tr σ1 : sys_inv σ → sys_steps σ tr σ1 → sys_inv σ1.
Proof.
  intros Hinv Hs. induction Hs as [|σ tr σ1 l σ2 _ IH Hstep]; [done|].
  eapply sys_step_inv; [|done]. by apply IH.
Qed.

Lemma sys_reachable_inv σ : sys_reachable σ → sys_inv σ.
Proof. intros [tr Hs]. eapply sys_steps_inv; [apply sys_inv_boot|done]. Qed.

Lemma sys_steps_trans σ tr1 σ1 tr2 σ2 :
  sys_steps σ tr1 σ1 → sys_steps σ1 tr2 σ2 → sys_steps σ (tr1 ++ tr2) σ2.
Proof.
  intros H1 H2. induction H2 as [|σ1 tr2 σ2 l σ3 _ IH Hstep].
  - by rewrite app_nil_r.
  - rewrite app_assoc. econstructor; [by apply IH|done].
Qed.

Lemma sys_steps_nil_inv σ σ1 : sys_steps σ [] σ1 → σ1 = σ.
Proof.
  intros Hs. remember [] as t eqn:Heq. destruct Hs as [|σ tr σ1 l σ2 _ _]; [done|].
  by destruct tr.
Qed.

Lemma sys_steps_snoc_inv σ tr lb σ2 :
  sys_steps σ (tr ++ [lb]) σ2 → ∃ σ1, sys_steps σ tr σ1 ∧ sys_step σ1 lb σ2.
Proof.
  intros Hs. remember (tr ++ [lb]) as t eqn:Heq.
  destruct Hs as [|σ tr0 σ1 l0 σ2 Hs Hstep].
  - by destruct tr.
  - apply app_inj_tail in Heq as [-> ->]. eauto.
Qed.

Lemma sys_steps_app σ tr1 tr2 σ2 :
  sys_steps σ (tr1 ++ tr2) σ2 → ∃ σ1, sys_steps σ tr1 σ1 ∧ sys_steps σ1 tr2 σ2.
Proof.
  revert σ2. induction tr2 as [|l tr2 IH] using rev_ind; intros σ2 Hs.
  - rewrite app_nil_r in Hs. exists σ2. split; [done|constructor].
  - rewrite app_assoc in Hs. apply sys_steps_snoc_inv in Hs as (σ1 & Hs' & Hstep).
    destruct (IH _ Hs') as (σ0 & ? & ?). exists σ0. split; [done|].
    by econstructor.
Qed.

Lemma sys_steps_first σ lb tr σ2 :
  sys_steps σ (lb :: tr) σ2 → ∃ σ1, sys_step σ lb σ1 ∧ sys_steps σ1 tr σ2.
Proof.
  intros Hs. change (lb :: tr) with ([lb] ++ tr) in Hs.
  apply sys_steps_app in Hs as (σ1 & H1 & H2). exists σ1. split; [|done].
  apply (sys_steps_snoc_inv σ [] lb σ1) in H1 as (σ0 & H1 & Hstep).
  apply sys_steps_nil_inv in H1. by subst.
Qed.

(** Once a client was registered, it is active or it was deleted. *)
Lemma removed_is_logged w c :
  reachable w → EvInsert c ∈ log w → active w c ∨ EvDelete c ∈ log w.
Proof.
  intros [acts Hs]. revert w Hs.
  induction acts as [|a acts IH] using rev_ind; intros w Hs Hin.
  - inversion Hs; subst. by apply elem_of_nil in Hin.
  - apply steps_snoc in Hs as (w0 & Hs & Hv & Hdo).
    pose proof (steps_wf _ _ _ wf_NewHub Hs) as Hwf.
    rewrite (do_action_log w0 a w Hwf Hv Hdo) in *.
    assert (active w0 c → active w c ∨ EvDelete c ∈ action_events w0 a) as Hkeep.
    { intros [b Hc]. destruct (wf_active w0 Hwf c) as (hc & Hobj & _); [by eexists|].
      unfold active. destruct a as [c' ch info|[c'|c'|m] e]; simpl in *.
      - injection Hdo as <-. left. by eexists.
      - injection Hdo as <-. left. simpl. apply lookup_insert_is_Some'. right. by eexists.
      - destruct (decide (c' = c)) as [->|Hne].
        + right. rewrite Hc, Hobj. by left.
        + left. destruct (clients w0 !! c') as [b'|] eqn:Hc'.
          * destruct (wf_active w0 Hwf c') as (hc' & Hobj' & _); [by eexists|].
            rewrite (Run_unregister_total c' w0 b' hc') in Hdo by done.
            injection Hdo as <-. simpl. rewrite lookup_delete_ne by done. by eexists.
          * rewrite Run_unregister_absent in Hdo by done. injection Hdo as <-.
            by eexists.
      - rewrite fanout_total in Hdo by done. injection Hdo as <-.
        destruct (ready e (Messages hc)) eqn:Hr.
        + left. rewrite (pass_clients_ready _ _ _ w0 c hc) by done. by eexists.
        + right. apply list_elem_of_bind. exists c. split.
          * unfold pass_events. rewrite Hc, Hobj, Hr. set_solver.
          * destruct Hv as [_ Hkeys]. apply Hkeys. by eexists. }
    apply elem_of_app in Hin as [Hin|Hin].
    + destruct (IH w0 Hs Hin) as [Hact|Hdel].
      * destruct (Hkeep Hact) as [?|?]; [by left|right]. apply elem_of_app. by right.
      * right. apply elem_of_app. by left.
    + left. destruct a as [c' ch info|[c'|c'|m] e]; simpl in *.
      * by apply elem_of_nil in Hin.
      * apply list_elem_of_singleton in Hin. simplify_eq. simpl.
        unfold active. simpl. rewrite lookup_insert_eq. by eexists.
      * destruct (clients w0 !! c'), (objs w0 !! c'); set_solver.
      * apply list_elem_of_bind in Hin as (c' & Hin & _). unfold pass_events in Hin.
        destruct (clients w0 !! c'), (objs w0 !! c') as [hc'|];
          try (by apply elem_of_nil in Hin).
        destruct (ready e (Messages hc')); set_solver.
Qed.

(** The calls that have begun, and what became of a [Broadcast]. *)
Lemma sys_trace_calls tr σ :
  sys_steps boot tr σ →
  (∀ g call, LCall g call ∈ tr → is_Some (gos σ !! g)) ∧
  (∀ g m, LCall g (CallBroadcast m) ∈ tr →
     gos σ !! g = Some (BroadcastSend m) ∨ LAccept g (ReqBroadcast m) ∈ tr).
Proof.
  intros Hs. remember boot as σ0 eqn:Hboot.
  induction Hs as [|σ0 tr σ1 l σ2 _ IH Hstep]; subst.
  - split; intros *; by intros ?%elem_of_nil.
  - destruct (IH eq_refl) as [K1 K2]. clear IH. split.
    + intros g call [Hin|Hin]%elem_of_app.
      * specialize (K1 g call Hin).
        destruct Hstep; simpl; try done; apply lookup_insert_is_Some'; by right.
      * apply list_elem_of_singleton in Hin. subst l.
        inversion Hstep; subst. simpl. rewrite lookup_insert_eq. by eexists.
    + intros g m [Hin|Hin]%elem_of_app.
      * destruct (K2 g m Hin) as [Hpc|Hacc]; [|right; apply elem_of_app; by left].
        pose proof (K1 _ _ Hin) as Hsome.
        destruct Hstep as [σ1 g' call Hg' _|σ1 g' info c ch Hg' _ _
                          |σ1 g' pc r pc' _ Hg' Hsend|σ1 r e w1 _ _ _
                          |σ1 g' pc v Hg' Hret]; simpl.
        -- left. rewrite lookup_insert_ne; [done|]. intros ->.
           rewrite Hg' in Hsome. by destruct Hsome.
        -- left. rewrite lookup_insert_ne; [done|]. intros ->. congruence.
        -- destruct (decide (g' = g)) as [->|Hne].
           ++ right. assert (pc = BroadcastSend m) as -> by congruence.
              simpl in Hsend. simplify_eq. apply elem_of_app. right. by left.
           ++ left. by rewrite lookup_insert_ne.
        -- by left.
        -- left. rewrite lookup_insert_ne; [done|]. intros ->.
           assert (pc = BroadcastSend m) as -> by congruence. done.
      * apply list_elem_of_singleton in Hin. subst l.
        inversion Hstep; subst. simpl. left. by rewrite lookup_insert_eq.
Qed.

(** ** The claims about callers and loop *)

(** C5. Once [Register] has returned client [c] to its caller, every
    broadcast the loop accepts from then on (so every broadcast submitted
    from then on) finds the registration of [c] processed.  In the
    fan-out of such a broadcast the loop makes one send attempt on the queue
    of [c], unless [c] has been deleted from the active set in between (by
    an eviction or an unregistration), in which case its queue is closed. *)
Theorem register_visible_to_later_broadcasts σ g c tr σ1 g' m σ2 e σ3 :
  sys_reachable σ →
  gos σ !! g = Some (Returned (Some c)) →
  sys_steps σ tr σ1 →
  sys_step σ1 (LAccept g' (ReqBroadcast m)) σ2 →
  sys_step σ2 (LBody (ReqBroadcast m) e) σ3 →
  EvInsert c ∈ log (world σ1) ∧
  ∃ hc, objs (world σ2) !! c = Some hc ∧
    ((active (world σ2) c ∧
      ∃ evs, log (world σ3) = log (world σ2) ++ evs ∧
             attempts (Messages hc) evs = [ready e (Messages hc)]) ∨
     (¬ active (world σ2) c ∧ EvDelete c ∈ log (world σ2) ∧
      is_closed (world σ2) (Messages hc))).
Proof.
  intros Hreach Hg Htr Hacc Hbody.
  pose proof (sys_reachable_inv σ Hreach) as Hinv.
  pose proof (sys_steps_inv σ tr σ1 Hinv Htr) as Hinv1.
  assert (gos σ1 !! g = Some (Returned (Some c))) as Hg1.
  { clear Hacc Hbody Hinv1. induction Htr as [|σ tr σ1 l σ2' _ IH Hstep]; [done|].
    specialize (IH Hreach Hg Hinv).
    destruct Hstep as [σ1 g0 call Hg0 _|σ1 g0 info c0 ch Hg0 _ _
                      |σ1 g0 pc r pc' _ Hg0 Hsend|σ1 r e0 w1 _ _ _
                      |σ1 g0 pc v Hg0 Hret]; simpl; try done;
      rewrite lookup_insert_ne; try done; intros ->; simplify_eq. }
  inversion Hacc as [| |? ? pc ? pc' Hrun Hgpc Hsend| |]; subst.
  inversion Hbody as [| | |? ? ? w3 Hrun2 Henv Hdo|]; subst. simpl in *.
  assert (EvInsert c ∈ log (world σ1)) as Hin.
  { destruct (inv_sent σ1 Hinv1 g c) as [Hr|?]; [by right|congruence|done]. }
  split; [done|].
  pose proof (reachable_wf _ (inv_world σ1 Hinv1)) as Hwf.
  destruct (wf_reg _ Hwf c Hin) as [hc Hobj]. exists hc. split; [done|].
  destruct (removed_is_logged _ c (inv_world σ1 Hinv1) Hin) as [[b Hc]|Hdel].
  - left. split; [by eexists|].
    destruct (broadcast_pass e m (world σ1) Hwf Henv) as [Hrun' Hlog].
    simpl in Hrun'. rewrite Hrun' in Hdo. injection Hdo as <-.
    eexists. split; [exact Hlog|].
    by destruct (broadcast_subscriber e m (world σ1) c hc b Hwf Henv Hc Hobj) as (-> & _).
  - destruct (registered_active_or_closed _ c hc Hwf Hobj Hin) as [[[b Hc] _]|[Hna Hcl]].
    + left. split; [by eexists|].
      destruct (broadcast_pass e m (world σ1) Hwf Henv) as [Hrun' Hlog].
      simpl in Hrun'. rewrite Hrun' in Hdo. injection Hdo as <-.
      eexists. split; [exact Hlog|].
      by destruct (broadcast_subscriber e m (world σ1) c hc b Hwf Henv Hc Hobj) as (-> & _).
    + right. by split_and!.
Qed.

(** C6. A goroutine in [Broadcast] stays at its send until the loop,
    standing at [select], takes the message: no other step moves it, and in
    every run the return of a [Broadcast] call comes after the loop has
    accepted its message.  Acceptance changes nothing in the hub's memory;
    right after it the call can return, while the loop has the whole fan-out
    still before it: no send on any subscriber's queue has been tried. *)
Theorem broadcast_returns_after_acceptance :
  (∀ σ g m lb σ1,
     gos σ !! g = Some (BroadcastSend m) → sys_step σ lb σ1 →
     gos σ1 !! g ≠ Some (BroadcastSend m) →
     lb = LAccept g (ReqBroadcast m) ∧ run σ = Select ∧
     run σ1 = Body (ReqBroadcast m) ∧ world σ1 = world σ) ∧
  (∀ tr σ g m tr1 v tr2,
     sys_steps boot tr σ → tr = tr1 ++ LReturn g v :: tr2 →
     LCall g (CallBroadcast m) ∈ tr1 →
     LAccept g (ReqBroadcast m) ∈ tr1) ∧
  (∀ σ g m σ1,
     sys_step σ (LAccept g (ReqBroadcast m)) σ1 →
     ∃ σ2, sys_step σ1 (LReturn g None) σ2 ∧
           run σ2 = Body (ReqBroadcast m) ∧ world σ2 = world σ ∧
           log (world σ2) = log (world σ)).
Proof.
  split_and!.
  - intros σ g m lb σ1 Hg Hstep Hne.
    destruct Hstep as [σ g0 call Hg0 _|σ g0 info c0 ch Hg0 _ _
                      |σ g0 pc r pc' Hrun Hg0 Hsend|σ r e0 w1 _ _ _
                      |σ g0 pc v Hg0 Hret]; simpl in *.
    + destruct Hne. rewrite lookup_insert_ne; [done|]. intros ->. congruence.
    + destruct Hne. rewrite lookup_insert_ne; [done|]. intros ->. congruence.
    + destruct (decide (g0 = g)) as [->|Hng].
      * assert (pc = BroadcastSend m) as -> by congruence.
        simpl in Hsend. by simplify_eq.
      * destruct Hne. by rewrite lookup_insert_ne.
    + by destruct Hne.
    + destruct Hne. rewrite lookup_insert_ne; [done|]. intros ->.
      assert (pc = BroadcastSend m) as -> by congruence. done.
  - intros tr σ g m tr1 v tr2 Hs -> Hcall.
    apply sys_steps_app in Hs as (σ1 & Hs1 & Hs2).
    apply sys_steps_first in Hs2 as (σ1' & Hstep & _).
    destruct (sys_trace_calls tr1 σ1 Hs1) as [_ K2].
    destruct (K2 g m Hcall) as [Hpc|?]; [|done].
    inversion Hstep as [| | | |? ? pc ? Hg Hret]; subst.
    assert (pc = BroadcastSend m) as -> by congruence. done.
  - intros σ g m σ1 Hacc.
    inversion Hacc as [| |? ? pc ? pc' Hrun Hg Hsend| |]; subst.
    destruct (sends_cases _ _ _ _ Hsend)
      as [(m' & -> & ? & ->)|[(c & -> & ? & ->)|(c & -> & ? & ->)]]; simplify_eq.
    eexists. split.
    + eapply (step_return _ g BroadcastEnd None); simpl; [|done].
      by rewrite lookup_insert_eq.
    + done.
Qed.

(** C9. [Register(info)] allocates a client struct and a channel that
    nobody has used: the struct carries the label and the hub, the queue
    is open, nothing was ever sent on it, and the client is not active.  The
    goroutine then stands at the send of that client on [h.register]; the one
    step that moves it on is the loop's receive of this registration request.
    After that step the call can return the client at once, while the loop has
    not processed the registration yet: the client is not in the active set
    and no insertion of it is in the history. *)
Theorem register_returns_before_processing :
  (∀ σ g info lb σ1,
     sys_reachable σ → gos σ !! g = Some (RegisterAlloc info) →
     sys_step σ lb σ1 → gos σ1 !! g ≠ Some (RegisterAlloc info) →
     ∃ c ch, lb = LAlloc g c ch ∧
       objs (world σ) !! c = None ∧ chans (world σ) !! ch = None ∧
       objs (world σ1) !! c = Some (mkHubClient ch info h) ∧
       is_open (world σ1) ch ∧ attempts ch (log (world σ1)) = [] ∧
       ¬ active (world σ1) c ∧
       gos σ1 !! g = Some (RegisterSend c)) ∧
  (∀ σ g c lb σ1,
     gos σ !! g = Some (RegisterSend c) → sys_step σ lb σ1 →
     gos σ1 !! g ≠ Some (RegisterSend c) →
     lb = LAccept g (ReqRegister c) ∧ run σ = Select ∧
     run σ1 = Body (ReqRegister c) ∧ gos σ1 !! g = Some (RegisterEnd c)) ∧
  (∀ σ g c σ1,
     sys_reachable σ → sys_step σ (LAccept g (ReqRegister c)) σ1 →
     ∃ σ2, sys_step σ1 (LReturn g (Some c)) σ2 ∧
           gos σ2 !! g = Some (Returned (Some c)) ∧
           run σ2 = Body (ReqRegister c) ∧
           ¬ active (world σ2) c ∧ EvInsert c ∉ log (world σ2)).
Proof.
  split_and!.
  - intros σ g info lb σ1 Hreach Hg Hstep Hne.
    pose proof (reachable_wf _ (inv_world σ (sys_reachable_inv σ Hreach))) as Hwf.
    destruct Hstep as [σ g0 call Hg0 _|σ g0 info0 c0 ch Hg0 Hc0 Hch
                      |σ g0 pc r pc' Hrun Hg0 Hsend|σ r e0 w1 _ _ _
                      |σ g0 pc v Hg0 Hret]; simpl in *.
    + destruct Hne. rewrite lookup_insert_ne; [done|]. intros ->. congruence.
    + destruct (decide (g0 = g)) as [->|Hng].
      * assert (info0 = info) as -> by congruence.
        exists c0, ch. unfold is_open, active. simpl.
        rewrite !lookup_insert_eq. split_and!; try done.
        -- by apply (wf_unalloc _ Hwf).
        -- intros Hact. destruct (wf_active _ Hwf c0 Hact) as (? & ? & _). congruence.
      * destruct Hne. by rewrite lookup_insert_ne.
    + destruct (decide (g0 = g)) as [->|Hng].
      * assert (pc = RegisterAlloc info) as -> by congruence. done.
      * destruct Hne. by rewrite lookup_insert_ne.
    + by destruct Hne.
    + destruct Hne. rewrite lookup_insert_ne; [done|]. intros ->.
      assert (pc = RegisterAlloc info) as -> by congruence. done.
  - intros σ g c lb σ1 Hg Hstep Hne.
    destruct Hstep as [σ g0 call Hg0 _|σ g0 info0 c0 ch Hg0 Hc0 Hch
                      |σ g0 pc r pc' Hrun Hg0 Hsend|σ r e0 w1 _ _ _
                      |σ g0 pc v Hg0 Hret]; simpl in *.
    + destruct Hne. rewrite lookup_insert_ne; [done|]. intros ->. congruence.
    + destruct Hne. rewrite lookup_insert_ne; [done|]. intros ->. congruence.
    + destruct (decide (g0 = g)) as [->|Hng].
      * assert (pc = RegisterSend c) as -> by congruence.
        simpl in Hsend. simplify_eq. by rewrite lookup_insert_eq.
      * destruct Hne. by rewrite lookup_insert_ne.
    + by destruct Hne.
    + destruct Hne. rewrite lookup_insert_ne; [done|]. intros ->.
      assert (pc = RegisterSend c) as -> by congruence. done.
  - intros σ g c σ1 Hreach Hacc.
    pose proof (sys_reachable_inv σ Hreach) as Hinv.
    pose proof (reachable_wf _ (inv_world σ Hinv)) as Hwf.
    inversion Hacc as [| |? ? pc ? pc' Hrun Hg Hsend| |]; subst.
    destruct (sends_cases _ _ _ _ Hsend)
      as [(m' & -> & ? & ->)|[(c' & -> & ? & ->)|(c' & -> & ? & ->)]]; simplify_eq.
    destruct (inv_sending σ Hinv g c' Hg) as (_ & Hni & _).
    set (σ1 := mkSystem (world σ) (Body (ReqRegister c')) (<[g:=RegisterEnd c']> (gos σ))).
    exists (mkSystem (world σ1) (run σ1) (<[g := Returned (Some c')]> (gos σ1))).
    split; [|simpl; split_and!; try done].
    + apply (step_return σ1 g (RegisterEnd c') (Some c')); simpl; [|done].
      by rewrite lookup_insert_eq.
    + by rewrite lookup_insert_eq.
    + intros Hact. by destruct (wf_active _ Hwf c' Hact) as (? & _ & _ & ?).
Qed.

(** Every key order that [range] can produce exists: the map's own list of
    keys is one. *)
Lemma range_ok_keys_of w : range_ok w (keys_of w).
Proof.
  unfold range_ok, keys_of. split.
  - apply NoDup_fst_map_to_list.
  - intros c. rewrite list_elem_of_fmap. split.
    + intros ([c' b] & -> & Hin). apply elem_of_map_to_list in Hin. by eexists.
    + intros [b Hc]. exists (c, b). split; [done|]. by apply elem_of_map_to_list.
Qed.

(** The memory of the running program is one the loop can reach, and the
    body of the case the loop has selected ends without panic. *)
Lemma loop_never_panics σ r e :
  sys_reachable σ →
  reachable (world σ) ∧
  (run σ = Body r → env_ok (world σ) r e →
   ∃ w1, Run_iter e r (world σ) = Ok w1 ∧
         sys_step σ (LBody r e) (mkSystem w1 Select (gos σ))).
Proof.
  intros Hinv%sys_reachable_inv. split; [apply (inv_world σ Hinv)|].
  intros Hrun Henv.
  pose proof (body_valid σ r e Hinv Hrun Henv) as Hv.
  destruct (do_action_ok (world σ) (Recv r e)) as (w1 & Hdo & _);
    [apply reachable_wf, (inv_world σ Hinv)|done|].
  exists w1. split; [done|]. by constructor.
Qed.

(** C10. In every state the hub can reach, every active client has a
    queue that is open and was never closed; no action of the program makes
    the loop panic, so no send on a closed queue and no second close happens;
    a queue goes from open to closed only in an iteration that also takes its
    client out of the active set; and in the history every queue is closed
    at most once, with no send attempt after its close.  This covers the
    program as it runs: whatever the goroutines calling [Broadcast],
    [Register] and [Unregister] do, the hub's memory is such a state, and
    the case body the loop has selected runs to its end. *)
Theorem no_panic_reachable :
  (∀ w, reachable w →
     (∀ c, active w c →
        ∃ hc, objs w !! c = Some hc ∧ is_open w (Messages hc) ∧
              closes (Messages hc) (log w) = 0) ∧
     (∀ a, valid w a → ∃ w1, do_action a w = Ok w1) ∧
     (∀ a w1 c hc, valid w a → do_action a w = Ok w1 →
        objs w !! c = Some hc →
        is_open w (Messages hc) → is_closed w1 (Messages hc) →
        active w c ∧ ¬ active w1 c) ∧
     (∀ ch, closes ch (log w) ≤ 1 ∧ sends_before_close ch (log w))) ∧
  (∀ σ r e, sys_reachable σ →
     reachable (world σ) ∧
     (run σ = Body r → env_ok (world σ) r e →
      ∃ w1, Run_iter e r (world σ) = Ok w1 ∧
            sys_step σ (LBody r e) (mkSystem w1 Select (gos σ)))).
Proof.
  split.
  - intros w Hw. by apply hub_never_panics.
  - intros σ r e Hσ. by apply loop_never_panics.
Qed.

(** ** More about the loop of [Hub.Run] *)

(** *** The order of [range h.clients] *)

Lemma constant_lists_eq {B} (x : B) (l1 l2 : list B) :
  Forall (eq x) l1 → Forall (eq x) l2 → length l1 = length l2 → l1 = l2.
Proof.
  intros H1. revert l2.
  induction H1 as [|y l1 <- _ IH]; intros [|z l2] H2 Hlen; try done.
  inversion H2; subst. f_equal. apply IH; [done|]. by injection Hlen.
Qed.

(** Whatever a fan-out of [m] hands to a queue is [m]. *)
Lemma pass_received_all rdy m w keys ch :
  Forall (eq m) (received ch (keys ≫= pass_events rdy m w)).
Proof.
  induction keys as [|c keys IH]; [constructor|].
  rewrite bind_cons, received_app. apply Forall_app. split; [|done].
  unfold pass_events. destruct (clients w !! c), (objs w !! c) as [hc|]; try constructor.
  destruct (rdy (Messages hc)); simpl; repeat case_decide; repeat constructor.
Qed.

(** The outcome of every attempt on [ch] is what the reader of [ch] does. *)
Lemma pass_attempts_all rdy m w keys ch :
  Forall (eq (rdy ch)) (attempts ch (keys ≫= pass_events rdy m w)).
Proof.
  induction keys as [|c keys IH]; [constructor|].
  rewrite bind_cons, attempts_app. apply Forall_app. split; [|done].
  unfold pass_events. destruct (clients w !! c), (objs w !! c) as [hc|]; try constructor.
  destruct (rdy (Messages hc)) eqn:Hr; simpl; case_decide; subst;
    rewrite ?Hr; repeat constructor.
Qed.

(** X1. Go leaves the order of [range h.clients] open; the fan-out of a
    broadcast does not depend on it.  From a reachable state, and with the
    same readers waiting, any two orders in which [range] may produce the
    keys end without panic in the same [clients] map, the same structs and
    the same channel states; the two histories are permutations of each
    other, and on every channel they show the same messages received, the
    same attempts and the same number of closes. *)
Theorem fanout_order_irrelevant rdy keys1 keys2 m w :
  reachable w → range_ok w keys1 → range_ok w keys2 →
  ∃ w1 w2,
    Run_iter (mkEnv rdy keys1) (ReqBroadcast m) w = Ok w1 ∧
    Run_iter (mkEnv rdy keys2) (ReqBroadcast m) w = Ok w2 ∧
    clients w1 = clients w2 ∧ objs w1 = objs w2 ∧ chans w1 = chans w2 ∧
    log w1 ≡ₚ log w2 ∧
    ∀ ch, received ch (log w1) = received ch (log w2) ∧
          attempts ch (log w1) = attempts ch (log w2) ∧
          closes ch (log w1) = closes ch (log w2).
Proof.
  intros Hr [Hnd1 Hk1] [Hnd2 Hk2]. pose proof (reachable_wf _ Hr) as Hwf.
  exists (pass rdy m keys1 w), (pass rdy m keys2 w).
  assert (keys1 ≡ₚ keys2) as Hperm.
  { apply NoDup_Permutation; [done..|]. intros c. by rewrite Hk1, Hk2. }
  assert (keys1 ≫= pass_events rdy m w ≡ₚ keys2 ≫= pass_events rdy m w) as Hevs
    by (by rewrite Hperm).
  assert (∀ ch, closes ch (keys1 ≫= pass_events rdy m w) =
                closes ch (keys2 ≫= pass_events rdy m w)) as Hcl.
  { intros ch. unfold closes. by rewrite Hevs. }
  split_and!.
  - simpl. by apply fanout_total.
  - simpl. by apply fanout_total.
  - apply map_eq. intros c. destruct (clients w !! c) as [b|] eqn:Hc.
    + destruct (wf_active w Hwf c) as (hc & Hobj & _); [by eexists|].
      destruct (broadcast_subscriber (mkEnv rdy keys1) m w c hc b)
        as (_ & _ & _ & E1 & _); [done|done|done|done|].
      destruct (broadcast_subscriber (mkEnv rdy keys2) m w c hc b)
        as (_ & _ & _ & E2 & _); [done|done|done|done|].
      simpl in E1, E2. by rewrite E1, E2.
    + by rewrite !pass_clients_sub.
  - by rewrite !pass_objs.
  - apply map_eq. intros ch.
    pose proof (wf_pass rdy m keys1 w Hwf) as Hwf1.
    pose proof (wf_pass rdy m keys2 w Hwf) as Hwf2.
    pose proof (wf_closes _ Hwf1 ch) as E1. pose proof (wf_closes _ Hwf2 ch) as E2.
    rewrite pass_log, closes_app in E1, E2 by done. rewrite Hcl in E1.
    pose proof (pass_chans_dom rdy m keys1 w ch Hwf) as D1.
    pose proof (pass_chans_dom rdy m keys2 w ch Hwf) as D2.
    destruct (chans (pass rdy m keys1 w) !! ch) as [[[]]|],
             (chans (pass rdy m keys2 w) !! ch) as [[[]]|];
      try done; try lia.
    all: exfalso; destruct D1 as [D1 D1'], D2 as [D2 D2'];
      first [ by destruct D2' as [? ?]; [apply D1; eexists|]
            | by destruct D1' as [? ?]; [apply D2; eexists|] ].
  - rewrite !pass_log by done. by rewrite Hevs.
  - intros ch. rewrite !pass_log by done.
    rewrite !received_app, !attempts_app, !closes_app. split_and!; f_equal.
    + apply (constant_lists_eq m); [apply pass_received_all..|].
      unfold received. by rewrite Hevs.
    + apply (constant_lists_eq (rdy ch)); [apply pass_attempts_all..|].
      unfold attempts. by rewrite Hevs.
    + apply Hcl.
Qed.

(** *** A closed queue *)

Lemma step_attempts w a w1 c hc :
  wf w → valid w a → do_action a w = Ok w1 → objs w !! c = Some hc →
  attempts (Messages hc) (log w1) = attempts (Messages hc) (log w) ++ tries w c hc a.
Proof.
  intros Hwf Hv Hdo Hobj.
  rewrite (do_action_log w a w1 Hwf Hv Hdo), attempts_app. f_equal.
  destruct a as [c' ch info|[c'|c'|m] e]; simpl; try done.
  - destruct (clients w !! c'), (objs w !! c'); done.
  - destruct Hv as [Hnd Hkeys].
    rewrite (pass_attempts _ _ _ w c hc) by done.
    destruct (clients w !! c) as [b|] eqn:Hc; [|by case_decide].
    rewrite decide_True; [done|]. apply Hkeys. by eexists.
Qed.

(** X2. A closed delivery queue is final.  Once the queue of a client is
    closed (by an eviction or by an unregistration), in every later state of
    the hub it is still closed and its client is still out of the active
    set; the loop makes no further send attempt on it, its reader has
    received all it ever will, and it has been closed exactly once. *)
Theorem closed_queue_is_final w acts w1 c hc :
  reachable w → steps w acts w1 → objs w !! c = Some hc →
  is_closed w (Messages hc) →
  is_closed w1 (Messages hc) ∧ ¬ active w1 c ∧
  attempts (Messages hc) (log w1) = attempts (Messages hc) (log w) ∧
  received (Messages hc) (log w1) = received (Messages hc) (log w) ∧
  closes (Messages hc) (log w1) = 1.
Proof.
  intros Hr Hs Hobj Hcl. pose proof (reachable_wf _ Hr) as Hwf. clear Hr.
  pose proof (steps_closed w acts w1 c hc Hwf Hs Hobj Hcl) as [Hcl1 Hna1].
  split_and!; [done|done| | |].
  - induction Hs as [|w a w' acts w1 Hv Hdo Hs IH]; [done|].
    destruct (do_action_ok w a Hwf Hv) as (w'' & Hdo' & Hwf').
    assert (w'' = w') as -> by congruence.
    destruct (steps_closed w [a] w' c hc Hwf) as [Hcl' _];
      [by apply steps_one|done|done|].
    rewrite IH; [|by apply (do_action_objs w a w' c hc)|done..].
    rewrite (step_attempts w a w' c hc) by done.
    destruct (steps_closed w [] w c hc Hwf) as [_ Hna]; [constructor|done|done|].
    apply not_active_lookup in Hna. unfold tries.
    destruct a as [|[]]; rewrite ?Hna, ?app_nil_r; done.
  - induction Hs as [|w a w' acts w1 Hv Hdo Hs IH]; [done|].
    destruct (do_action_ok w a Hwf Hv) as (w'' & Hdo' & Hwf').
    assert (w'' = w') as -> by congruence.
    destruct (steps_closed w [a] w' c hc Hwf) as [Hcl' _];
      [by apply steps_one|done|done|].
    rewrite IH; [|by apply (do_action_objs w a w' c hc)|done..].
    rewrite (step_received w a w' c hc) by done.
    destruct (steps_closed w [] w c hc Hwf) as [_ Hna]; [constructor|done|done|].
    apply not_active_lookup in Hna. unfold gets.
    destruct a as [|[]]; rewrite ?Hna, ?app_nil_r; done.
  - pose proof (steps_wf w acts w1 Hwf Hs) as Hwf1.
    apply closed_iff_closes; [done| |done]. by rewrite Hcl1.
Qed.

(** *** The bookkeeping of the [clients] map *)

Lemma inserts_app c l1 l2 : inserts c (l1 ++ l2) = inserts c l1 + inserts c l2.
Proof. unfold inserts. by rewrite omap_app, length_app. Qed.

Lemma deletes_app c l1 l2 : deletes c (l1 ++ l2) = deletes c l1 + deletes c l2.
Proof. unfold deletes. by rewrite omap_app, length_app. Qed.

Lemma inserts_pos c l : 0 < inserts c l ↔ EvInsert c ∈ l.
Proof.
  unfold inserts. induction l as [|ev l IH]; simpl.
  - split; [lia|by intros ?%elem_of_nil].
  - rewrite elem_of_cons, <- IH.
    destruct ev as [c'| | |]; simpl; try (split; [by right|by intros [?|?]]).
    case_decide as Hc; simpl.
    + subst. split; [by left|lia].
    + split; [by right|]. intros [?|?]; [congruence|done].
Qed.

Lemma inserts_zero c l : inserts c l = 0 ↔ EvInsert c ∉ l.
Proof. rewrite <- inserts_pos. lia. Qed.

Lemma pass_inserts rdy m keys w c : inserts c (keys ≫= pass_events rdy m w) = 0.
Proof.
  apply inserts_zero. intros (c' & Hin & _)%list_elem_of_bind.
  unfold pass_events in Hin.
  destruct (clients w !! c'), (objs w !! c') as [hc|];
    try (by apply elem_of_nil in Hin).
  destruct (rdy (Messages hc)); set_solver.
Qed.

Lemma pass_deletes rdy m keys w c :
  NoDup keys →
  deletes c (keys ≫= pass_events rdy m w) =
    if decide (c ∈ keys) then
      match clients w !! c, objs w !! c with
      | Some _, Some hc => if rdy (Messages hc) then 0 else 1
      | _, _ => 0
      end
    else 0.
Proof.
  intros Hnd. unfold deletes. rewrite (omap_bind_single _ _ keys c Hnd).
  - case_decide; [|done]. unfold pass_events.
    destruct (clients w !! c), (objs w !! c) as [hc|]; try done.
    destruct (rdy (Messages hc)); simpl; [done|]. by rewrite decide_True.
  - intros c' Hne. unfold pass_events.
    destruct (clients w !! c'), (objs w !! c') as [hc'|]; try done.
    destruct (rdy (Messages hc')); simpl; [done|]. by rewrite decide_False.
Qed.

(** Insertions and deletions of one client, along the runs of the loop. *)
Lemma clients_accounting w c :
  reachable w →
  inserts c (log w) ≤ 1 ∧ deletes c (log w) ≤ inserts c (log w) ∧
  (active w c ↔ inserts c (log w) = 1 ∧ deletes c (log w) = 0).
Proof.
  intros [acts Hs]. revert w Hs.
  induction acts as [|a acts IH] using rev_ind; intros w Hs.
  - inversion Hs; subst. unfold active, inserts, deletes. simpl.
    rewrite lookup_empty. split_and!; [lia|lia|].
    split; [by intros ?%is_Some_None|lia].
  - apply steps_snoc in Hs as (w0 & Hs & Hv & Hdo).
    pose proof (steps_wf _ _ _ wf_NewHub Hs) as Hwf.
    destruct (IH w0 Hs) as (I1 & I2 & I3). clear IH.
    rewrite (do_action_log w0 a w Hwf Hv Hdo), inserts_app, deletes_app.
    unfold active in *.
    destruct a as [c' ch info|[c'|c'|m] e]; simpl in *.
    + injection Hdo as <-. simpl. unfold inserts at 2 4 6, deletes at 2 4. simpl.
      rewrite !Nat.add_0_r. done.
    + injection Hdo as <-. simpl. destruct Hv as [_ Hni].
      unfold inserts at 2 4 6, deletes at 2 4. simpl.
      destruct (decide (c' = c)) as [->|Hne]; simpl.
      * apply inserts_zero in Hni. rewrite lookup_insert_eq.
        split_and!; [lia|lia|]. split; [lia|by eexists].
      * rewrite lookup_insert_ne by done. rewrite !Nat.add_0_r. done.
    + destruct (clients w0 !! c') as [b'|] eqn:Hc'.
      * destruct (wf_active w0 Hwf c') as (hc' & Hobj' & _); [by eexists|].
        rewrite (Run_unregister_total c' w0 b' hc') in Hdo by done.
        injection Hdo as <-. rewrite Hobj'. simpl.
        unfold inserts at 2 4 6, deletes at 2 4. simpl.
        destruct (decide (c' = c)) as [->|Hne]; simpl.
        -- rewrite lookup_delete_eq.
           destruct I3 as [I3 _]. destruct I3 as [I3 I3']; [by eexists|].
           split_and!; [lia|lia|]. split; [by intros ?%is_Some_None|lia].
        -- rewrite lookup_delete_ne by done. rewrite !Nat.add_0_r. done.
      * rewrite Run_unregister_absent in Hdo by done. injection Hdo as <-.
        unfold inserts at 2 4 6, deletes at 2 4. simpl.
        rewrite !Nat.add_0_r. done.
    + rewrite fanout_total in Hdo by done. injection Hdo as <-.
      destruct Hv as [Hnd Hkeys].
      rewrite pass_inserts, pass_deletes by done. rewrite !Nat.add_0_r.
      destruct (clients w0 !! c) as [b|] eqn:Hc.
      * destruct (wf_active w0 Hwf c) as (hc & Hobj & _); [by eexists|].
        rewrite decide_True by (apply Hkeys; by eexists). rewrite Hobj.
        destruct (broadcast_subscriber e m w0 c hc b) as (_ & _ & _ & E & _);
          [done|done|done|done|]. simpl in E. rewrite E.
        destruct I3 as [I3 _]. destruct I3 as [I3 I3']; [by eexists|].
        destruct (ready e (Messages hc)).
        -- split_and!; [lia|lia|]. split; [lia|by eexists].
        -- split_and!; [lia|lia|]. split; [by intros ?%is_Some_None|lia].
      * rewrite pass_clients_sub by done.
        assert ((if decide (c ∈ order e) then 0 else 0) = 0) as -> by (by case_decide).
        rewrite !Nat.add_0_r. done.
Qed.

(** X3. The accounting of the [clients] map.  In every state of the running
    program the loop has inserted a client at most once and deleted it at
    most as often as it inserted it; the client is in the active set
    exactly when it was inserted and not deleted; and its queue was closed
    as often as the client was deleted, so the queue is closed exactly when
    the client was deleted: no deletion leaves an open queue behind, and no
    queue is closed under a client that is still in the map. *)
Theorem clients_map_accounting σ c :
  sys_reachable σ →
  inserts c (log (world σ)) ≤ 1 ∧
  deletes c (log (world σ)) ≤ inserts c (log (world σ)) ∧
  (active (world σ) c ↔
     inserts c (log (world σ)) = 1 ∧ deletes c (log (world σ)) = 0) ∧
  (∀ hc, objs (world σ) !! c = Some hc →
     closes (Messages hc) (log (world σ)) = deletes c (log (world σ)) ∧
     (is_closed (world σ) (Messages hc) ↔ deletes c (log (world σ)) = 1)).
Proof.
  intros Hinv%sys_reachable_inv. pose proof (inv_world σ Hinv) as Hr.
  pose proof (reachable_wf _ Hr) as Hwf.
  destruct (clients_accounting (world σ) c Hr) as (I1 & I2 & I3).
  split_and!; [done..|]. intros hc Hobj.
  assert (is_closed (world σ) (Messages hc) ↔ deletes c (log (world σ)) = 1) as Hiff.
  { split.
    - intros Hcl.
      assert (¬ active (world σ) c) as Hna.
      { intros Hact. destruct (wf_active _ Hwf c Hact) as (hc' & ? & Hop & _).
        assert (hc' = hc) as -> by congruence.
        unfold is_open, is_closed in *. congruence. }
      assert (0 < inserts c (log (world σ))) as Hpos.
      { destruct (inserts c (log (world σ))) eqn:Hz; [|lia].
        apply inserts_zero in Hz. pose proof (wf_fresh _ Hwf c hc Hobj Hz) as Hop.
        unfold is_open, is_closed in *. congruence. }
      destruct (deletes c (log (world σ))) as [|[|n]] eqn:Hd; [|done|lia].
      destruct Hna. apply I3. lia.
    - intros Hd. apply (wf_gone _ Hwf c hc Hobj).
      + apply inserts_pos. lia.
      + intros Hact. apply I3 in Hact. lia. }
  split; [|done].
  destruct (wf_chan _ Hwf c hc Hobj) as [[[]] Hch].
  - assert (is_closed (world σ) (Messages hc)) as Hcl by done.
    rewrite (proj1 Hiff Hcl). by apply closed_iff_closes.
  - assert (is_open (world σ) (Messages hc)) as Hop by done.
    assert (closes (Messages hc) (log (world σ)) = 0) as ->
      by (by apply closed_iff_closes).
    destruct (decide (deletes c (log (world σ)) = 1)) as [Hd|Hd]; [|lia].
    apply Hiff in Hd. unfold is_open, is_closed in *. congruence.
Qed.

(** ** More about the callers *)

Local Abbreviation callers_inv := (callers_inv h).

Lemma carries_sends w pc r pc' c :
  sends w pc = Some (r, pc') → carries c pc' → carries c pc.
Proof.
  intros Hs Hc.
  destruct (sends_cases _ _ _ _ Hs) as
    [(m & -> & -> & ->)|[(c' & -> & -> & ->)|(c' & -> & -> & ->)]];
    destruct Hc as [?|[?|?]]; simplify_eq. by left.
Qed.

Lemma carries_returns (pc : @PC Message) v c :
  returns pc = Some v → carries c (@Returned Message v) → carries c pc.
Proof.
  intros Hr [?|[?|?]]; simplify_eq. destruct pc; simplify_eq/=. right. by left.
Qed.

Lemma carries_entry (call : @Call Message) c : ¬ carries c (entry call).
Proof. destruct call; intros [?|[?|?]]; done. Qed.

(** An iteration of the loop allocates nothing and changes no struct. *)
Lemma Run_iter_objs e r w w1 :
  wf w → Run_iter e r w = Ok w1 → objs w1 = objs w.
Proof.
  intros Hwf Hdo. destruct r as [c|c|m]; simpl in Hdo.
  - by injection Hdo as <-.
  - destruct (clients w !! c) as [b|] eqn:Hc.
    + destruct (wf_active w Hwf c) as (hc & Hobj & _); [by eexists|].
      rewrite (Run_unregister_total c w b hc) in Hdo by done. by injection Hdo as <-.
    + rewrite Run_unregister_absent in Hdo by done. by injection Hdo as <-.
  - rewrite fanout_total in Hdo by done. injection Hdo as <-. apply pass_objs.
Qed.

Lemma callers_inv_boot : callers_inv (@boot Message).
Proof. split; simpl; try done; intros *; by rewrite lookup_empty. Qed.

Lemma callers_inv_step σ lb σ1 :
  sys_inv σ → callers_inv σ → sys_step σ lb σ1 → callers_inv σ1.
Proof.
  intros Hinv [Hh Hu Ht Hc Hq] Hstep.
  pose proof (reachable_wf _ (inv_world σ Hinv)) as Hwf.
  destruct Hstep as [σ g call Hg Hok|σ g info c ch Hg Hfc Hfch
                    |σ g pc r pc' Hrun Hg Hsend|σ r e w1 Hrun Henv Hdo
                    |σ g pc v Hg Hret]; split; simpl.
  - done.
  - intros g0 c0 Hk.
    destruct (decide (g0 = g)) as [->|Hne];
      [rewrite lookup_insert_eq in Hk|rewrite lookup_insert_ne in Hk by done];
      [|by apply (Hu g0)].
    destruct call as [| |c']; simplify_eq/=. destruct Hok as [g1 Hg1]. split.
    + apply (Hc g1 _ c0 Hg1). right. by right.
    + apply (inv_sent σ Hinv g1). by right.
  - done.
  - intros g0 pc0 c0 Hk Hcar.
    destruct (decide (g0 = g)) as [->|Hne];
      [rewrite lookup_insert_eq in Hk|rewrite lookup_insert_ne in Hk by done].
    + simplify_eq. by apply carries_entry in Hcar.
    + by apply (Hc g0 pc0).
  - intros g1 g2 pc1 pc2 c0 H1 H2 C1 C2.
    destruct (decide (g1 = g)) as [->|Hne1];
      [rewrite lookup_insert_eq in H1|rewrite lookup_insert_ne in H1 by done].
    { simplify_eq. by apply carries_entry in C1. }
    destruct (decide (g2 = g)) as [->|Hne2];
      [rewrite lookup_insert_eq in H2|rewrite lookup_insert_ne in H2 by done].
    { simplify_eq. by apply carries_entry in C2. }
    by apply (Hq g1 g2 pc1 pc2 c0).
  - intros c0 hc0 Hk. apply lookup_insert_Some in Hk as [[<- <-]|[_ Hk]]; [done|].
    by apply (Hh c0).
  - intros g0 c0 Hk.
    destruct (decide (g0 = g)) as [->|Hne];
      [rewrite lookup_insert_eq in Hk|rewrite lookup_insert_ne in Hk by done];
      [done|].
    destruct (Hu g0 c0 Hk) as [Hobj Hreg]. split; [|done].
    apply lookup_insert_is_Some'. by right.
  - intros c0 Hr0. destruct (Ht c0 Hr0) as [Hobj Hin]. split; [|done].
    apply lookup_insert_is_Some'. by right.
  - intros g0 pc0 c0 Hk Hcar. apply lookup_insert_is_Some'.
    destruct (decide (g0 = g)) as [->|Hne];
      [rewrite lookup_insert_eq in Hk|rewrite lookup_insert_ne in Hk by done].
    + left. simplify_eq. destruct Hcar as [?|[?|?]]; by simplify_eq.
    + right. by apply (Hc g0 pc0).
  - intros g1 g2 pc1 pc2 c0 H1 H2 C1 C2.
    assert (∀ g0 pc0, g0 ≠ g → gos σ !! g0 = Some pc0 → carries c0 pc0 →
            carries c0 (@RegisterSend Message c) → False) as Hno.
    { intros g0 pc0 _ Hk Hcar [?|[?|?]]; simplify_eq.
      destruct (Hc g0 pc0 _ Hk Hcar) as [? ?]. congruence. }
    destruct (decide (g1 = g)) as [->|Hne1];
      [rewrite lookup_insert_eq in H1|rewrite lookup_insert_ne in H1 by done];
      (destruct (decide (g2 = g)) as [->|Hne2];
        [rewrite lookup_insert_eq in H2|rewrite lookup_insert_ne in H2 by done]);
      simplify_eq; try done.
    + destruct (Hno g2 pc2); done.
    + destruct (Hno g1 pc1); done.
    + by apply (Hq g1 g2 pc1 pc2 c0).
  - done.
  - intros g0 c0 Hk.
    destruct (decide (g0 = g)) as [->|Hne];
      [rewrite lookup_insert_eq in Hk|rewrite lookup_insert_ne in Hk by done].
    + simplify_eq.
      destruct (sends_cases _ _ _ _ Hsend) as
        [(m & ? & ? & ?)|[(c' & ? & ? & ?)|(c' & ? & ? & ?)]]; simplify_eq.
    + destruct (Hu g0 c0 Hk) as [Hobj [Hreg|Hreg]]; [congruence|].
      split; [done|by right].
  - intros c0 Hr0. simplify_eq.
    destruct (sends_cases _ _ _ _ Hsend) as
      [(m & ? & ? & ?)|[(c' & ? & ? & ?)|(c' & ? & ? & ?)]]; simplify_eq.
    destruct (Hu g _ Hg) as [Hobj [Hreg|Hreg]]; [congruence|done].
  - intros g0 pc0 c0 Hk Hcar.
    destruct (decide (g0 = g)) as [->|Hne];
      [rewrite lookup_insert_eq in Hk|rewrite lookup_insert_ne in Hk by done].
    + simplify_eq. apply (Hc g pc c0 Hg). by eapply carries_sends.
    + by apply (Hc g0 pc0).
  - intros g1 g2 pc1 pc2 c0 H1 H2 C1 C2.
    destruct (decide (g1 = g)) as [->|Hne1];
      [rewrite lookup_insert_eq in H1|rewrite lookup_insert_ne in H1 by done];
      (destruct (decide (g2 = g)) as [->|Hne2];
        [rewrite lookup_insert_eq in H2|rewrite lookup_insert_ne in H2 by done]);
      simplify_eq; try done.
    + apply (Hq g g2 pc pc2 c0); [done|done| |done]. by eapply carries_sends.
    + apply (Hq g1 g pc1 pc c0); [done|done|done|]. by eapply carries_sends.
    + by apply (Hq g1 g2 pc1 pc2 c0).
  - intros c0 hc0. rewrite (Run_iter_objs e r (world σ) w1 Hwf Hdo). apply Hh.
  - intros g0 c0 Hk. rewrite (Run_iter_objs e r (world σ) w1 Hwf Hdo).
    destruct (Hu g0 c0 Hk) as [Hobj Hreg]. split; [done|]. right.
    pose proof (body_valid σ r e Hinv Hrun Henv) as Hv.
    rewrite (do_action_log (world σ) (Recv r e) w1 Hwf Hv Hdo).
    apply elem_of_app. destruct Hreg as [Hreg|Hreg]; [right|by left].
    assert (r = ReqRegister c0) as -> by congruence. simpl. by left.
  - done.
  - intros g0 pc0 c0. rewrite (Run_iter_objs e r (world σ) w1 Hwf Hdo). apply Hc.
  - done.
  - done.
  - intros g0 c0 Hk.
    destruct (decide (g0 = g)) as [->|Hne];
      [rewrite lookup_insert_eq in Hk|rewrite lookup_insert_ne in Hk by done];
      [done|by apply (Hu g0)].
  - done.
  - intros g0 pc0 c0 Hk Hcar.
    destruct (decide (g0 = g)) as [->|Hne];
      [rewrite lookup_insert_eq in Hk|rewrite lookup_insert_ne in Hk by done].
    + simplify_eq. apply (Hc g pc c0 Hg). by apply (carries_returns pc v).
    + by apply (Hc g0 pc0).
  - intros g1 g2 pc1 pc2 c0 H1 H2 C1 C2.
    destruct (decide (g1 = g)) as [->|Hne1];
      [rewrite lookup_insert_eq in H1|rewrite lookup_insert_ne in H1 by done];
      (destruct (decide (g2 = g)) as [->|Hne2];
        [rewrite lookup_insert_eq in H2|rewrite lookup_insert_ne in H2 by done]);
      simplify_eq; try done.
    + apply (Hq g g2 pc pc2 c0); [done|done| |done]. by apply (carries_returns pc v).
    + apply (Hq g1 g pc1 pc c0); [done|done|done|]. by apply (carries_returns pc v).
    + by apply (Hq g1 g2 pc1 pc2 c0).
Qed.

Lemma sys_reachable_callers σ : sys_reachable σ → callers_inv σ.
Proof.
  intros [tr Hs]. remember boot as σ0 eqn:Hboot.
  induction Hs as [|σ0 tr σ1 lb σ2 Hs IH Hstep]; subst; [apply callers_inv_boot|].
  apply (callers_inv_step σ1 lb σ2); [|by apply IH|done].
  apply sys_reachable_inv. by exists tr.
Qed.

Lemma sys_step_steps σ lb σ1 : sys_step σ lb σ1 → sys_steps σ [lb] σ1.
Proof. intros Hstep. apply (sys_steps_snoc h σ [] σ lb σ1); [constructor|done]. Qed.

Lemma sys_reachable_steps σ tr σ1 :
  sys_reachable σ → sys_steps σ tr σ1 → sys_reachable σ1.
Proof. intros [tr0 H0] H1. exists (tr0 ++ tr). by eapply sys_steps_trans. Qed.

(** The memory of the running program changes by steps of the hub only. *)
Lemma sys_steps_world σ tr σ1 :
  sys_inv σ → sys_steps σ tr σ1 → ∃ acts, steps (world σ) acts (world σ1).
Proof.
  intros Hinv Hs. induction Hs as [|σ tr σ1 lb σ2 Hs IH Hstep].
  - exists []. constructor.
  - destruct (IH Hinv) as [acts Hacts].
    pose proof (sys_steps_inv σ tr σ1 Hinv Hs) as Hinv1.
    destruct Hstep as [σ1 g call Hg Hok|σ1 g info c ch Hg Hfc Hfch
                      |σ1 g pc r pc' Hrun Hg Hsend|σ1 r e w1 Hrun Henv Hdo
                      |σ1 g pc v Hg Hret]; simpl.
    + by exists acts.
    + exists (acts ++ [Alloc c ch info]). apply steps_snoc.
      exists (world σ1). split_and!; done.
    + by exists acts.
    + exists (acts ++ [Recv r e]). apply steps_snoc.
      exists (world σ1). split_and!; [done|by apply body_valid|done].
    + by exists acts.
Qed.

(** The loop gets back to its [select] by itself, whatever the readers of
    the delivery queues do. *)
Lemma finish_body σ rdy :
  sys_reachable σ →
  ∃ tr σ1, sys_steps σ tr σ1 ∧ run σ1 = Select ∧ gos σ1 = gos σ ∧
    objs (world σ1) = objs (world σ) ∧ length tr ≤ 1 ∧ Forall (readers rdy) tr.
Proof.
  intros Hreach. destruct (run σ) as [|r] eqn:Hrun.
  - exists [], σ. split_and!; try done; [constructor|simpl; lia].
  - set (e := mkEnv rdy (keys_of (world σ))).
    assert (env_ok (world σ) r e) as Henv.
    { destruct r; simpl; try done. apply range_ok_keys_of. }
    destruct (loop_never_panics σ r e Hreach) as [Hr Hbody].
    destruct (Hbody Hrun Henv) as (w1 & Hdo & Hstep).
    exists [LBody r e], (mkSystem w1 Select (gos σ)). split_and!; simpl; try done.
    + by apply sys_step_steps.
    + apply (Run_iter_objs e r); [by apply reachable_wf|done].
    + by repeat constructor.
Qed.

Lemma complete_send σ g pc r pc' v rdy :
  sys_reachable σ → gos σ !! g = Some pc →
  sends (world σ) pc = Some (r, pc') → returns pc' = Some v →
  ∃ tr σ1, sys_steps σ tr σ1 ∧ gos σ1 !! g = Some (Returned v) ∧
    length tr ≤ 3 ∧ Forall (readers rdy) tr ∧
    ∀ g', g' ≠ g → gos σ1 !! g' = gos σ !! g'.
Proof.
  intros Hreach Hg Hsend Hret.
  destruct (finish_body σ rdy Hreach)
    as (tr & σa & Hs & Hrun & Hgos & Hobjs & Hlen & Hrd).
  assert (sends (world σa) pc = Some (r, pc')) as Hsend'.
  { destruct pc; simpl in *; try done. by rewrite Hobjs. }
  set (σb := mkSystem (world σa) (Body r) (<[g := pc']> (gos σa))).
  set (σc := mkSystem (world σb) (run σb) (<[g := Returned v]> (gos σb))).
  assert (sys_step σa (LAccept g r) σb) as Hacc.
  { apply (step_accept h σa g pc r pc'); [done|by rewrite Hgos|done]. }
  assert (sys_step σb (LReturn g v) σc) as Hre.
  { apply (step_return σb g pc' v); [|done]. simpl. by rewrite lookup_insert_eq. }
  exists (tr ++ [LAccept g r] ++ [LReturn g v]), σc. split_and!.
  - eapply sys_steps_trans; [done|]. eapply sys_steps_trans; by apply sys_step_steps.
  - simpl. by rewrite lookup_insert_eq.
  - rewrite !length_app. simpl. lia.
  - apply Forall_app. split; [done|]. by repeat constructor.
  - intros g' Hne. simpl. rewrite !lookup_insert_ne by done. by rewrite Hgos.
Qed.

(** X4. No call on the hub can be held up by the readers of the delivery
    queues or by other callers.  From every state of the running program,
    a goroutine that stands anywhere in [Broadcast], [Register] or
    [Unregister] can get to its return in at most four steps, taken by
    itself and by the loop alone (no other goroutine moves), and this
    whichever readers are waiting on their queues: the [default] case of the
    fan-out keeps the loop from blocking on a queue nobody reads. *)
Theorem calls_can_complete σ g pc rdy :
  sys_reachable σ → gos σ !! g = Some pc →
  ∃ tr σ1 v, sys_steps σ tr σ1 ∧ gos σ1 !! g = Some (Returned v) ∧
    length tr ≤ 4 ∧ Forall (readers rdy) tr ∧
    ∀ g', g' ≠ g → gos σ1 !! g' = gos σ !! g'.
Proof.
  intros Hreach Hg.
  assert (∀ v, returns pc = Some v →
    ∃ tr σ1 v, sys_steps σ tr σ1 ∧ gos σ1 !! g = Some (Returned v) ∧
      length tr ≤ 4 ∧ Forall (readers rdy) tr ∧
      ∀ g', g' ≠ g → gos σ1 !! g' = gos σ !! g') as Hend.
  { intros v Hret.
    exists [LReturn g v],
      (mkSystem (world σ) (run σ) (<[g := Returned v]> (gos σ))), v. split_and!.
    - apply sys_step_steps. by apply (step_return σ g pc v).
    - simpl. by rewrite lookup_insert_eq.
    - simpl. lia.
    - by repeat constructor.
    - intros g' Hne. simpl. by rewrite lookup_insert_ne. }
  assert (∀ r pc' v, sends (world σ) pc = Some (r, pc') → returns pc' = Some v →
    ∃ tr σ1 v, sys_steps σ tr σ1 ∧ gos σ1 !! g = Some (Returned v) ∧
      length tr ≤ 4 ∧ Forall (readers rdy) tr ∧
      ∀ g', g' ≠ g → gos σ1 !! g' = gos σ !! g') as Hsnd.
  { intros r pc' v Hsend Hret.
    destruct (complete_send σ g pc r pc' v rdy) as (tr & σ1 & ? & ? & ? & ? & ?);
      try done.
    exists tr, σ1, v. split_and!; try done. lia. }
  destruct pc as [m| |info|c|c|c| |v].
  - by apply (Hsnd (ReqBroadcast m) BroadcastEnd None).
  - by apply (Hend None).
  - set (c := fresh (dom (objs (world σ)))).
    set (ch := fresh (dom (chans (world σ)))).
    assert (objs (world σ) !! c = None) as Hfc by apply not_elem_of_dom, is_fresh.
    assert (chans (world σ) !! ch = None) as Hfch by apply not_elem_of_dom, is_fresh.
    set (σa := mkSystem (alloc h c ch info (world σ)) (run σ)
                 (<[g := RegisterSend c]> (gos σ))).
    assert (sys_step σ (LAlloc g c ch) σa) as Hal
      by (by apply (step_alloc h σ g info c ch)).
    destruct (complete_send σa g (RegisterSend c) (ReqRegister c) (RegisterEnd c)
                (Some c) rdy) as (tr & σ1 & Hs & Hg1 & Hlen & Hrd & Hoth).
    + eapply sys_reachable_steps; [done|by apply sys_step_steps].
    + simpl. by rewrite lookup_insert_eq.
    + done.
    + done.
    + exists ([LAlloc g c ch] ++ tr), σ1, (Some c). split_and!.
      * eapply sys_steps_trans; [by apply sys_step_steps|done].
      * done.
      * simpl. lia.
      * by constructor.
      * intros g' Hne. rewrite Hoth by done. simpl. by rewrite lookup_insert_ne.
  - by apply (Hsnd (ReqRegister c) (RegisterEnd c) (Some c)).
  - by apply (Hend (Some c)).
  - destruct (sys_reachable_callers σ Hreach) as [Hh Hu _ _ _].
    destruct (Hu g c Hg) as [[hc Hobj] _].
    apply (Hsnd (ReqUnregister c) UnregisterEnd None); [|done].
    simpl. rewrite Hobj. rewrite decide_True; [done|]. by apply (Hh c).
  - by apply (Hend None).
  - exists [], σ, v. split_and!; try done; [constructor|simpl; lia].
Qed.

(** X5. [HubClient.Unregister].  The call stands at its send
    [hc.hub.unregister <- hc] until the loop, blocked in [select], receives
    it; the send goes to this hub ([hc.hub] is the hub that made the
    client), and when the loop takes it the registration of the client has
    already been processed, so an unregistration never overtakes its
    registration.  Once the loop has run the case body, the client is out
    of the active set and its queue is closed, for good and with one close,
    whether or not the client was still active (it may have been evicted
    before). *)
Theorem unregister_call :
  (∀ σ g c lb σ1,
     gos σ !! g = Some (UnregisterSend c) → sys_step σ lb σ1 →
     gos σ1 !! g ≠ Some (UnregisterSend c) →
     lb = LAccept g (ReqUnregister c) ∧ run σ = Select ∧
     run σ1 = Body (ReqUnregister c) ∧ world σ1 = world σ ∧
     gos σ1 !! g = Some UnregisterEnd) ∧
  (∀ σ g c,
     sys_reachable σ → gos σ !! g = Some (UnregisterSend c) →
     ∃ hc, objs (world σ) !! c = Some hc ∧ hub hc = h ∧
       sends (world σ) (UnregisterSend c) = Some (ReqUnregister c, UnregisterEnd) ∧
       (run σ = Select → EvInsert c ∈ log (world σ))) ∧
  (∀ σ c e σ1 tr σ2,
     sys_reachable σ → sys_step σ (LBody (ReqUnregister c) e) σ1 →
     sys_steps σ1 tr σ2 →
     ∃ hc, objs (world σ) !! c = Some hc ∧
       ¬ active (world σ2) c ∧ is_closed (world σ2) (Messages hc) ∧
       closes (Messages hc) (log (world σ2)) = 1).
Proof.
  split_and!.
  - intros σ g c lb σ1 Hg Hstep Hne.
    destruct Hstep as [σ g0 call Hg0 _|σ g0 info0 c0 ch Hg0 Hc0 Hch
                      |σ g0 pc r pc' Hrun Hg0 Hsend|σ r e0 w1 _ _ _
                      |σ g0 pc v Hg0 Hret]; simpl in *.
    + destruct Hne. rewrite lookup_insert_ne; [done|]. intros ->. congruence.
    + destruct Hne. rewrite lookup_insert_ne; [done|]. intros ->. congruence.
    + destruct (decide (g0 = g)) as [->|Hng].
      * assert (pc = UnregisterSend c) as -> by congruence.
        destruct (sends_cases _ _ _ _ Hsend)
          as [(m' & ? & ? & ?)|[(c' & ? & ? & ?)|(c' & ? & ? & ?)]]; simplify_eq.
        by rewrite lookup_insert_eq.
      * destruct Hne. by rewrite lookup_insert_ne.
    + by destruct Hne.
    + destruct Hne. rewrite lookup_insert_ne; [done|]. intros ->.
      assert (pc = UnregisterSend c) as -> by congruence. done.
  - intros σ g c Hreach Hg.
    destruct (sys_reachable_callers σ Hreach) as [Hh Hu _ _ _].
    destruct (Hu g c Hg) as [[hc Hobj] Hreg].
    exists hc. split_and!; [done|by apply (Hh c)| |].
    + simpl. rewrite Hobj. rewrite decide_True; [done|]. by apply (Hh c).
    + intros Hrun. destruct Hreg as [Hreg|Hreg]; [congruence|done].
  - intros σ c e σ1 tr σ2 Hreach Hstep Hs.
    pose proof (sys_reachable_inv σ Hreach) as Hinv.
    pose proof (reachable_wf _ (inv_world σ Hinv)) as Hwf.
    pose proof (sys_step_inv σ _ σ1 Hinv Hstep) as Hinv1.
    destruct (sys_reachable_callers σ Hreach) as [_ _ Ht _ _].
    inversion Hstep as [| | |? ? ? w1 Hrun Henv Hdo|]; subst.
    destruct (Ht c Hrun) as [[hc Hobj] Hin].
    exists hc. split; [done|].
    assert (objs w1 !! c = Some hc) as Hobj1
      by (by rewrite (Run_iter_objs e _ (world σ) w1 Hwf Hdo)).
    assert (is_closed w1 (Messages hc)) as Hcl.
    { simpl in Hdo. destruct (clients (world σ) !! c) as [b|] eqn:Hc.
      - rewrite (Run_unregister_total c (world σ) b hc) in Hdo by done.
        injection Hdo as <-. unfold is_closed. simpl. by rewrite lookup_insert_eq.
      - rewrite Run_unregister_absent in Hdo by done. injection Hdo as <-.
        apply (wf_gone _ Hwf c hc); [done|done|]. by apply not_active_lookup. }
    destruct (sys_steps_world _ tr σ2 Hinv1 Hs) as [acts Hacts]. simpl in Hacts.
    pose proof (reachable_wf _ (inv_world _ Hinv1)) as Hwf1. simpl in Hwf1.
    destruct (steps_closed w1 acts (world σ2) c hc Hwf1 Hacts Hobj1 Hcl) as [Hcl2 Hna2].
    split_and!; [done|done|].
    apply closed_iff_closes; [by eapply steps_wf| |done]. by rewrite Hcl2.
Qed.

(** X6. [Register] hands out every client once.  A client that a
    [Register] call has returned is a struct of this hub with a channel
    of its own: no other [Register] call holds or has returned the same
    client, and no other client shares its [Messages] channel. *)
Theorem register_results_distinct σ g c :
  sys_reachable σ → gos σ !! g = Some (Returned (Some c)) →
  ∃ hc, objs (world σ) !! c = Some hc ∧ hub hc = h ∧
    is_Some (chans (world σ) !! Messages hc) ∧
    (∀ g' pc, gos σ !! g' = Some pc → carries c pc → g' = g) ∧
    (∀ c' hc', objs (world σ) !! c' = Some hc' →
       Messages hc' = Messages hc → c' = c).
Proof.
  intros Hreach Hg.
  pose proof (reachable_wf _ (inv_world σ (sys_reachable_inv σ Hreach))) as Hwf.
  destruct (sys_reachable_callers σ Hreach) as [Hh _ _ Hc Hq].
  assert (carries c (@Returned Message (Some c))) as Hcar by (right; by right).
  destruct (Hc g _ c Hg Hcar) as [hc Hobj].
  exists hc. split_and!; [done|by apply (Hh c)|by apply (wf_chan _ Hwf c)| |].
  - intros g' pc Hg' Hcar'. by apply (Hq g' g pc (Returned (Some c)) c).
  - intros c' hc' Hobj' Heq. by apply (wf_inj _ Hwf c' c hc' hc).
Qed.

End HubProofs.

(** * The libvirt wrapper: properties *)

Section LibvirtProofs.

Context {Pool Net PoolCfg NetCfg : Type}.

Implicit Types (lv : @Outside Pool Net PoolCfg NetCfg).

(** Runs a function on all the answers it can get. *)
Ltac run :=
  unfold GetOrCreateNetwork, GetOrCreateStoragePool, describe_network, refresh_pool,
    as_libvirt_Error, call, eval, mbind, Trace_bind, mret, Trace_ret in *;
  repeat (case_match; simplify_eq/=).

Lemma Trace_bind_ext {C A B} (f g : A → Trace C B) (m : Trace C A) :
  (∀ a, f a = g a) → m ≫= f = m ≫= g.
Proof.
  intros Hfg. destruct m as [l [a|]]; [|done]. unfold mbind, Trace_bind. by rewrite Hfg.
Qed.

(** The answer to a call whose result is dropped does not matter, unless
    the call panics. *)
Lemma Trace_bind_call_ignore {C R B} (c : C) (r1 r2 : Outcome R) (k : Trace C B) :
  r1 ≠ Panics → r2 ≠ Panics → (call c r1 ≫= λ _, k) = (call c r2 ≫= λ _, k).
Proof. by destruct r1, r2. Qed.

Ltac same_step :=
  first
    [ reflexivity
    | apply Trace_bind_ext; intros ?
    | match goal with
      | |- match ?x with _ => _ end = match ?x with _ => _ end => destruct x
      end ].

(** An error of [GetOrCreateNetwork] comes alone and names the function;
    without error there is a description. *)
Lemma GetOrCreateNetwork_error lv name file calls net cfg err :
  GetOrCreateNetwork lv name file = (calls, Returns (net, cfg, err)) →
  match err with
  | Some e =>
      net = None ∧ cfg = None ∧ ∃ rest, e = OtherError ("GetOrCreateNetwork: " +:+ rest)
  | None => is_Some cfg
  end.
Proof.
  intros Hrun. run.
  all: first [ by eexists | split_and!; [done|done|eexists; reflexivity] ].
Qed.

(** X7. The results of [GetOrCreateNetwork].  When it returns an error, the
    two other results are nil and the text of the error starts with the
    name of the function.  When it returns no error, the description it
    returns is the parse of the XML description of the network it returns,
    and that network is the one the lookup found, or, when libvirt answered
    that there is no such network, the one defined from the template file,
    which was then set to autostart and started, each without error. *)
Theorem GetOrCreateNetwork_result lv name file calls net cfg err :
  GetOrCreateNetwork lv name file = (calls, Returns (net, cfg, err)) →
  match err with
  | Some e =>
      net = None ∧ cfg = None ∧ ∃ rest, e = OtherError ("GetOrCreateNetwork: " +:+ rest)
  | None =>
      ∃ doc c, cfg = Some c ∧
        Network_GetXMLDesc lv net 0 = Returns (doc, None) ∧
        Network_Unmarshal lv doc = Returns (c, None) ∧
        (LookupNetworkByName lv name = Returns (net, None) ∨
         ∃ found text xml,
           LookupNetworkByName lv name =
             Returns (found,
                      Some (LibvirtError (ERR_NO_NETWORK lv) (FROM_NETWORK lv) text)) ∧
           ReadFile lv file = Returns (xml, None) ∧
           NetworkDefineXML lv xml = Returns (net, None) ∧
           Network_SetAutostart lv net true = Returns None ∧
           Network_Create lv net = Returns None)
  end.
Proof.
  intros Hrun. run.
  all: try (split_and!; [done|done|eexists; reflexivity]).
  - destruct a as [-> ->]. eexists _, _. split_and!; try done. right. by eexists _, _, _.
  - eexists _, _. split_and!; try done. by left.
Qed.

(** X8. [GetOrCreateNetwork] creates nothing unless the network is
    missing.  It makes a call that defines, configures or starts something
    in libvirt only if the lookup failed with the libvirt error "no
    network" of the network domain.  On any other lookup error it makes no
    further call at all: a libvirt error is returned as "Unexpected error"
    with its text, and an error value that is no [libvirt.Error] makes the
    type assertion panic. *)
Theorem GetOrCreateNetwork_creates_only_if_missing lv name file :
  (∀ c, c ∈ (GetOrCreateNetwork lv name file).1 → creates c →
     ∃ found text,
       LookupNetworkByName lv name =
         Returns (found,
                  Some (LibvirtError (ERR_NO_NETWORK lv) (FROM_NETWORK lv) text))) ∧
  (∀ found e,
     LookupNetworkByName lv name = Returns (found, Some e) →
     (∀ text, e ≠ LibvirtError (ERR_NO_NETWORK lv) (FROM_NETWORK lv) text) →
     GetOrCreateNetwork lv name file =
       ([LvLookupNetworkByName name],
        match e with
        | LibvirtError _ _ _ =>
            Returns (None, None,
                     Some (OtherError ("GetOrCreateNetwork: Unexpected error: "
                                         +:+ Error e)))
        | OtherError _ => Panics
        end)).
Proof.
  split.
  - intros c Hin Hc. run.
    all: try (destruct a as [-> ->]; by eexists _, _).
    all: repeat (apply elem_of_cons in Hin as [->|Hin]; [done|]);
      by apply elem_of_nil in Hin.
  - intros found e Hl Hne. run; try done.
    all: match goal with a : _ ∧ _ |- _ => destruct a as [-> ->] end;
      by edestruct Hne.
Qed.

(** X9. Whether [pool.SetAutostart(true)] fails makes no difference to
    [GetOrCreateStoragePool].  The source drops the result of that call and
    then tests the [err] of the call before it, so, as long as the call
    does not panic, the function makes the same calls and returns the same
    results whatever [SetAutostart] answers: its error is never reported,
    and the pool is created and refreshed all the same. *)
Theorem GetOrCreateStoragePool_ignores_SetAutostart lv answer name path file mode :
  (∀ pool b, StoragePool_SetAutostart lv pool b ≠ Panics) →
  (∀ pool b, answer pool b ≠ Panics) →
  GetOrCreateStoragePool (with_SetAutostart answer lv) name path file mode =
  GetOrCreateStoragePool lv name path file mode.
Proof.
  intros H1 H2. unfold GetOrCreateStoragePool, refresh_pool, with_SetAutostart.
  cbn [FROM_STORAGE ERR_NO_STORAGE_POOL STORAGE_POOL_CREATE_WITH_BUILD
       LookupStoragePoolByName Info ReadFile StoragePool_Unmarshal Abs
       StoragePool_Marshal StoragePoolDefineXML StoragePool_SetAutostart
       StoragePool_Create StoragePool_Refresh set_Name set_Target_Path
       set_Target_Permissions_Mode].
  repeat same_step.
  all: apply Trace_bind_call_ignore; [apply H2|apply H1].
Qed.

(** X10. [GetOrCreateStoragePool] drops a lookup error that is not "no
    storage pool".  Unlike [GetOrCreateNetwork], it has no [else] for such a
    libvirt error: it goes straight on to [pool.Refresh(0)] on the pool
    value that the failed lookup returned and makes no other call; what it
    returns is decided by the refresh alone, and the lookup error appears
    nowhere in it. *)
Theorem GetOrCreateStoragePool_lookup_error_dropped lv name path file mode
    pool code domain text :
  LookupStoragePoolByName lv name = Returns (pool, Some (LibvirtError code domain text)) →
  ¬ (domain = FROM_STORAGE lv ∧ code = ERR_NO_STORAGE_POOL lv) →
  GetOrCreateStoragePool lv name path file mode =
    ([LvLookupStoragePoolByName name; LvPoolRefresh pool 0],
     match StoragePool_Refresh lv pool 0 with
     | Returns None => Returns (pool, None)
     | Returns (Some err) =>
         Returns (None, Some (OtherError ("GetOrCreateStoragePool: pool.Refresh: "
                                            +:+ Error err)))
     | Panics => Panics
     end).
Proof. intros Hl Hne. run; done. Qed.

(** X11. The results of [GetOrCreateStoragePool].  An error comes with a
    nil pool and a text that starts with the name of the function.  A pool
    returned without error has just been refreshed without error, as the
    last call; it is the pool value the lookup returned, with no call
    between lookup and refresh, or it was defined in this call: from the
    template file, with the name and the absolute path put in, and the mode
    put in only if [mode] is not empty, then [SetAutostart] was called and
    the pool was created with the build flag. *)
Theorem GetOrCreateStoragePool_result lv name path file mode calls pool err :
  GetOrCreateStoragePool lv name path file mode = (calls, Returns (pool, err)) →
  match err with
  | Some e => pool = None ∧ ∃ rest, e = OtherError ("GetOrCreateStoragePool: " +:+ rest)
  | None =>
      StoragePool_Refresh lv pool 0 = Returns None ∧
      last calls = Some (LvPoolRefresh pool 0) ∧
      ((∃ e, LookupStoragePoolByName lv name = Returns (pool, e) ∧
             calls = [LvLookupStoragePoolByName name; LvPoolRefresh pool 0]) ∨
       (∃ xml cfg0 abs cfg1 cfg2 out,
          ReadFile lv file = Returns (xml, None) ∧
          StoragePool_Unmarshal lv xml = Returns (cfg0, None) ∧
          Abs lv path = Returns (abs, None) ∧
          set_Target_Path lv abs (set_Name lv name cfg0) = Returns cfg1 ∧
          (if decide (mode = "") then cfg2 = cfg1
           else set_Target_Permissions_Mode lv mode cfg1 = Returns cfg2) ∧
          StoragePool_Marshal lv cfg2 = Returns (out, None) ∧
          StoragePoolDefineXML lv out 0 = Returns (pool, None) ∧
          LvPoolSetAutostart pool true ∈ calls ∧
          StoragePool_Create lv pool (STORAGE_POOL_CREATE_WITH_BUILD lv) = Returns None))
  end.
Proof.
  intros Hrun. run.
  all: try (split; [done|eexists; reflexivity]).
  all: try (exfalso; tauto).
  all: split; [done|]; split; [done|].
  all: first [ left; by eexists
             | right; eexists _, _, _, _, _, _; split_and!; try done;
               do 7 right; by left ].
Qed.

(** X12. [initLibvirtNetwork] on top of [GetOrCreateNetwork].  An error of
    [GetOrCreateNetwork] is what it returns, wrapped, so the text names both
    functions; in that case it logs nothing itself and leaves
    [app.Libvirt] as it was.  Without error it has read the first address
    and the bridge name of the description, has logged one line with them
    as its last call, and has stored the network and the description that
    [GetOrCreateNetwork] returned. *)
Theorem initLibvirtNetwork_result lv configPath app calls app' err :
  initLibvirtNetwork lv configPath app = (calls, Returns (app', err)) →
  match err with
  | Some e =>
      app' = app ∧
      ∃ e0, GetOrCreateNetwork lv "mulch" (configPath +:+ "/templates/network.xml")
              = (calls, Returns (None, None, Some e0)) ∧
            e = OtherError ("initLibvirtNetwork: " +:+ Error e0) ∧
            ∃ rest, Error e = "initLibvirtNetwork: GetOrCreateNetwork: " +:+ rest
  | None =>
      ∃ calls0 net cfg address bridge,
        GetOrCreateNetwork lv "mulch" (configPath +:+ "/templates/network.xml")
          = (calls0, Returns (net, Some cfg, None)) ∧
        app' = mkLibvirt net (Some cfg) ∧
        get_IPs_0_Address lv cfg = Returns address ∧
        get_Bridge_Name lv cfg = Returns bridge ∧
        calls = calls0 ++ [LvInfo ("network '" +:+ get_Name lv cfg +:+ "': " +:+ address
                                     +:+ " (" +:+ bridge +:+ ")")]
  end.
Proof.
  unfold initLibvirtNetwork.
  destruct (GetOrCreateNetwork lv "mulch" (configPath +:+ "/templates/network.xml"))
    as [calls0 [[[net cfg] err0]|]] eqn:Hg; [|by intros [=]].
  pose proof (GetOrCreateNetwork_error lv _ _ _ _ _ _ Hg) as Hshape.
  unfold call, eval, mbind, Trace_bind, mret, Trace_ret. simpl.
  destruct err0 as [e0|]; simpl.
  - intros [= <- <- <-]. destruct Hshape as (-> & -> & rest & ->).
    rewrite app_nil_r. split; [done|]. eexists. split; [done|]. split; [done|].
    by eexists.
  - destruct Hshape as [c ->]. simpl.
    destruct (get_IPs_0_Address lv c) as [address|] eqn:Ha; simpl; [|by intros [=]].
    destruct (get_Bridge_Name lv c) as [bridge|] eqn:Hb; simpl; [|by intros [=]].
    destruct (Info lv _) as [[]|] eqn:Hi; simpl; [|by intros [=]].
    intros [= <- <- <-]. eexists _, _, _, _, _. split_and!; done.
Qed.

End LibvirtProofs.

(** * The check of the VM database: properties *)

Section VMDBProofs.

Context {Domain VM : Type}.

Implicit Types (db : @VmOutside Domain VM) (calls : list (@VmCall Domain VM)).

Lemma deleted_app calls1 calls2 :
  deleted (calls1 ++ calls2) = deleted calls1 ++ deleted calls2.
Proof. apply omap_app. Qed.

(** One iteration, by the answer of [GetDomainByName]. *)
Lemma check_vm_result db prefix i name calls r :
  check_vm db prefix i name = (calls, Returns r) →
  match GetDomainByName db i (prefix +:+ name) with
  | Returns (_, Some err) => r = Some err ∧ deleted calls = []
  | Returns (None, None) => r = None ∧ deleted calls = [name]
  | Returns (Some d, None) =>
      r = None ∧ deleted calls = [] ∧ ∃ v err2, GetByName db i name = Returns (Some v, err2)
  | Panics => False
  end.
Proof.
  unfold check_vm, call, eval, mbind, Trace_bind, mret, Trace_ret. intros Hrun.
  repeat (case_match; simplify_eq/=); try done.
  all: split_and!; try done; by eexists _, _.
Qed.

(** The loop, from iteration [i] on. *)
Lemma check_vms_result db prefix names i calls r :
  check_vms db prefix i names = (calls, Returns r) →
  deleted calls = unknown_to_libvirt db prefix i names ∧
  r = first_lookup_error db prefix i names.
Proof.
  revert i calls r. induction names as [|name names IH]; intros i calls r Hrun.
  - by injection Hrun as <- <-.
  - simpl in Hrun. unfold mbind, Trace_bind in Hrun.
    destruct (check_vm db prefix i name) as [calls1 [r1|]] eqn:Hone; [|done].
    apply check_vm_result in Hone. simpl.
    destruct r1 as [e|].
    + injection Hrun as <- <-. rewrite app_nil_r.
      destruct (GetDomainByName db i (prefix +:+ name)) as [[[d|] [e'|]]|];
        try done; naive_solver.
    + destruct (check_vms db prefix (S i) names) as [calls2 o2] eqn:Hrest.
      injection Hrun as <- ->. destruct (IH _ _ _ Hrest) as [Hdel Hr].
      rewrite deleted_app, Hdel.
      destruct (GetDomainByName db i (prefix +:+ name)) as [[[d|] [e'|]]|];
        try done; try naive_solver.
      * destruct Hone as (_ & -> & _). done.
      * destruct Hone as (_ & ->). done.
Qed.


End VMDBProofs.

(** * The test client: properties *)

Section ClientProofs.

Context {Message : Type} (line : Message → string).

Implicit Types (srv : @Server Message) (msgs : list Message).

Local Abbreviation read_loop := (read_loop line).

(** The loop, started at the [i]-th call of [Decode], up to the first
    call that returns an error. *)
Lemma read_loop_until decode msgs i fuel :
  (∀ j m, msgs !! j = Some m → decode (i + j) = Got m) →
  (∀ m, decode (i + length msgs) ≠ Got m) →
  length msgs < fuel →
  read_loop fuel decode i = (line <$> msgs, exit_of (decode (i + length msgs))).
Proof.
  revert i fuel. induction msgs as [|m msgs IH]; intros i fuel Hmsgs Hstop Hfuel.
  - destruct fuel as [|fuel]; [simpl in Hfuel; lia|]. simpl in *.
    rewrite Nat.add_0_r in *. destruct (decode i) as [m| |text] eqn:Hd; try done.
    by destruct (Hstop m).
  - destruct fuel as [|fuel]; [simpl in Hfuel; lia|]. simpl.
    pose proof (Hmsgs 0 m eq_refl) as H0. rewrite Nat.add_0_r in H0. rewrite H0.
    rewrite (IH (S i) fuel).
    + simpl. by rewrite Nat.add_succ_r.
    + intros j m' Hj. replace (S i + j) with (i + S j) by lia. by apply Hmsgs.
    + intros m'. replace (S i + length msgs) with (i + length (m :: msgs))
        by (simpl; lia). apply Hstop.
    + simpl in Hfuel. lia.
Qed.

(** As long as [Decode] returns messages the loop goes on. *)
Lemma read_loop_running decode fuel i :
  (∀ j, ∃ m, decode j = Got m) →
  (read_loop fuel decode i).2 = StillReading ∧
  length (read_loop fuel decode i).1 = fuel.
Proof.
  intros Hall. revert i. induction fuel as [|fuel IH]; intros i; [done|]. simpl.
  destruct (Hall i) as [m ->]. specialize (IH (S i)).
  destruct (read_loop fuel decode (S i)) as [out exit]. simpl in *.
  destruct IH as [-> ->]. done.
Qed.

(** X13. The test client prints what it decodes, up to the first error.
    With the request accepted and the status OK: if the first calls of
    [Decode] return the messages [msgs] and the next call returns an error,
    [main] prints one line per message of [msgs], in order, and nothing
    else, and then returns if that error is [io.EOF] and ends in
    [log.Fatal] otherwise.  If the status is not OK, nothing is printed and
    [main] does not return normally.  And [main] never leaves the loop by
    itself: while [Decode] keeps returning messages it prints a line in every
    iteration. *)
Theorem client_prints_until_first_error srv host :
  (∀ fuel msgs,
     NewRequest srv "GET" (host +:+ "/log") = None → Do srv = None →
     StatusCode srv = StatusOK →
     (∀ j m, msgs !! j = Some m → Decode srv j = Got m) →
     (∀ m, Decode srv (length msgs) ≠ Got m) →
     length msgs < fuel →
     main line fuel srv host = (line <$> msgs, exit_of (Decode srv (length msgs)))) ∧
  (∀ fuel, StatusCode srv ≠ StatusOK →
     (main line fuel srv host).1 = [] ∧ (main line fuel srv host).2 ≠ Completed) ∧
  (∀ fuel,
     NewRequest srv "GET" (host +:+ "/log") = None → Do srv = None →
     StatusCode srv = StatusOK →
     (∀ j, ∃ m, Decode srv j = Got m) →
     (main line fuel srv host).2 = StillReading ∧ length (main line fuel srv host).1 = fuel).
Proof.
  split_and!.
  - intros fuel msgs Hreq Hdo Hst Hmsgs Hstop Hfuel. unfold main.
    rewrite Hreq, Hdo. rewrite decide_False by (by intros ?).
    by apply (read_loop_until (Decode srv) msgs 0 fuel).
  - intros fuel Hst. unfold main.
    destruct (NewRequest srv "GET" (host +:+ "/log")); [done|].
    destruct (Do srv); [done|]. by rewrite decide_True.
  - intros fuel Hreq Hdo Hst Hall. unfold main.
    rewrite Hreq, Hdo. rewrite decide_False by (by intros ?).
    by apply read_loop_running.
Qed.

End ClientProofs.

Import Scenario.

Lemma range_ok_dom {Message} (w : @World Message) keys :
  NoDup keys → list_to_set keys = (dom (clients w) : gset positive) → range_ok w keys.
Proof.
  intros Hnd Hdom. split; [done|]. intros c.
  by rewrite <- elem_of_dom, <- Hdom, elem_of_list_to_set.
Qed.

Lemma steps_single {Message} h (w : @World Message) a w1 :
  valid w a → do_action h a w = Ok w1 → steps h w [a] w1.
Proof. intros. by apply steps_one. Qed.

Lemma steps_w_alloc : steps hub0 NewHub [Alloc 1 11 "a"] w_alloc.
Proof. apply steps_single; [split|]; reflexivity. Qed.

Lemma steps_register_one : steps hub0 w_alloc [Recv (ReqRegister 1) idle] w_one.
Proof. apply steps_single; [split; [by eexists|compute_done]|reflexivity]. Qed.

Lemma steps_run_one : steps hub0 NewHub run_one w_one.
Proof.
  apply (steps_app hub0 NewHub [_] [_]). exists w_alloc.
  split; [apply steps_w_alloc|apply steps_register_one].
Qed.

Lemma steps_run_two : steps hub0 NewHub run_two w_two.
Proof.
  apply steps_app. exists w_one. split; [apply steps_run_one|].
  apply (steps_app hub0 w_one [_] [_]). eexists. split.
  - apply steps_single; [split|]; reflexivity.
  - apply steps_single; [split; [by eexists|compute_done]|reflexivity].
Qed.

Lemma reachable_w_alloc : reachable hub0 w_alloc.
Proof. eexists. apply steps_w_alloc. Qed.

Lemma reachable_w_one : reachable hub0 w_one.
Proof. eexists. apply steps_run_one. Qed.

Lemma reachable_w_two : reachable hub0 w_two.
Proof. eexists. apply steps_run_two. Qed.

Lemma range_w_one : range_ok w_one [1%positive].
Proof. apply range_ok_dom; compute_done. Qed.

Lemma range_w_two : range_ok w_two [1; 2]%positive.
Proof. apply range_ok_dom; compute_done. Qed.

Lemma active_w_one : active w_one 1.
Proof. by eexists. Qed.

Lemma active_w_two_1 : active w_two 1.
Proof. by eexists. Qed.

Lemma active_w_two_2 : active w_two 2.
Proof. by eexists. Qed.

(** ** The theorems at concrete inputs *)

(** [broadcast_without_subscribers] on a new hub. *)
Lemma broadcast_without_subscribers_witness :
  clients (@NewHub nat) = ∅ ∧
  Run_iter (everyone [1; 2]%positive) (ReqBroadcast 7) (@NewHub nat) = Ok NewHub.
Proof. split; [reflexivity|]. apply broadcast_without_subscribers. reflexivity. Defined.

(** [unregister_idempotent] for the one registered client. *)
Lemma unregister_idempotent_witness :
  reachable hub0 w_one ∧
  (∃ w1, Run_iter idle (ReqUnregister 1) w_one = Ok w1 ∧
         Run_iter idle (ReqUnregister 1) w1 = Ok w1 ∧
         is_closed w1 11 ∧ ¬ active w1 1) ∧
  (EvInsert 1 ∈ log w_one ∧ Run_iter idle (ReqUnregister 1) w_one = Ok w_unreg ∧
   steps hub0 w_unreg [Alloc 2 12 "b"] w_unreg_b ∧
   Run_iter idle (ReqUnregister 1) w_unreg_b = Ok w_unreg_b).
Proof.
  split; [apply reachable_w_one|].
  destruct (unregister_idempotent hub0 idle idle 1 w_one reachable_w_one)
    as (_ & Hact & (w1 & Hrun & Hagain) & Hlater).
  split.
  - exists w1. split; [done|]. split; [done|].
    destruct (Hact active_w_one) as (hc & w1' & Hobj & Hrun' & Hcl & _ & Hclosed & _).
    assert (w1' = w1) as -> by congruence.
    assert (hc = client_a) as ->
      by (vm_compute in Hobj; injection Hobj as <-; reflexivity).
    split; [done|]. unfold active. rewrite Hcl. vm_compute. by intros [??].
  - assert (EvInsert 1 ∈ log w_one) as Hin by compute_done.
    assert (steps hub0 w_unreg [Alloc 2 12 "b"] w_unreg_b) as Hs
      by (apply steps_single; [split|]; reflexivity).
    split; [exact Hin|]. split; [reflexivity|]. split; [exact Hs|].
    apply (Hlater w_unreg [Alloc 2 12 "b"] w_unreg_b Hin eq_refl Hs).
Defined.

Lemma steps_stalled : steps hub0 w_one [Recv (ReqBroadcast 7) (nobody [1%positive])] w_gone.
Proof. apply steps_single; [apply range_w_one|reflexivity]. Qed.

(** [broadcast_evicts_stalled]: of two clients one reads and one does
    not; and a client that never reads, at the first broadcast after its
    registration. *)
Lemma broadcast_evicts_stalled_witness :
  (reachable hub0 w_two ∧ range_ok w_two [1; 2]%positive ∧
   ∃ w1, Run_iter (only 11 [1; 2]%positive) (ReqBroadcast 7) w_two = Ok w1 ∧
         is_open w1 11 ∧ active w1 1 ∧ is_closed w1 12 ∧ ¬ active w1 2) ∧
  (reachable hub0 w_alloc ∧
   steps hub0 w_alloc [Recv (ReqRegister 1) idle] w_one ∧
   steps hub0 w_one [] w_one ∧
   steps hub0 w_one [Recv (ReqBroadcast 7) (nobody [1%positive])] w_gone ∧
   is_closed w_gone 11 ∧ ¬ active w_gone 1 ∧ received 11 (log w_gone) = []).
Proof.
  split.
  - split; [apply reachable_w_two|]. split; [apply range_w_two|].
    destruct (proj1 (broadcast_evicts_stalled hub0) (only 11 [1; 2]%positive) 7 w_two
                reachable_w_two range_w_two) as (w1 & evs & Hrun & _ & Hall).
    exists w1. split; [done|].
    destruct (Hall 1%positive active_w_two_1) as (hc1 & Hobj1 & _ & _ & Hready).
    destruct (Hall 2%positive active_w_two_2) as (hc2 & Hobj2 & _ & Hstalled & _).
    assert (hc1 = client_a) as -> by (vm_compute in Hobj1; injection Hobj1 as <-; reflexivity).
    assert (hc2 = client_b) as -> by (vm_compute in Hobj2; injection Hobj2 as <-; reflexivity).
    destruct (Hready eq_refl) as (_ & ? & ?).
    destruct (Hstalled eq_refl) as (_ & ? & ?). done.
  - split; [apply reachable_w_alloc|]. split; [apply steps_register_one|].
    split; [constructor|]. split; [apply steps_stalled|].
    destruct (proj2 (broadcast_evicts_stalled hub0) w_alloc 1%positive idle w_one []
                w_one 7 (nobody [1%positive]) w_gone client_a
                reachable_w_alloc steps_register_one (steps_nil hub0 w_one)
                steps_stalled eq_refl eq_refl) as (? & ? & Hq).
    split; [done|]. split; [done|]. by apply Hq.
Defined.

(** [broadcast_exactly_once]: two registrations, then one broadcast. *)
Lemma broadcast_exactly_once_witness :
  (reachable hub0 w_two ∧ range_ok w_two [1; 2]%positive ∧
   ∃ w1 evs, Run_iter (only 11 [1; 2]%positive) (ReqBroadcast 7) w_two = Ok w1 ∧
             log w1 = log w_two ++ evs ∧
             received 11 evs = [7] ∧ length (received 12 evs) ≤ 1) ∧
  (steps hub0 NewHub run_two w_two ∧ Forall is_registration run_two ∧
   range_ok w_two [1; 2]%positive ∧
   ∃ w1, Run_iter (everyone [1; 2]%positive) (ReqBroadcast 7) w_two = Ok w1 ∧
         size (clients w1) = 2 ∧
         ∃ hc, objs w1 !! 2%positive = Some hc ∧ received (Messages hc) (log w1) = [7]).
Proof.
  split.
  - split; [apply reachable_w_two|]. split; [apply range_w_two|].
    destruct (proj1 (broadcast_exactly_once hub0) (only 11 [1; 2]%positive) 7 w_two
                reachable_w_two range_w_two) as (w1 & evs & Hrun & Hlog & Hmost & Hall).
    exists w1, evs. split; [done|]. split; [done|].
    destruct (Hall 1%positive active_w_two_1) as (hc1 & Hobj1 & Hready).
    assert (hc1 = client_a) as -> by (vm_compute in Hobj1; injection Hobj1 as <-; reflexivity).
    destruct (Hready eq_refl) as [? _]. split; [done|].
    apply (Hmost 2%positive client_b). reflexivity.
  - assert (Forall is_registration run_two) as Hreg by (repeat constructor).
    split; [apply steps_run_two|]. split; [done|]. split; [apply range_w_two|].
    destruct (proj2 (broadcast_exactly_once hub0) run_two w_two
                (everyone [1; 2]%positive) 7 steps_run_two Hreg range_w_two
                (λ _, eq_refl)) as (w1 & Hrun & _ & Hsize & Hall).
    exists w1. split; [done|]. split; [exact Hsize|].
    destruct (Hall 2%positive) as (hc & ? & _ & ?); [compute_done|].
    by exists hc.
Defined.

Lemma steps_got : steps hub0 w_one [Recv (ReqBroadcast 7) (everyone [1%positive])] w_got.
Proof. apply steps_single; [apply range_w_one|reflexivity]. Qed.

Lemma steps_run_got : steps hub0 NewHub run_got w_got.
Proof. apply steps_app. exists w_one. split; [apply steps_run_one|apply steps_got]. Qed.

Lemma steps_early : steps hub0 NewHub [Recv (ReqBroadcast 7) idle] (@NewHub nat).
Proof. apply steps_single; [apply range_ok_dom; compute_done|reflexivity]. Qed.

(** [delivered_only_while_active]: a delivery, a client registered after
    a broadcast, and two clients. *)
Lemma delivered_only_while_active_witness :
  (steps hub0 NewHub run_got w_got ∧ objs w_got !! 1%positive = Some client_a ∧
   7 ∈ received 11 (log w_got) ∧
   ∃ pre e post w1,
     run_got = pre ++ Recv (ReqBroadcast 7) e :: post ∧
     steps hub0 NewHub pre w1 ∧ active w1 1 ∧ ready e 11 = true) ∧
  (steps hub0 NewHub [Recv (ReqBroadcast 7) idle] NewHub ∧
   (EvInsert 1 ∉ log (@NewHub nat)) ∧ steps hub0 NewHub run_one w_one ∧
   objs w_one !! 1%positive = Some client_a ∧
   sublist (received 11 (log w_one)) (broadcasts run_one)) ∧
  (reachable hub0 w_two ∧ objs w_two !! 1%positive = Some client_a ∧
   objs w_two !! 2%positive = Some client_b ∧ 1%positive ≠ 2%positive ∧
   Messages client_a ≠ Messages client_b).
Proof.
  assert (7 ∈ received 11 (log w_got)) as Hin by compute_done.
  assert (EvInsert 1 ∉ log (@NewHub nat)) as Hni by compute_done.
  assert (1%positive ≠ 2%positive) as Hne by done.
  split_and!.
  - apply steps_run_got.
  - reflexivity.
  - exact Hin.
  - apply (proj1 (delivered_only_while_active hub0) run_got w_got 1%positive client_a 7
             steps_run_got eq_refl Hin).
  - apply steps_early.
  - exact Hni.
  - apply steps_run_one.
  - reflexivity.
  - apply (proj1 (proj2 (delivered_only_while_active hub0))
             [Recv (ReqBroadcast 7) idle] NewHub run_one w_one 1%positive client_a
             steps_early Hni steps_run_one eq_refl).
  - apply reachable_w_two.
  - reflexivity.
  - reflexivity.
  - exact Hne.
  - apply (proj2 (proj2 (delivered_only_while_active hub0))
             w_two 1%positive 2%positive client_a client_b
             reachable_w_two eq_refl eq_refl Hne).
Defined.

Lemma steps_got2 : steps hub0 w_got [Recv (ReqBroadcast 8) (everyone [1%positive])] w_got2.
Proof. apply steps_single; [apply range_ok_dom; compute_done|reflexivity]. Qed.

Lemma steps_late : steps hub0 w_one [Recv (ReqBroadcast 8) (everyone [1%positive])] w_late.
Proof. apply steps_single; [apply range_w_one|reflexivity]. Qed.

(** A late joiner: broadcast 7, then register client 1, then broadcast 8.
    Client 1 receives 8; it has not received 7, and its queue was not closed
    before 7 was fanned out (it did not exist yet).  So "no subscriber
    receives M2 without first receiving M1 or being evicted before M1" does
    not hold of this run. *)
Lemma late_joiner_counterexample :
  steps hub0 NewHub [] (@NewHub nat) ∧
  steps hub0 NewHub [Recv (ReqBroadcast 7) idle] (@NewHub nat) ∧
  steps hub0 NewHub run_one w_one ∧
  steps hub0 w_one [Recv (ReqBroadcast 8) (everyone [1%positive])] w_late ∧
  objs w_late !! 1%positive = Some client_a ∧
  received (Messages client_a) (log w_late) =
    received (Messages client_a) (log w_one) ++ [8] ∧
  ¬ (received (Messages client_a) (log (@NewHub nat)) =
       received (Messages client_a) (log (@NewHub nat)) ++ [7] ∨
     is_closed (@NewHub nat) (Messages client_a)).
Proof.
  split_and!.
  - constructor.
  - apply steps_early.
  - apply steps_run_one.
  - apply steps_late.
  - reflexivity.
  - reflexivity.
  - intros [Hrec|Hcl]; [discriminate Hrec|discriminate Hcl].
Qed.

(** [delivery_in_broadcast_order]: client 1 receives 7 and then 8. *)
Lemma delivery_in_broadcast_order_witness :
  (steps hub0 NewHub run_got w_got ∧ objs w_got !! 1%positive = Some client_a ∧
   sublist (received 11 (log w_got)) (broadcasts run_got)) ∧
  (steps hub0 NewHub run_one w_one ∧
   steps hub0 w_one [Recv (ReqBroadcast 7) (everyone [1%positive])] w_got ∧
   steps hub0 w_got [] w_got ∧
   steps hub0 w_got [Recv (ReqBroadcast 8) (everyone [1%positive])] w_got2 ∧
   objs w_got2 !! 1%positive = Some client_a ∧
   received 11 (log w_got2) = received 11 (log w_got) ++ [8] ∧
   (received 11 (log w_got) = received 11 (log w_one) ++ [7] ∨
    is_closed w_one 11 ∨ (EvInsert 1 ∉ log w_one))) ∧
  (reachable hub0 w_one ∧ active w_one 1 ∧ objs w_one !! 1%positive = Some client_a ∧
   received 11 (log w_got2) = received 11 (log w_one) ++ [7; 8] ∧ active w_got2 1).
Proof.
  split_and!.
  - apply steps_run_got.
  - reflexivity.
  - apply (proj1 (delivery_in_broadcast_order hub0) run_got w_got 1%positive client_a
             steps_run_got eq_refl).
  - apply steps_run_one.
  - apply steps_got.
  - constructor.
  - apply steps_got2.
  - reflexivity.
  - reflexivity.
  - apply (proj1 (proj2 (delivery_in_broadcast_order hub0))
             run_one w_one 7 (everyone [1%positive]) w_got [] w_got 8
             (everyone [1%positive]) w_got2 1%positive client_a
             steps_run_one steps_got (steps_nil hub0 w_got) steps_got2 eq_refl eq_refl).
  - apply reachable_w_one.
  - apply active_w_one.
  - reflexivity.
  - assert (steps hub0 w_one [Recv (ReqBroadcast 7) (everyone [1%positive]);
                              Recv (ReqBroadcast 8) (everyone [1%positive])] w_got2) as Hs.
    { apply (steps_app hub0 w_one [_] [_]). exists w_got.
      split; [apply steps_got|apply steps_got2]. }
    apply (proj2 (proj2 (delivery_in_broadcast_order hub0)) w_one _ w_got2 1%positive
             client_a reachable_w_one Hs active_w_one eq_refl);
      repeat constructor.
  - by eexists.
Defined.

Lemma sys_steps_cons {Message} h (σ : @System Message) l σ1 tr σ2 :
  sys_step h σ l σ1 → sys_steps h σ1 tr σ2 → sys_steps h σ (l :: tr) σ2.
Proof.
  intros Hstep Hs. apply (sys_steps_trans h σ [l] σ1 tr σ2); [|done].
  apply (sys_steps_snoc h σ [] σ l σ1); [constructor|done].
Qed.

Lemma step_s_call : sys_step hub0 boot (LCall 0 (CallRegister "a")) s_call.
Proof. by apply (step_call hub0 boot 0 (CallRegister "a")). Qed.

Lemma step_s_alloc : sys_step hub0 s_call (LAlloc 0 1 11) s_alloc.
Proof. by apply (step_alloc hub0 s_call 0 "a" 1 11). Qed.

Lemma step_s_taken : sys_step hub0 s_alloc (LAccept 0 (ReqRegister 1)) s_taken.
Proof. by apply (step_accept hub0 s_alloc 0 (RegisterSend 1) (ReqRegister 1) (RegisterEnd 1)). Qed.

Lemma step_s_early : sys_step hub0 s_taken (LReturn 0 (Some 1%positive)) s_early.
Proof. by apply (step_return hub0 s_taken 0 (RegisterEnd 1) (Some 1%positive)). Qed.

Lemma step_s_done : sys_step hub0 s_early (LBody (ReqRegister 1) idle) s_done.
Proof. by apply (step_body hub0 s_early (ReqRegister 1) idle w_one). Qed.

Lemma step_s_bcall : sys_step hub0 s_done (LCall 1 (CallBroadcast 7)) s_bcall.
Proof. by apply (step_call hub0 s_done 1 (CallBroadcast 7)). Qed.

Lemma step_s_btaken : sys_step hub0 s_bcall (LAccept 1 (ReqBroadcast 7)) s_btaken.
Proof. by apply (step_accept hub0 s_bcall 1 (BroadcastSend 7) (ReqBroadcast 7) BroadcastEnd). Qed.

Lemma step_s_bdone :
  sys_step hub0 s_btaken (LBody (ReqBroadcast 7) (everyone [1%positive])) s_bdone.
Proof.
  apply (step_body hub0 s_btaken (ReqBroadcast 7) (everyone [1%positive]) w_got);
    [done|apply range_w_one|reflexivity].
Qed.

Lemma step_s_breturned : sys_step hub0 s_btaken (LReturn 1 None) s_breturned.
Proof. by apply (step_return hub0 s_btaken 1 BroadcastEnd None). Qed.

Lemma reach_s_call : sys_reachable hub0 s_call.
Proof. exists [LCall 0 (CallRegister "a")]. eapply sys_steps_cons; [apply step_s_call|constructor]. Qed.

Lemma reach_s_alloc : sys_reachable hub0 s_alloc.
Proof.
  exists [LCall 0 (CallRegister "a"); LAlloc 0 1 11].
  eapply sys_steps_cons; [apply step_s_call|].
  eapply sys_steps_cons; [apply step_s_alloc|constructor].
Qed.

Lemma reach_s_done : sys_reachable hub0 s_done.
Proof.
  exists [LCall 0 (CallRegister "a"); LAlloc 0 1 11; LAccept 0 (ReqRegister 1);
          LReturn 0 (Some 1%positive); LBody (ReqRegister 1) idle].
  eapply sys_steps_cons; [apply step_s_call|].
  eapply sys_steps_cons; [apply step_s_alloc|].
  eapply sys_steps_cons; [apply step_s_taken|].
  eapply sys_steps_cons; [apply step_s_early|].
  eapply sys_steps_cons; [apply step_s_done|constructor].
Qed.

(** [register_visible_to_later_broadcasts]: a [Register] call that has
    returned, then a [Broadcast] call. *)
Lemma register_visible_to_later_broadcasts_witness :
  sys_reachable hub0 s_done ∧
  gos s_done !! 0 = Some (Returned (Some 1%positive)) ∧
  sys_steps hub0 s_done [LCall 1 (CallBroadcast 7)] s_bcall ∧
  sys_step hub0 s_bcall (LAccept 1 (ReqBroadcast 7)) s_btaken ∧
  sys_step hub0 s_btaken (LBody (ReqBroadcast 7) (everyone [1%positive])) s_bdone ∧
  EvInsert 1 ∈ log (world s_bcall) ∧
  ∃ hc, objs (world s_btaken) !! 1%positive = Some hc ∧
    ((active (world s_btaken) 1 ∧
      ∃ evs, log (world s_bdone) = log (world s_btaken) ++ evs ∧
             attempts (Messages hc) evs = [ready (everyone [1%positive]) (Messages hc)]) ∨
     (¬ active (world s_btaken) 1 ∧ EvDelete 1 ∈ log (world s_btaken) ∧
      is_closed (world s_btaken) (Messages hc))).
Proof.
  assert (sys_steps hub0 s_done [LCall 1 (CallBroadcast 7)] s_bcall) as Hs.
  { eapply sys_steps_cons; [apply step_s_bcall|constructor]. }
  split; [apply reach_s_done|]. split; [reflexivity|]. split; [exact Hs|].
  split; [apply step_s_btaken|]. split; [apply step_s_bdone|].
  apply (register_visible_to_later_broadcasts hub0 s_done 0 1%positive
           [LCall 1 (CallBroadcast 7)] s_bcall 1 7 s_btaken (everyone [1%positive]) s_bdone
           reach_s_done eq_refl Hs step_s_btaken step_s_bdone).
Defined.

(** [broadcast_returns_after_acceptance]: a [Broadcast] call that returns
    before the loop has run the fan-out. *)
Lemma broadcast_returns_after_acceptance_witness :
  (gos s_bcall !! 1 = Some (BroadcastSend 7) ∧
   sys_step hub0 s_bcall (LAccept 1 (ReqBroadcast 7)) s_btaken ∧
   gos s_btaken !! 1 ≠ Some (BroadcastSend 7) ∧
   run s_bcall = Select ∧ run s_btaken = Body (ReqBroadcast 7) ∧
   world s_btaken = world s_bcall) ∧
  (sys_reachable hub0 s_breturned ∧
   LAccept 1 (ReqBroadcast 7) ∈
     [LCall 0 (CallRegister "a"); LAlloc 0 1 11; LAccept 0 (ReqRegister 1);
      LReturn 0 (Some 1%positive); LBody (ReqRegister 1) idle;
      LCall 1 (CallBroadcast 7); @LAccept nat 1 (ReqBroadcast 7)]) ∧
  (∃ σ2, sys_step hub0 s_btaken (LReturn 1 None) σ2 ∧
         run σ2 = Body (ReqBroadcast 7) ∧ world σ2 = world s_bcall ∧
         log (world σ2) = log (world s_bcall)).
Proof.
  assert (gos s_btaken !! 1 ≠ Some (BroadcastSend 7)) as Hne by done.
  set (tr1 := [LCall 0 (CallRegister "a"); LAlloc 0 1 11; LAccept 0 (ReqRegister 1);
               LReturn 0 (Some 1%positive); LBody (ReqRegister 1) idle;
               LCall 1 (CallBroadcast 7); @LAccept nat 1 (ReqBroadcast 7)]).
  assert (sys_steps hub0 boot (tr1 ++ [LReturn 1 None]) s_breturned) as Hs.
  { eapply sys_steps_cons; [apply step_s_call|].
    eapply sys_steps_cons; [apply step_s_alloc|].
    eapply sys_steps_cons; [apply step_s_taken|].
    eapply sys_steps_cons; [apply step_s_early|].
    eapply sys_steps_cons; [apply step_s_done|].
    eapply sys_steps_cons; [apply step_s_bcall|].
    eapply sys_steps_cons; [apply step_s_btaken|].
    eapply sys_steps_cons; [apply step_s_breturned|constructor]. }
  assert (LCall 1 (CallBroadcast 7) ∈ tr1) as Hcall.
  { unfold tr1. do 5 right. left. }
  split_and!.
  - reflexivity.
  - apply step_s_btaken.
  - exact Hne.
  - apply (proj1 (broadcast_returns_after_acceptance hub0) s_bcall 1 7 _ s_btaken
             eq_refl step_s_btaken Hne).
  - apply (proj1 (broadcast_returns_after_acceptance hub0) s_bcall 1 7 _ s_btaken
             eq_refl step_s_btaken Hne).
  - apply (proj1 (broadcast_returns_after_acceptance hub0) s_bcall 1 7 _ s_btaken
             eq_refl step_s_btaken Hne).
  - by eexists.
  - apply (proj1 (proj2 (broadcast_returns_after_acceptance hub0))
             _ s_breturned 1 7 tr1 None [] Hs eq_refl Hcall).
  - apply (proj2 (proj2 (broadcast_returns_after_acceptance hub0))
             s_bcall 1 7 s_btaken step_s_btaken).
Defined.

(** [register_returns_before_processing]: one [Register] call. *)
Lemma register_returns_before_processing_witness :
  (sys_reachable hub0 s_call ∧ gos s_call !! 0 = Some (RegisterAlloc "a") ∧
   sys_step hub0 s_call (LAlloc 0 1 11) s_alloc ∧
   gos s_alloc !! 0 ≠ Some (RegisterAlloc "a") ∧
   ∃ c ch, @LAlloc nat 0 1 11 = LAlloc 0 c ch ∧
     objs (world s_call) !! c = None ∧ chans (world s_call) !! ch = None ∧
     objs (world s_alloc) !! c = Some (mkHubClient ch "a" hub0) ∧
     is_open (world s_alloc) ch ∧ attempts ch (log (world s_alloc)) = [] ∧
     ¬ active (world s_alloc) c ∧
     gos s_alloc !! 0 = Some (RegisterSend c)) ∧
  (gos s_alloc !! 0 = Some (RegisterSend 1) ∧
   sys_step hub0 s_alloc (LAccept 0 (ReqRegister 1)) s_taken ∧
   gos s_taken !! 0 ≠ Some (RegisterSend 1) ∧
   run s_alloc = Select ∧ run s_taken = Body (ReqRegister 1)) ∧
  (sys_reachable hub0 s_alloc ∧
   ∃ σ2, sys_step hub0 s_taken (LReturn 0 (Some 1%positive)) σ2 ∧
         gos σ2 !! 0 = Some (Returned (Some 1%positive)) ∧
         run σ2 = Body (ReqRegister 1) ∧
         ¬ active (world σ2) 1 ∧ EvInsert 1 ∉ log (world σ2)).
Proof.
  assert (gos s_alloc !! 0 ≠ Some (RegisterAlloc "a")) as Hne1 by done.
  assert (gos s_taken !! 0 ≠ Some (RegisterSend 1)) as Hne2 by done.
  split_and!.
  - apply reach_s_call.
  - reflexivity.
  - apply step_s_alloc.
  - exact Hne1.
  - apply (proj1 (register_returns_before_processing hub0) s_call 0 "a" _ s_alloc
             reach_s_call eq_refl step_s_alloc Hne1).
  - reflexivity.
  - apply step_s_taken.
  - exact Hne2.
  - apply (proj1 (proj2 (register_returns_before_processing hub0)) s_alloc 0 1%positive _
             s_taken eq_refl step_s_taken Hne2).
  - apply (proj1 (proj2 (register_returns_before_processing hub0)) s_alloc 0 1%positive _
             s_taken eq_refl step_s_taken Hne2).
  - apply reach_s_alloc.
  - apply (proj2 (proj2 (register_returns_before_processing hub0)) s_alloc 0 1%positive
             s_taken reach_s_alloc step_s_taken).
Defined.

Lemma reach_s_btaken : sys_reachable hub0 s_btaken.
Proof.
  destruct reach_s_done as [tr Hs].
  exists (tr ++ [LCall 1 (CallBroadcast 7); LAccept 1 (ReqBroadcast 7)]).
  eapply sys_steps_trans; [exact Hs|].
  eapply sys_steps_cons; [apply step_s_bcall|].
  eapply sys_steps_cons; [apply step_s_btaken|constructor].
Qed.

(** [no_panic_reachable] with one registered client: in the hub's memory,
    and in the program while the loop has a broadcast in hand. *)
Lemma no_panic_reachable_witness :
  (reachable hub0 w_one ∧
   (∃ hc, objs w_one !! 1%positive = Some hc ∧ is_open w_one (Messages hc) ∧
          closes (Messages hc) (log w_one) = 0) ∧
   (∃ w1, do_action hub0 (Recv (ReqBroadcast 7) (nobody [1%positive])) w_one = Ok w1) ∧
   closes 11 (log w_gone) ≤ 1) ∧
  (sys_reachable hub0 s_btaken ∧ run s_btaken = Body (ReqBroadcast 7) ∧
   env_ok (world s_btaken) (ReqBroadcast 7) (everyone [1%positive]) ∧
   reachable hub0 (world s_btaken) ∧
   ∃ w1, Run_iter (everyone [1%positive]) (ReqBroadcast 7) (world s_btaken) = Ok w1 ∧
         sys_step hub0 s_btaken (LBody (ReqBroadcast 7) (everyone [1%positive]))
           (mkSystem w1 Select (gos s_btaken))).
Proof.
  split.
  - split; [apply reachable_w_one|].
    destruct (proj1 (no_panic_reachable hub0) w_one reachable_w_one)
      as (Hopen & Hok & _ & _).
    split; [apply (Hopen 1%positive active_w_one)|].
    split; [apply (Hok (Recv (ReqBroadcast 7) (nobody [1%positive]))), range_w_one|].
    assert (reachable hub0 w_gone) as Hr.
    { exists (run_one ++ [Recv (ReqBroadcast 7) (nobody [1%positive])]).
      apply steps_app. exists w_one. split; [apply steps_run_one|apply steps_stalled]. }
    by destruct (proj1 (no_panic_reachable hub0) w_gone Hr) as (_ & _ & _ & Hhist);
      destruct (Hhist 11%positive).
  - split; [apply reach_s_btaken|]. split; [reflexivity|]. split; [apply range_w_one|].
    destruct (proj2 (no_panic_reachable hub0) s_btaken (ReqBroadcast 7)
                (everyone [1%positive]) reach_s_btaken) as [Hw Hbody].
    split; [exact Hw|]. apply Hbody; [reflexivity|apply range_w_one].
Defined.

(** ** More concrete runs *)

Lemma range_w_two_rev : range_ok w_two [2; 1]%positive.
Proof. apply range_ok_dom; compute_done. Qed.

Lemma reachable_w_gone : reachable hub0 w_gone.
Proof.
  exists (run_one ++ [Recv (ReqBroadcast 7) (nobody [1%positive])]).
  apply steps_app. exists w_one. split; [apply steps_run_one|apply steps_stalled].
Qed.

Lemma steps_run_after : steps hub0 w_gone run_after w_after.
Proof.
  apply (steps_app hub0 w_gone [_] [_; _]). eexists. split.
  { apply steps_single; [split|]; reflexivity. }
  apply (steps_app hub0 _ [_] [_]). eexists. split.
  - apply steps_single; [split; [by eexists|compute_done]|reflexivity].
  - apply steps_single; [apply range_ok_dom; compute_done|reflexivity].
Qed.

Lemma step_s_ucall : sys_step hub0 s_done (LCall 1 (CallUnregister 1)) s_ucall.
Proof. apply (step_call hub0 s_done 1 (CallUnregister 1)); [done|]. by exists 0. Qed.

Lemma step_s_utaken : sys_step hub0 s_ucall (LAccept 1 (ReqUnregister 1)) s_utaken.
Proof.
  by apply (step_accept hub0 s_ucall 1 (UnregisterSend 1) (ReqUnregister 1) UnregisterEnd).
Qed.

Lemma step_s_udone : sys_step hub0 s_utaken (LBody (ReqUnregister 1) idle) s_udone.
Proof. by apply (step_body hub0 s_utaken (ReqUnregister 1) idle w_unreg). Qed.

Lemma reach_s_bcall : sys_reachable hub0 s_bcall.
Proof.
  destruct reach_s_done as [tr Hs]. exists (tr ++ [LCall 1 (CallBroadcast 7)]).
  eapply sys_steps_trans; [exact Hs|].
  eapply sys_steps_cons; [apply step_s_bcall|constructor].
Qed.

Lemma reach_s_ucall : sys_reachable hub0 s_ucall.
Proof.
  destruct reach_s_done as [tr Hs]. exists (tr ++ [LCall 1 (CallUnregister 1)]).
  eapply sys_steps_trans; [exact Hs|].
  eapply sys_steps_cons; [apply step_s_ucall|constructor].
Qed.

Lemma reach_s_utaken : sys_reachable hub0 s_utaken.
Proof.
  destruct reach_s_ucall as [tr Hs]. exists (tr ++ [LAccept 1 (ReqUnregister 1)]).
  eapply sys_steps_trans; [exact Hs|].
  eapply sys_steps_cons; [apply step_s_utaken|constructor].
Qed.

(** [fanout_order_irrelevant]: two clients, one reading and one not, in
    both orders. *)
Lemma fanout_order_irrelevant_witness :
  reachable hub0 w_two ∧ range_ok w_two [1; 2]%positive ∧
  range_ok w_two [2; 1]%positive ∧
  ∃ w1 w2,
    Run_iter (only 11 [1; 2]%positive) (ReqBroadcast 7) w_two = Ok w1 ∧
    Run_iter (only 11 [2; 1]%positive) (ReqBroadcast 7) w_two = Ok w2 ∧
    clients w1 = clients w2 ∧ chans w1 = chans w2 ∧ log w1 ≡ₚ log w2 ∧
    received 11 (log w1) = received 11 (log w2) ∧
    closes 12 (log w1) = closes 12 (log w2).
Proof.
  split; [apply reachable_w_two|]. split; [apply range_w_two|].
  split; [apply range_w_two_rev|].
  destruct (fanout_order_irrelevant hub0 (λ x, bool_decide (x = 11%positive))
              [1; 2]%positive [2; 1]%positive 7 w_two
              reachable_w_two range_w_two range_w_two_rev)
    as (w1 & w2 & H1 & H2 & Hc & _ & Hch & Hl & Hr).
  exists w1, w2. split; [exact H1|]. split; [exact H2|]. split; [exact Hc|].
  split; [exact Hch|]. split; [exact Hl|].
  split; [apply (Hr 11%positive)|apply (Hr 12%positive)].
Defined.

(** [closed_queue_is_final]: client 1 was evicted; then client 2 registers
    and a message is broadcast. *)
Lemma closed_queue_is_final_witness :
  reachable hub0 w_gone ∧ steps hub0 w_gone run_after w_after ∧
  objs w_gone !! 1%positive = Some client_a ∧ is_closed w_gone 11 ∧
  is_closed w_after 11 ∧ ¬ active w_after 1 ∧
  attempts 11 (log w_after) = attempts 11 (log w_gone) ∧
  received 11 (log w_after) = received 11 (log w_gone) ∧
  closes 11 (log w_after) = 1.
Proof.
  split; [apply reachable_w_gone|]. split; [apply steps_run_after|].
  split; [reflexivity|]. split; [reflexivity|].
  apply (closed_queue_is_final hub0 w_gone run_after w_after 1%positive client_a
           reachable_w_gone steps_run_after eq_refl eq_refl).
Defined.

(** [clients_map_accounting] after one [Register] call. *)
Lemma clients_map_accounting_witness :
  sys_reachable hub0 s_done ∧
  inserts 1 (log (world s_done)) ≤ 1 ∧
  deletes 1 (log (world s_done)) ≤ inserts 1 (log (world s_done)) ∧
  (active (world s_done) 1 ↔
     inserts 1 (log (world s_done)) = 1 ∧ deletes 1 (log (world s_done)) = 0) ∧
  (∀ hc, objs (world s_done) !! 1%positive = Some hc →
     closes (Messages hc) (log (world s_done)) = deletes 1 (log (world s_done)) ∧
     (is_closed (world s_done) (Messages hc) ↔ deletes 1 (log (world s_done)) = 1)).
Proof.
  split; [apply reach_s_done|].
  apply (clients_map_accounting hub0 s_done 1%positive reach_s_done).
Defined.

(** [calls_can_complete]: a [Broadcast] call at its send, with no reader
    waiting anywhere. *)
Lemma calls_can_complete_witness :
  sys_reachable hub0 s_bcall ∧ gos s_bcall !! 1 = Some (BroadcastSend 7) ∧
  ∃ tr σ1 v, sys_steps hub0 s_bcall tr σ1 ∧ gos σ1 !! 1 = Some (Returned v) ∧
    length tr ≤ 4 ∧ Forall (readers (λ _, false)) tr ∧
    ∀ g', g' ≠ 1 → gos σ1 !! g' = gos s_bcall !! g'.
Proof.
  split; [apply reach_s_bcall|]. split; [reflexivity|].
  apply (calls_can_complete hub0 s_bcall 1 (BroadcastSend 7) (λ _, false)
           reach_s_bcall eq_refl).
Defined.

(** [unregister_call]: the [Unregister] call on the client that [Register]
    returned. *)
Lemma unregister_call_witness :
  (gos s_ucall !! 1 = Some (UnregisterSend 1) ∧
   sys_step hub0 s_ucall (LAccept 1 (ReqUnregister 1)) s_utaken ∧
   gos s_utaken !! 1 ≠ Some (UnregisterSend 1) ∧
   run s_ucall = Select ∧ run s_utaken = Body (ReqUnregister 1) ∧
   world s_utaken = world s_ucall ∧ gos s_utaken !! 1 = Some UnregisterEnd) ∧
  (sys_reachable hub0 s_ucall ∧
   ∃ hc, objs (world s_ucall) !! 1%positive = Some hc ∧ hub hc = hub0 ∧
     sends hub0 (world s_ucall) (UnregisterSend 1)
       = Some (ReqUnregister 1, UnregisterEnd) ∧
     (run s_ucall = Select → EvInsert 1 ∈ log (world s_ucall))) ∧
  (sys_reachable hub0 s_utaken ∧
   sys_step hub0 s_utaken (LBody (ReqUnregister 1) idle) s_udone ∧
   sys_steps hub0 s_udone [] s_udone ∧
   ∃ hc, objs (world s_utaken) !! 1%positive = Some hc ∧
     ¬ active (world s_udone) 1 ∧ is_closed (world s_udone) (Messages hc) ∧
     closes (Messages hc) (log (world s_udone)) = 1).
Proof.
  assert (gos s_utaken !! 1 ≠ Some (UnregisterSend 1)) as Hne by (vm_compute; congruence).
  destruct (unregister_call hub0 (Message := nat)) as (Ha & Hb & Hc).
  split; [|split].
  - split; [reflexivity|]. split; [apply step_s_utaken|]. split; [exact Hne|].
    destruct (Ha s_ucall 1 1%positive (LAccept 1 (ReqUnregister 1)) s_utaken
                eq_refl step_s_utaken Hne) as (_ & ? & ? & ? & ?). done.
  - split; [apply reach_s_ucall|].
    apply (Hb s_ucall 1 1%positive reach_s_ucall eq_refl).
  - split; [apply reach_s_utaken|]. split; [apply step_s_udone|].
    split; [constructor|].
    apply (Hc s_utaken 1%positive idle s_udone [] s_udone
             reach_s_utaken step_s_udone (sys_steps_nil hub0 s_udone)).
Defined.

(** [register_results_distinct] for the client of the one [Register]
    call. *)
Lemma register_results_distinct_witness :
  sys_reachable hub0 s_done ∧ gos s_done !! 0 = Some (Returned (Some 1%positive)) ∧
  ∃ hc, objs (world s_done) !! 1%positive = Some hc ∧ hub hc = hub0 ∧
    is_Some (chans (world s_done) !! Messages hc) ∧
    (∀ g' pc, gos s_done !! g' = Some pc → carries 1 pc → g' = 0) ∧
    (∀ c' hc', objs (world s_done) !! c' = Some hc' →
       Messages hc' = Messages hc → c' = 1%positive).
Proof.
  split; [apply reach_s_done|]. split; [reflexivity|].
  apply (register_results_distinct hub0 s_done 0 1%positive reach_s_done eq_refl).
Defined.

(** ** The libvirt wrapper at concrete answers *)

Import LibvirtScenario.

(** [GetOrCreateNetwork_result]: the network is missing and gets created;
    and the lookup fails for another reason. *)
Lemma GetOrCreateNetwork_result_witness :
  (GetOrCreateNetwork lv_missing "mulch" "network.xml"
     = (net_calls, Returns (Some 2, Some "<network/>", None)) ∧
   ∃ doc c, Some "<network/>" = Some c ∧
     Network_GetXMLDesc lv_missing (Some 2) 0 = Returns (doc, None) ∧
     Network_Unmarshal lv_missing doc = Returns (c, None)) ∧
  (GetOrCreateNetwork lv_broken "mulch" "network.xml"
     = ([LvLookupNetworkByName "mulch"],
        Returns (None, None,
                 Some (OtherError
                   "GetOrCreateNetwork: Unexpected error: cannot open directory"))) ∧
   ∃ rest, OtherError "GetOrCreateNetwork: Unexpected error: cannot open directory"
           = OtherError ("GetOrCreateNetwork: " +:+ rest)).
Proof.
  split; (split; [reflexivity|]).
  - destruct (GetOrCreateNetwork_result lv_missing "mulch" "network.xml" net_calls
                (Some 2) (Some "<network/>") None eq_refl)
      as (doc & c & H1 & H2 & H3 & _).
    exists doc, c. split; [exact H1|]. split; [exact H2|exact H3].
  - destruct (GetOrCreateNetwork_result lv_broken "mulch" "network.xml"
                [LvLookupNetworkByName "mulch"] None None
                (Some (OtherError
                   "GetOrCreateNetwork: Unexpected error: cannot open directory"))
                eq_refl) as (_ & _ & Hrest).
    exact Hrest.
Defined.

(** [GetOrCreateNetwork_creates_only_if_missing]: the start of a network
    that was missing; and a lookup that fails for another reason. *)
Lemma GetOrCreateNetwork_creates_only_if_missing_witness :
  (create_net ∈ (GetOrCreateNetwork lv_missing "mulch" "network.xml").1 ∧
   creates create_net ∧
   ∃ found text,
     LookupNetworkByName lv_missing "mulch"
       = Returns (found, Some (LibvirtError 43 19 text))) ∧
  (LookupNetworkByName lv_broken "mulch"
     = Returns (None, Some (LibvirtError 38 0 "cannot open directory")) ∧
   GetOrCreateNetwork lv_broken "mulch" "network.xml"
     = ([LvLookupNetworkByName "mulch"],
        Returns (None, None,
                 Some (OtherError
                   "GetOrCreateNetwork: Unexpected error: cannot open directory")))).
Proof.
  destruct (GetOrCreateNetwork_creates_only_if_missing lv_missing "mulch" "network.xml")
    as [Hc _].
  destruct (GetOrCreateNetwork_creates_only_if_missing lv_broken "mulch" "network.xml")
    as [_ Hu].
  assert (create_net ∈ (GetOrCreateNetwork lv_missing "mulch" "network.xml").1) as Hin.
  { change (create_net ∈ net_calls). unfold net_calls, create_net.
    do 5 apply list_elem_of_further. apply list_elem_of_here. }
  split.
  - split; [exact Hin|]. split; [exact I|]. exact (Hc create_net Hin I).
  - split; [reflexivity|].
    apply (Hu None (LibvirtError 38 0 "cannot open directory") eq_refl).
    intros text Heq. discriminate Heq.
Defined.

(** [GetOrCreateStoragePool_ignores_SetAutostart]: [SetAutostart] fails,
    or does not; the pool is returned just the same. *)
Lemma GetOrCreateStoragePool_ignores_SetAutostart_witness :
  GetOrCreateStoragePool (with_SetAutostart (λ _ _, Returns None) lv_missing)
    "mulch-disks" "disks" "storage.xml" "0711" =
  GetOrCreateStoragePool lv_missing "mulch-disks" "disks" "storage.xml" "0711" ∧
  StoragePool_SetAutostart lv_missing (Some 1) true
    = Returns (Some (OtherError "autostart failed")) ∧
  GetOrCreateStoragePool lv_missing "mulch-disks" "disks" "storage.xml" "0711"
    = (pool_calls, Returns (Some 1, None)).
Proof.
  split; [|split; reflexivity].
  apply (GetOrCreateStoragePool_ignores_SetAutostart lv_missing (λ _ _, Returns None)).
  - intros pool b Heq. discriminate Heq.
  - intros pool b Heq. discriminate Heq.
Defined.

(** [GetOrCreateStoragePool_lookup_error_dropped]: the lookup says that the
    pool is not active; the function returns the pool and no error. *)
Lemma GetOrCreateStoragePool_lookup_error_dropped_witness :
  LookupStoragePoolByName lv_broken "mulch-disks"
    = Returns (Some 5, Some (LibvirtError 55 18 "storage pool is not active")) ∧
  ¬ (18%Z = FROM_STORAGE lv_broken ∧ 55%Z = ERR_NO_STORAGE_POOL lv_broken) ∧
  GetOrCreateStoragePool lv_broken "mulch-disks" "disks" "storage.xml" "0711"
    = ([LvLookupStoragePoolByName "mulch-disks"; LvPoolRefresh (Some 5) 0],
       Returns (Some 5, None)).
Proof.
  assert (¬ (18%Z = FROM_STORAGE lv_broken ∧ 55%Z = ERR_NO_STORAGE_POOL lv_broken))
    as Hne by (intros [_ Heq]; discriminate Heq).
  split; [reflexivity|]. split; [exact Hne|].
  apply (GetOrCreateStoragePool_lookup_error_dropped lv_broken "mulch-disks" "disks"
           "storage.xml" "0711" (Some 5) 55 18 "storage pool is not active"
           eq_refl Hne).
Defined.

(** [GetOrCreateStoragePool_result]: a pool that was missing. *)
Lemma GetOrCreateStoragePool_result_witness :
  GetOrCreateStoragePool lv_missing "mulch-disks" "disks" "storage.xml" "0711"
    = (pool_calls, Returns (Some 1, None)) ∧
  StoragePool_Refresh lv_missing (Some 1) 0 = Returns None ∧
  last pool_calls = Some (LvPoolRefresh (Some 1) 0).
Proof.
  split; [reflexivity|].
  destruct (GetOrCreateStoragePool_result lv_missing "mulch-disks" "disks"
              "storage.xml" "0711" pool_calls (Some 1) None eq_refl)
    as (H1 & H2 & _).
  split; [exact H1|exact H2].
Defined.

(** [initLibvirtNetwork_result]: the network gets created; and the lookup
    fails. *)
Lemma initLibvirtNetwork_result_witness :
  (initLibvirtNetwork lv_missing "/etc/mulch" (mkLibvirt None None)
     = (init_calls, Returns (mkLibvirt (Some 2) (Some "<network/>"), None)) ∧
   ∃ calls0 net cfg address bridge,
     GetOrCreateNetwork lv_missing "mulch" "/etc/mulch/templates/network.xml"
       = (calls0, Returns (net, Some cfg, None)) ∧
     mkLibvirt (Some 2) (Some "<network/>") = mkLibvirt net (Some cfg) ∧
     get_IPs_0_Address lv_missing cfg = Returns address ∧
     get_Bridge_Name lv_missing cfg = Returns bridge ∧
     init_calls = calls0 ++ [LvInfo ("network '" +:+ get_Name lv_missing cfg +:+ "': "
                                       +:+ address +:+ " (" +:+ bridge +:+ ")")]) ∧
  (initLibvirtNetwork lv_broken "/etc/mulch" (mkLibvirt (Some 7) None)
     = ([LvLookupNetworkByName "mulch"],
        Returns (mkLibvirt (Some 7) None,
                 Some (OtherError "initLibvirtNetwork: GetOrCreateNetwork: Unexpected error: cannot open directory"))) ∧
   mkLibvirt (Some 7) (@None string) = mkLibvirt (Some 7) None).
Proof.
  split; (split; [reflexivity|]).
  - apply (initLibvirtNetwork_result lv_missing "/etc/mulch" (mkLibvirt None None)
             init_calls (mkLibvirt (Some 2) (Some "<network/>")) None eq_refl).
  - destruct (initLibvirtNetwork_result lv_broken "/etc/mulch" (mkLibvirt (Some 7) None)
                [LvLookupNetworkByName "mulch"] (mkLibvirt (Some 7) None)
                (Some (OtherError "initLibvirtNetwork: GetOrCreateNetwork: Unexpected error: cannot open directory"))
                eq_refl) as [Hsame _].
    exact Hsame.
Defined.

(** ** The check of the VM database at a concrete database *)

Import VMDBScenario.


(** ** The test client at concrete servers *)

Import ClientScenario.

(** [client_prints_until_first_error]: two messages and the end of the
    stream; a refused request; a stream without end. *)
Lemma client_prints_until_first_error_witness :
  main show 5 srv_two localhost = (["info: a"; "trace: b"], Completed) ∧
  ((main show 5 srv_down localhost).1 = [] ∧
   (main show 5 srv_down localhost).2 ≠ Completed) ∧
  ((main show 3 srv_endless localhost).2 = StillReading ∧
   length (main show 3 srv_endless localhost).1 = 3).
Proof.
  destruct (client_prints_until_first_error show srv_two localhost) as (Htwo & _ & _).
  destruct (client_prints_until_first_error show srv_down localhost) as (_ & Hdown & _).
  destruct (client_prints_until_first_error show srv_endless localhost)
    as (_ & _ & Hendless).
  split; [|split].
  - apply (Htwo 5 [("info", "a"); ("trace", "b")]); try reflexivity.
    + intros [|[|j]] m Hj; simpl in Hj; try discriminate Hj;
        injection Hj as <-; reflexivity.
    + intros m Heq. discriminate Heq.
    + simpl. lia.
  - apply (Hdown 5). intros Heq. discriminate Heq.
  - apply (Hendless 3); try reflexivity. intros j. eexists. reflexivity.
Defined.
